(** * Verification of the pono model-checking engines

    A shallow embedding of three engines of the pono model checker:
    the k-induction prover ([kinduction.cpp]), the value-abstraction CEGAR
    driver ([cegar_values.cpp]) and the syntax-guided IC3 engine
    ([ic3sa.cpp]).  Stateful C++ objects become records threaded through
    the functions; exceptions and failed assertions become an outcome type;
    the SMT back-end and the inner prover are oracles taken as section
    variables. *)

From Stdlib Require Import ZArith List String Bool Lia.
From Stdlib Require Import DecimalString DecimalZ DecimalPos.
Import ListNotations.
Set Warnings "-register-all".
Local Open Scope string_scope.
Local Open Scope list_scope.
Local Open Scope Z_scope.

(** * Part I: the model *)

(** ** The logical kernel: sorts, operators, terms, solver *)

Module Smt.

(** The kinds of sort of the back-end. *)
Inductive SortKind : Type :=
| ARRAY | BOOL | BV | INT | FUNCTION.

(** A sort is a tag identifying a value space; equality is structural. *)
Inductive Sort : Type :=
| SBool
| SBV (width : N)
| SInt
| SArray (index elem : Sort)
| SFunction (args : list Sort) (res : Sort).

Definition get_sort_kind (s : Sort) : SortKind :=
  match s with
  | SBool => BOOL
  | SBV _ => BV
  | SInt => INT
  | SArray _ _ => ARRAY
  | SFunction _ _ => FUNCTION
  end.

(** The primitive operators: the ones the engines name, and the usual
    boolean, arithmetic and bit-vector operators besides. *)
Inductive PrimOp : Type :=
| And | Or | Xor | Not | Implies | Ite | Equal | Distinct
| Plus | Minus | Negate | Mult | Div | IntDiv | Mod | Abs | Pow
| Lt | Le | Gt | Ge
| BVComp | BVNot | BVNeg | BVAnd | BVOr | BVXor | BVAdd | BVSub
| BVMul | BVUdiv | BVSdiv | BVUrem | BVSrem | BVSmod
| BVUlt | BVUle | BVSlt | BVSle
| Select | Store.

(** The literal carried by a value term. *)
Inductive Lit : Type :=
| LBool (b : bool)
| LNum (z : Z).

(** A term is a symbolic constant, a value literal or an operator
    application with ordered children. *)
Inductive Term : Type :=
| Sym (name : string) (sort : Sort)
| Val (lit : Lit) (sort : Sort)
| App (op : PrimOp) (children : list Term).

Definition TermVec := list Term.

Definition SortKind_eq_dec : forall a b : SortKind, {a = b} + {a <> b}.
Proof. decide equality. Defined.

Definition Sort_eq_dec : forall a b : Sort, {a = b} + {a <> b}.
Proof.
  fix IH 1.
  decide equality.
  - apply N.eq_dec.
  - apply (list_eq_dec IH).
Defined.

Definition PrimOp_eq_dec : forall a b : PrimOp, {a = b} + {a <> b}.
Proof. decide equality. Defined.

Definition Lit_eq_dec : forall a b : Lit, {a = b} + {a <> b}.
Proof.
  decide equality.
  - apply Bool.bool_dec.
  - apply Z.eq_dec.
Defined.

(** Terms are hash-consed: identity of terms is structural equality. *)
Definition Term_eq_dec : forall a b : Term, {a = b} + {a <> b}.
Proof.
  fix IH 1.
  decide equality.
  - apply Sort_eq_dec.
  - apply string_dec.
  - apply Sort_eq_dec.
  - apply Lit_eq_dec.
  - apply (list_eq_dec IH).
  - apply PrimOp_eq_dec.
Defined.

Definition Term_eqb (a b : Term) : bool :=
  if Term_eq_dec a b then true else false.

Definition is_symbolic_const (t : Term) : bool :=
  match t with Sym _ _ => true | _ => false end.

Definition is_value (t : Term) : bool :=
  match t with Val _ _ => true | _ => false end.

(** [get_op]: the operator of an application, null for a leaf. *)
Definition get_op (t : Term) : option PrimOp :=
  match t with App op _ => Some op | _ => None end.

Definition children (t : Term) : list Term :=
  match t with App _ cs => cs | _ => [] end.

Definition elem_sort (s : Sort) : Sort :=
  match s with SArray _ e => e | _ => s end.

(** The sort of a term: stored in a leaf, computed from the operator and
    the children in an application. *)
Fixpoint get_sort (t : Term) : Sort :=
  match t with
  | Sym _ s => s
  | Val _ s => s
  | App op cs =>
      match op with
      | And | Or | Xor | Not | Implies | Equal | Distinct
      | Lt | Le | Gt | Ge | BVUlt | BVUle | BVSlt | BVSle => SBool
      | BVComp => SBV 1
      | Ite => match cs with
               | _ :: a :: _ => get_sort a
               | _ => SBool
               end
      | Select => match cs with
                  | a :: _ => elem_sort (get_sort a)
                  | [] => SBool
                  end
      | _ => match cs with
             | a :: _ => get_sort a
             | [] => SBool
             end
      end
  end.

Definition string_of_Z (z : Z) : string :=
  NilZero.string_of_int (Z.to_int z).

(** The printed form of a term, used to name the symbols made from it. *)
Definition to_string (t : Term) : string :=
  match t with
  | Sym x _ => x
  | Val (LBool true) _ => "true"
  | Val (LBool false) _ => "false"
  | Val (LNum z) _ => string_of_Z z
  | App _ _ => "(...)"
  end.

Definition make_value (b : bool) : Term := Val (LBool b) SBool.

Definition make_term (op : PrimOp) (cs : list Term) : Term := App op cs.

Inductive Value : Type :=
| VBool (b : bool)
| VNum (z : Z).

Definition Value_eqb (a b : Value) : bool :=
  match a, b with
  | VBool x, VBool y => Bool.eqb x y
  | VNum x, VNum y => Z.eqb x y
  | _, _ => false
  end.

Definition lit_value (l : Lit) : Value :=
  match l with
  | LBool b => VBool b
  | LNum z => VNum z
  end.

(** A model assigns a value to every symbol. *)
Definition Model := string -> Sort -> Value.

Section Semantics.

(** The meaning of the theory operators belongs to the back-end. *)
Variable theory : PrimOp -> list Value -> Value.

Definition apply_op (op : PrimOp) (vs : list Value) : Value :=
  match op, vs with
  | Not, [VBool a] => VBool (negb a)
  | And, [VBool a; VBool b] => VBool (a && b)
  | Or, [VBool a; VBool b] => VBool (a || b)
  | Implies, [VBool a; VBool b] => VBool (implb a b)
  | Equal, [a; b] => VBool (Value_eqb a b)
  | Distinct, [a; b] => VBool (negb (Value_eqb a b))
  | _, _ => theory op vs
  end.

Fixpoint eval (m : Model) (t : Term) : Value :=
  match t with
  | Sym x s => m x s
  | Val l _ => lit_value l
  | App op cs => apply_op op (map (eval m) cs)
  end.

Definition holds (m : Model) (t : Term) : Prop := eval m t = VBool true.

End Semantics.

(** *** The incremental solver

    The solver keeps the assertions of the outermost level and one list of
    assertions per pushed context, innermost first. *)
Record SmtSolver : Type := mkSolver {
  base : list Term;
  contexts : list (list Term)
}.

Definition fresh_solver : SmtSolver := mkSolver [] [].

Definition reset_assertions (s : SmtSolver) : SmtSolver := fresh_solver.

Definition push (s : SmtSolver) : SmtSolver :=
  mkSolver (base s) ([] :: contexts s).

(** Popping drops the innermost context.  The engines pop only what they
    pushed; with no context pushed the model leaves the solver as it is. *)
Definition pop (s : SmtSolver) : SmtSolver :=
  mkSolver (base s) (tl (contexts s)).

Definition assert_formula (f : Term) (s : SmtSolver) : SmtSolver :=
  match contexts s with
  | [] => mkSolver (f :: base s) []
  | c :: cs => mkSolver (base s) ((f :: c) :: cs)
  end.

Definition assertions (s : SmtSolver) : list Term :=
  List.concat (contexts s) ++ base s.

Definition context_level (s : SmtSolver) : nat := List.length (contexts s).

Inductive Result : Type := SAT | UNSAT | UNKNOWN.

Definition is_sat (r : Result) : bool :=
  match r with SAT => true | _ => false end.

Definition is_unsat (r : Result) : bool :=
  match r with UNSAT => true | _ => false end.

Definition is_unknown (r : Result) : bool :=
  match r with UNKNOWN => true | _ => false end.

End Smt.

(** ** Transition systems, properties and the unroller *)

Module Core.

Import Smt.

(** Modelled from the spec: the transition system of [core/ts.h], whose
    source is not part of the verified files.  A system has state
    variables, each with a primed counterpart, input variables, an initial
    predicate and a transition relation; it is functional or relational. *)
Record TransitionSystem : Type := mkTS {
  is_functional : bool;
  statevars : list Term;
  inputvars : list Term;
  init : Term;
  trans : Term
}.

(** Modelled from the spec: the primed counterpart [next(s)] of a state
    variable is the symbol of the same sort named after it. *)
Definition next (v : Term) : Term :=
  match v with
  | Sym x s => Sym (x ++ ".next") s
  | _ => v
  end.

Definition is_curr_var (ts : TransitionSystem) (t : Term) : bool :=
  existsb (Term_eqb t) (statevars ts).

(** Modelled from the spec: [make_statevar] adds a state variable of the
    given name and sort to the system and returns it. *)
Definition make_statevar (name : string) (s : Sort) (ts : TransitionSystem)
  : Term * TransitionSystem :=
  (Sym name s,
   mkTS (is_functional ts) (statevars ts ++ [Sym name s]) (inputvars ts)
        (init ts) (trans ts)).

(** Modelled from the spec: [set_behavior] replaces the initial predicate
    and the transition relation of a relational system. *)
Definition set_behavior (i t : Term) (ts : TransitionSystem) : TransitionSystem :=
  mkTS (is_functional ts) (statevars ts) (inputvars ts) i t.

(** Modelled from the spec: [assign_next(s, t)] makes [next(s) = t] part
    of the transition relation. *)
Definition assign_next (s t : Term) (ts : TransitionSystem) : TransitionSystem :=
  mkTS (is_functional ts) (statevars ts) (inputvars ts) (init ts)
       (make_term And [trans ts; make_term Equal [next s; t]]).

(** A variable is frozen when [next(s) = s] is a conjunct of the relation. *)
Fixpoint conjuncts (t : Term) : list Term :=
  match t with
  | App And [a; b] => conjuncts a ++ [b]
  | _ => [t]
  end.

Definition frozen (ts : TransitionSystem) (v : Term) : Prop :=
  In (make_term Equal [next v; v]) (conjuncts (trans ts)).

(** The name of the copy of a variable at a time step. *)
Definition timed (x : string) (i : Z) : string :=
  (x ++ "@" ++ string_of_Z i)%string.

Definition next_of (ts : TransitionSystem) (t : Term) : option Term :=
  find (fun v => Term_eqb (next v) t) (statevars ts).

(** Modelled from the spec: the unroller of [core/unroller.h].
    [at_time t i] replaces every state variable [s] and input [v] by the
    symbols [s@i] and [v@i] and every [next(s)] by [s@(i+1)]; values and
    operators are kept.  A symbol the system does not know is an unroll
    error in the source; this function leaves it as it is. *)
Fixpoint at_time (ts : TransitionSystem) (t : Term) (i : Z) : Term :=
  match t with
  | Sym x s =>
      if is_curr_var ts t then Sym (timed x i) s
      else match next_of ts t with
           | Some (Sym y _) => Sym (timed y (i + 1)) s
           | Some _ => t
           | None =>
               if existsb (Term_eqb t) (inputvars ts)
               then Sym (timed x i) s else t
           end
  | Val _ _ => t
  | App op cs => App op (map (fun c => at_time ts c i) cs)
  end.

(** The verdict of a prover. *)
Inductive ProverResult : Type := TRUE | FALSE | UNKNOWN.

(** The integers [0, 1, ..., n-1] of a counting loop. *)
Definition upto (n : Z) : list Z := map Z.of_nat (seq 0 (Z.to_nat n)).

End Core.

(** ** The k-induction prover ([kinduction.cpp]) *)

Module KInd.

Import Smt Core.

Record KInduction : Type := mkKInduction {
  ts_ : TransitionSystem;
  property_ : Term;
  solver_ : SmtSolver;
  reached_k_ : Z;
  simple_path_ : Term
}.

Definition set_solver (s : SmtSolver) (e : KInduction) : KInduction :=
  mkKInduction (ts_ e) (property_ e) s (reached_k_ e) (simple_path_ e).

Definition set_simple_path (t : Term) (e : KInduction) : KInduction :=
  mkKInduction (ts_ e) (property_ e) (solver_ e) (reached_k_ e) t.

Definition incr_reached_k (e : KInduction) : KInduction :=
  mkKInduction (ts_ e) (property_ e) (solver_ e) (reached_k_ e + 1)
               (simple_path_ e).

(** [KInduction::initialize] *)
Definition initialize (e : KInduction) : KInduction :=
  mkKInduction (ts_ e) (property_ e) (reset_assertions (solver_ e)) (-1)
               (make_value true).

(** The constructor: the members are set and [initialize] is run. *)
Definition new (ts : TransitionSystem) (prop : Term) (solver : SmtSolver)
  : KInduction :=
  initialize (mkKInduction ts prop solver 0 (make_value true)).

Section Engine.

(** The answer of the back-end to a satisfiability query, as a function
    of the formulas asserted at the time of the query. *)
Variable check_sat_oracle : list Term -> Result.

(** The unroller of the engine; [Core.at_time] is one. *)
Variable unroll : Term -> Z -> Term.

Definition check_sat (s : SmtSolver) : Result :=
  check_sat_oracle (assertions s).

Definition bad_of (e : KInduction) : Term :=
  make_term Not [property_ e].

(** [KInduction::add_simple_path_constraint] *)
Definition simple_path_disj (i j : Z) (vars : list Term) : Term :=
  fold_left
    (fun disj v =>
       let vi := unroll v i in
       let vj := unroll v j in
       let eq := make_term Equal [vi; vj] in
       let neq := make_term Not [eq] in
       make_term Or [disj; neq])
    vars (make_value false).

Definition add_simple_path_constraint (i j : Z) (e : KInduction) : KInduction :=
  let disj := simple_path_disj i j (statevars (ts_ e)) in
  set_simple_path (make_term And [simple_path_ e; disj]) e.

(** [KInduction::base_step] *)
Definition base_step (i : Z) (e : KInduction) : bool * KInduction :=
  if i <=? reached_k_ e then (true, e)
  else
    let bad := bad_of e in
    let s1 := push (solver_ e) in
    let s2 := assert_formula (unroll (init (ts_ e)) 0) s1 in
    let s3 := assert_formula (unroll bad i) s2 in
    let r := check_sat s3 in
    if is_sat r then (false, set_solver s3 e)
    else
      let s4 := pop s3 in
      let s5 := assert_formula (unroll (trans (ts_ e)) i) s4 in
      let s6 := assert_formula (unroll (property_ e) i) s5 in
      (true, set_solver s6 e).

(** [KInduction::inductive_step] *)
Definition inductive_step (i : Z) (e : KInduction) : bool * KInduction :=
  if i <=? reached_k_ e then (false, e)
  else
    let bad := bad_of e in
    let e1 := fold_left (fun e' j => add_simple_path_constraint i j e')
                        (upto i) e in
    let s1 := push (solver_ e1) in
    let s2 := assert_formula (simple_path_ e1) s1 in
    let s3 := assert_formula (unroll bad (i + 1)) s2 in
    let r := check_sat s3 in
    if is_unsat r then (true, set_solver s3 e1)
    else
      let s4 := pop s3 in
      (false, incr_reached_k (set_solver s4 e1)).

(** The loop of [KInduction::check_until]: [n] iterations are left and
    the counter is [i]. *)
Fixpoint check_until_loop (n : nat) (i : Z) (e : KInduction)
  : ProverResult * KInduction :=
  match n with
  | O => (Core.UNKNOWN, e)
  | S n' =>
      let (b, e1) := base_step i e in
      if negb b then (FALSE, e1)
      else
        let (r, e2) := inductive_step i e1 in
        if r then (TRUE, e2)
        else check_until_loop n' (i + 1) e2
  end.

(** [KInduction::check_until]: the counter runs from 0 to [k]; no
    operation on [int] overflows as long as [k < 2^31 - 1]. *)
Definition check_until (k : Z) (e : KInduction) : ProverResult * KInduction :=
  check_until_loop (Z.to_nat (k + 1)) 0 e.

(** *** Notions for the statements about the engine *)

(** The meaning of the theory operators, for the statements about models. *)
Variable theory : PrimOp -> list Value -> Value.

(** The formulas in the solver when the base step at depth [i] asks. *)
Definition base_query (i : Z) (e : KInduction) : list Term :=
  unroll (bad_of e) i :: unroll (init (ts_ e)) 0 :: assertions (solver_ e).

(** The engine after the simple-path constraints of depth [i] were added. *)
Definition with_simple_path (i : Z) (e : KInduction) : KInduction :=
  fold_left (fun e' j => add_simple_path_constraint i j e') (upto i) e.

(** The formulas in the solver when the inductive step at depth [i] asks. *)
Definition inductive_query (i : Z) (e : KInduction) : list Term :=
  unroll (bad_of e) (i + 1) :: simple_path_ (with_simple_path i e)
    :: assertions (solver_ e).

(** The transition relation was asserted for every depth already passed. *)
Definition trans_asserted (i : Z) (e : KInduction) : Prop :=
  forall j, 0 <= j -> j < i \/ j <= reached_k_ e ->
    In (unroll (trans (ts_ e)) j) (assertions (solver_ e)).

(** A back-end is sound when every set of formulas it calls satisfiable
    has a model. *)
Definition sound_solver : Prop :=
  forall fs, check_sat_oracle fs = SAT ->
    exists m, forall f, In f fs -> holds theory m f.

(** A counterexample of length [i]: a model of the initial predicate at
    step 0, of the transition relation at the steps before [i] and of the
    negated property at step [i]. *)
Definition counterexample_trace (ts : TransitionSystem) (prop : Term)
  (i : Z) (m : Model) : Prop :=
  holds theory m (unroll (init ts) 0)
  /\ (forall j, 0 <= j < i -> holds theory m (unroll (trans ts) j))
  /\ holds theory m (unroll (make_term Not [prop]) i).

(** The state of the system at a time step under a model. *)
Definition state_at (ts : TransitionSystem) (m : Model) (t : Z) : list Value :=
  map (fun s => eval theory m (unroll s t)) (statevars ts).

(** Some state variable has different values at the two time steps. *)
Definition differ (vars : list Term) (m : Model) (a b : Z) : bool :=
  existsb (fun v => negb (Value_eqb (eval theory m (unroll v a))
                                    (eval theory m (unroll v b)))) vars.

(** The states of all pairs of time steps up to [i] differ. *)
Definition pairwise_differ (ts : TransitionSystem) (m : Model) (i : Z) : Prop :=
  forall j k, 0 <= j < k /\ k <= i ->
    exists s, In s (statevars ts)
      /\ eval theory m (unroll s k) <> eval theory m (unroll s j).

(** The run of a fresh engine up to the inductive step at depth [i]: the
    step has just returned [r] and left the engine [e]. *)
Inductive after_inductive (e0 : KInduction) : Z -> bool -> KInduction -> Prop :=
| after_first e1 r e2 :
    base_step 0 e0 = (true, e1) ->
    inductive_step 0 e1 = (r, e2) ->
    after_inductive e0 0 r e2
| after_next i e e1 r e2 :
    after_inductive e0 i false e ->
    base_step (i + 1) e = (true, e1) ->
    inductive_step (i + 1) e1 = (r, e2) ->
    after_inductive e0 (i + 1) r e2.

End Engine.

(** *** Two small systems and an exhaustive back-end *)

Definition x_var : Term := Sym "x" SBool.

Definition i_var : Term := Sym "i" SBool.

(** The free latch: [x] starts false and takes the value of the input;
    the property is that [x] stays false. *)
Definition latch_ts : TransitionSystem :=
  mkTS false [x_var] [i_var]
       (make_term Equal [x_var; make_value false])
       (make_term Equal [next x_var; i_var]).

Definition latch_prop : Term := make_term Not [x_var].

(** The stuck bit: [x] starts false and never changes; the property is
    that [x] is true, which the initial state violates. *)
Definition stuck_ts : TransitionSystem :=
  mkTS false [x_var] []
       (make_term Equal [x_var; make_value false])
       (make_term Equal [next x_var; x_var]).

Definition stuck_prop : Term := x_var.

Definition no_theory : PrimOp -> list Value -> Value :=
  fun _ _ => VBool false.

Fixpoint bool_models (names : list string) : list (list (string * bool)) :=
  match names with
  | [] => [[]]
  | x :: ns =>
      flat_map (fun a => [(x, true) :: a; (x, false) :: a]) (bool_models ns)
  end.

Definition model_of (a : list (string * bool)) : Model :=
  fun x _ =>
    match find (fun p => String.eqb (fst p) x) a with
    | Some p => VBool (snd p)
    | None => VBool false
    end.

Definition satisfies (m : Model) (fs : list Term) : bool :=
  forallb (fun f => Value_eqb (eval no_theory m f) (VBool true)) fs.

(** A back-end that tries every assignment of the named boolean symbols. *)
Definition brute_solver (names : list string) (fs : list Term) : Result :=
  if existsb (fun a => satisfies (model_of a) fs) (bool_models names)
  then SAT else UNSAT.

(** A back-end that gives up on every query that mentions the formula
    [hard] and is exhaustive on the others. *)
Definition timid_solver (hard : Term) (names : list string) (fs : list Term)
  : Result :=
  if existsb (Term_eqb hard) fs then Smt.UNKNOWN else brute_solver names fs.

Definition latch_names : list string := ["x@0"; "x@1"; "x@2"; "i@0"; "i@1"].

(** *** The run of a fresh engine in closed form *)

Section ClosedForm.

Variable check_sat_oracle : list Term -> Result.
Variable unroll : Term -> Z -> Term.
Variable ts : TransitionSystem.
Variable prop : Term.

(** The formulas asserted for good once the depths below [i] are passed,
    newest first: the property and the relation of each depth. *)
Definition asserted (i : Z) : list Term :=
  flat_map (fun j => [unroll prop j; unroll (trans ts) j]) (rev (upto i)).

(** The simple-path constraint once the inductive steps up to depth [i]
    have run: for each depth [m] the pairs [(m, j)] with [j < m], in the
    order of the two loops. *)
Definition simple_path_upto (i : Z) : Term :=
  fold_left
    (fun sp m =>
       fold_left
         (fun sp' j =>
            make_term And [sp'; simple_path_disj unroll m j (statevars ts)])
         (upto m) sp)
    (upto (i + 1)) (make_value true).

(** The engine when the loop of [check_until] reaches depth [i] without a
    verdict. *)
Definition engine_at_depth (i : Z) : KInduction :=
  mkKInduction ts prop (mkSolver (asserted i) []) (i - 1)
               (simple_path_upto (i - 1)).

(** The answers to the two queries of depth [i]. *)
Definition base_answer (i : Z) : Result :=
  check_sat_oracle
    (unroll (make_term Not [prop]) i :: unroll (init ts) 0 :: asserted i).

Definition inductive_answer (i : Z) : Result :=
  check_sat_oracle
    (unroll (make_term Not [prop]) (i + 1) :: simple_path_upto i
       :: asserted (i + 1)).

(** The verdict as a function of the answers alone. *)
Fixpoint verdict_from (n : nat) (i : Z) : ProverResult :=
  match n with
  | O => Core.UNKNOWN
  | S n' =>
      if is_sat (base_answer i) then FALSE
      else if is_unsat (inductive_answer i) then TRUE
      else verdict_from n' (i + 1)
  end.

Definition verdict (k : Z) : ProverResult :=
  verdict_from (Z.to_nat (k + 1)) 0.

End ClosedForm.

(** *** The induction step, semantically *)

Section Induction.

Variable check_sat_oracle : list Term -> Result.

Variable unroll : Term -> Z -> Term.

Variable theory : PrimOp -> list Value -> Value.

(** A back-end whose answer UNSAT is right: the formulas have no model. *)
Definition unsat_sound : Prop :=
  forall fs, check_sat_oracle fs = UNSAT ->
    forall m, ~ (forall f, In f fs -> holds theory m f).

(** A counterexample to the induction step at depth [i]: the property and
    the transition relation hold at the steps 0 to [i], the states of
    these steps differ pairwise, and the property fails at step [i + 1]. *)
Definition induction_counterexample (ts : TransitionSystem) (prop : Term)
  (i : Z) (m : Model) : Prop :=
  (forall j, 0 <= j <= i ->
     holds theory m (unroll prop j) /\ holds theory m (unroll (trans ts) j))
  /\ pairwise_differ unroll theory ts m i
  /\ holds theory m (unroll (make_term Not [prop]) (i + 1)).

End Induction.

(** A bit that keeps its value, with the property that it is set. *)
Definition hold_ts : TransitionSystem :=
  mkTS false [x_var] [] x_var (make_term Equal [next x_var; x_var]).

Definition hold_prop : Term := x_var.

(** A back-end that answers UNSAT when it is asked about [a = b], [b] and
    [not a] together, and gives up otherwise. *)
Definition clash (fs : list Term) (f : Term) : bool :=
  match f with
  | App Equal [a; b] =>
      existsb (Term_eqb b) fs && existsb (Term_eqb (make_term Not [a])) fs
  | _ => false
  end.

Definition clash_solver (fs : list Term) : Result :=
  if existsb (clash fs) fs then UNSAT else Smt.UNKNOWN.

End KInd.

(** ** The value-abstraction CEGAR driver ([cegar_values.cpp]) *)

Module CegarVal.

Import Smt Core.

(** What leaves a function other than a return value. *)
Inductive Exn : Type :=
| PonoException (msg : string)
| AssertionFailure (what : string)
| OutOfRange.

Inductive Res (A : Type) : Type :=
| Ok (a : A)
| Raise (e : Exn).

Arguments Ok {A} a.

Arguments Raise {A} e.

(** An [UnorderedTermMap]: at most one entry per key; the order of the
    entries stands for the iteration order of the hash table. *)
Definition TermMap := list (Term * Term).

Fixpoint map_get (k : Term) (m : TermMap) : option Term :=
  match m with
  | [] => None
  | (k', v) :: m' => if Term_eq_dec k k' then Some v else map_get k m'
  end.

(** [m[k] = v] *)
Fixpoint map_set (k v : Term) (m : TermMap) : TermMap :=
  match m with
  | [] => [(k, v)]
  | (k', v') :: m' =>
      if Term_eq_dec k k' then (k, v) :: m' else (k', v') :: map_set k v m'
  end.

(** The operators whose application may turn non-linear when a constant
    below them becomes a variable. *)
Definition nl_ops : list PrimOp :=
  [Mult; Div; Mod; Abs; Pow; IntDiv; BVMul; BVUdiv; BVSdiv; BVUrem; BVSrem; BVSmod].

Definition is_nl_op (op : PrimOp) : bool :=
  existsb (fun o => if PrimOp_eq_dec op o then true else false) nl_ops.

Definition is_array_sort (s : Sort) : bool :=
  match get_sort_kind s with ARRAY => true | _ => false end.

Record ValueAbstractor : Type := mkVA {
  va_ts_ : TransitionSystem;
  va_cache_ : TermMap;
  abstracted_values_ : TermMap
}.

Definition save_in_cache (key val : Term) (w : ValueAbstractor) : ValueAbstractor :=
  mkVA (va_ts_ w) (map_set key val (va_cache_ w)) (abstracted_values_ w).

(** [query_cache(t, c)]: the cached term of [t], or [c] as it was. *)
Definition query_cache (t c : Term) (w : ValueAbstractor) : Term :=
  match map_get t (va_cache_ w) with
  | Some u => u
  | None => c
  end.

Definition in_cache (t : Term) (w : ValueAbstractor) : bool :=
  match map_get t (va_cache_ w) with
  | Some _ => true
  | None => false
  end.

(** The name of the frozen variable made for a value. *)
Definition abs_name (term : Term) : string :=
  ("__abs_" ++ to_string term)%string.

(** [ValueAbstractor::visit_term] on the way up (when [preorder_] is
    false); on the way down the function does nothing. *)
Definition visit_term (term : Term) (w : ValueAbstractor) : ValueAbstractor :=
  if is_value term && negb (is_array_sort (get_sort term)) then
    let (frozen_var, ts') :=
      make_statevar (abs_name term) (get_sort term) (va_ts_ w) in
    mkVA ts' (map_set term frozen_var (va_cache_ w))
         (map_set frozen_var term (abstracted_values_ w))
  else
    match get_op term with
    | Some op =>
        if negb (is_nl_op op) then
          let cached_children :=
            map (fun t => query_cache t t w) (children term) in
          save_in_cache term (make_term op cached_children) w
        else save_in_cache term term w
    | None => save_in_cache term term w
    end.

(** Modelled from the spec: the traversal of the walker the abstractor
    derives from, which is not part of the verified files.  A term is
    traversed in post-order, children before parent; a term already in the
    cache is skipped.  The children are taken from a stack, last child
    first. *)
Fixpoint walk (t : Term) (w : ValueAbstractor) : ValueAbstractor :=
  if in_cache t w then w
  else
    match t with
    | App _ cs => visit_term t (fold_right walk w cs)
    | _ => visit_term t w
    end.

(** [va.visit(t)]: traverse, then return the cached term. *)
Definition visit (t : Term) (w : ValueAbstractor) : Term * ValueAbstractor :=
  let w' := walk t w in (query_cache t t w', w').

Record CegarValues : Type := mkCegarValues {
  initialized_ : bool;
  orig_property_ : Term;
  conc_ts_ : TransitionSystem;
  prover_ts_ : TransitionSystem;
  bad_ : Term;
  cegval_solver_ : SmtSolver;
  cegval_ts_ : TransitionSystem;
  cegval_bad_ : Term;
  to_vals_ : TermMap;
  cegval_labels_ : TermMap;
  from_cegval_cache_ : TermMap
}.

(** Modelled from the spec: the translator between the two solvers keeps
    sort and structure, so a transferred term is the same term. *)
Definition transfer_term (t : Term) : Term := t.

Definition empty_ts (functional : bool) : TransitionSystem :=
  mkTS functional [] [] (make_value true) (make_value true).

(** The constructor: the prover starts on a fresh system of the kind of
    the concrete one. *)
Definition new (prop : Term) (ts : TransitionSystem) : CegarValues :=
  mkCegarValues false prop ts (empty_ts (is_functional ts)) (make_value false)
                fresh_solver (empty_ts false) (make_value false) [] [] [].

Definition assert_msg_values : string := "prover_to_vals.size()".

(** The loop that freezes the abstract variables and copies the map. *)
Definition freeze_all (elems : TermMap) (ts : TransitionSystem) (vals : TermMap)
  : TransitionSystem * TermMap :=
  fold_left
    (fun acc elem =>
       (assign_next (fst elem) (fst elem) (fst acc),
        map_set (transfer_term (fst elem)) (transfer_term (snd elem)) (snd acc)))
    elems (ts, vals).

(** [CegarValues::cegar_abstract].  The two arguments of [set_behavior] are
    evaluated left to right. *)
Definition cegar_abstract (st : CegarValues) : Res unit * CegarValues :=
  let prover_ts := conc_ts_ st in
  let va := mkVA prover_ts [] [] in
  if is_functional prover_ts then
    (Raise (PonoException "Functional TS NYI in cegar_values"),
     mkCegarValues (initialized_ st) (orig_property_ st) (conc_ts_ st)
       prover_ts (bad_ st) (cegval_solver_ st) (cegval_ts_ st)
       (cegval_bad_ st) (to_vals_ st) (cegval_labels_ st)
       (from_cegval_cache_ st))
  else
    let (init', va1) := visit (init prover_ts) va in
    let (trans', va2) := visit (trans prover_ts) va1 in
    let va3 := mkVA (set_behavior init' trans' (va_ts_ va2))
                    (va_cache_ va2) (abstracted_values_ va2) in
    let prop_term := transfer_term (orig_property_ st) in
    let (prop', va4) := visit prop_term va3 in
    let bad := make_term Not [prop'] in
    let cegval_bad := transfer_term bad in
    let prover_to_vals := abstracted_values_ va4 in
    if (List.length prover_to_vals =? 0)%nat then
      (Raise (AssertionFailure assert_msg_values),
       mkCegarValues (initialized_ st) (orig_property_ st) (conc_ts_ st)
         (va_ts_ va4) bad (cegval_solver_ st) (cegval_ts_ st)
         cegval_bad (to_vals_ st) (cegval_labels_ st)
         (from_cegval_cache_ st))
    else
      let (ts', vals') := freeze_all prover_to_vals (va_ts_ va4) (to_vals_ st) in
      (Ok tt,
       mkCegarValues (initialized_ st) (orig_property_ st) (conc_ts_ st)
         ts' bad (cegval_solver_ st) (cegval_ts_ st)
         cegval_bad vals' (cegval_labels_ st) (from_cegval_cache_ st)).

Definition set_cegval_solver (s : SmtSolver) (st : CegarValues) : CegarValues :=
  mkCegarValues (initialized_ st) (orig_property_ st) (conc_ts_ st)
    (prover_ts_ st) (bad_ st) s (cegval_ts_ st) (cegval_bad_ st)
    (to_vals_ st) (cegval_labels_ st) (from_cegval_cache_ st).

(** The translator cache after the variables of the prover's system were
    entered. *)
Definition update_cache (ts : TransitionSystem) (cache : TermMap) : TermMap :=
  let c1 :=
    fold_left
      (fun c sv =>
         let nv := next sv in
         map_set (transfer_term nv) nv (map_set (transfer_term sv) sv c))
      (statevars ts) cache in
  fold_left (fun c iv => map_set (transfer_term iv) iv c) (inputvars ts) c1.

Definition label_name (val : Term) : string :=
  ("__assump_" ++ to_string val)%string.

(** One boolean label per abstracted value. *)
Definition make_labels (vals labels : TermMap) : TermMap :=
  fold_left
    (fun ls elem => map_set (fst elem) (Sym (label_name (snd elem)) SBool) ls)
    vals labels.

(** [CegarValues::initialize].  The initialization of the wrapped prover
    sets the flag and, as the source notes, sets [bad_] to the negation of
    the original property. *)
Definition initialize (st : CegarValues) : Res unit * CegarValues :=
  if initialized_ st then (Ok tt, st)
  else
    match cegar_abstract st with
    | (Raise e, st1) => (Raise e, st1)
    | (Ok _, st1) =>
        let super_bad := make_term Not [orig_property_ st1] in
        let cegval_ts := prover_ts_ st1 in
        let cache := update_cache (prover_ts_ st1) (from_cegval_cache_ st1) in
        let labels := make_labels (to_vals_ st1) (cegval_labels_ st1) in
        let bad := transfer_term (cegval_bad_ st1) in
        (Ok tt,
         mkCegarValues true (orig_property_ st1) (conc_ts_ st1)
           (prover_ts_ st1) bad (cegval_solver_ st1) cegval_ts
           (cegval_bad_ st1) (to_vals_ st1) labels cache)
    end.

(** The BMC formula of the abstract system for a trace of the given length. *)
Definition bmc_formula (ts : TransitionSystem) (bad : Term) (cex_length : Z) : Term :=
  let f0 := at_time ts (init ts) 0 in
  let f1 :=
    fold_left (fun f i => make_term And [f; at_time ts (trans ts) i])
              (upto cex_length) f0 in
  make_term And [f1; at_time ts bad cex_length].

(** The loop over the abstracted values in [cegar_refine]: the solver, the
    assumptions and the equalities so far are carried along. *)
Fixpoint label_loop (ts : TransitionSystem) (labels : TermMap) (elems : TermMap)
  (acc : SmtSolver * TermVec * TermVec)
  : Res unit * (SmtSolver * TermVec * TermVec) :=
  match elems with
  | [] => (Ok tt, acc)
  | (k, v) :: rest =>
      if negb (is_curr_var ts k) then
        (Raise (AssertionFailure "cegval_ts_.is_curr_var(elem.first)"), acc)
      else if negb (is_value v) then
        (Raise (AssertionFailure "elem.second->is_value()"), acc)
      else
        match map_get k labels with
        | None => (Raise OutOfRange, acc)
        | Some lbl =>
            let '(s, assumps, equalities) := acc in
            let eqval := make_term Equal [k; v] in
            let eqval0 := at_time ts eqval 0 in
            let imp := make_term Implies [lbl; eqval0] in
            label_loop ts labels rest
              (assert_formula imp s, assumps ++ [lbl], equalities ++ [eqval])
        end
  end.

Definition refine_nyi : Exn := PonoException "CegarValues::cegar_refine NYI".

(** A call of [check_sat_assuming] on a solver: the formulas the solver
    holds at the call, the number of contexts pushed, the assumptions
    passed and the answer. *)
Record SolverQuery : Type := mkQuery {
  query_assertions : list Term;
  query_level : nat;
  query_assumptions : list Term;
  query_answer : Result
}.

Section Driver.

(** The wrapped prover: its verdict on the abstract system and the length
    of its witness. *)
Variable inner_check_until : Z -> TransitionSystem -> Term -> ProverResult.

Variable inner_witness_length : Z -> TransitionSystem -> Term -> nat.

(** The answer of the second solver to a query under assumptions. *)
Variable check_sat_assuming_oracle : list Term -> list Term -> Result.

(** [CegarValues::cegar_refine], given the length of the witness.  The
    call of [check_sat_assuming] is an effect on the second solver: the
    third component lists the calls made. *)
Definition cegar_refine (cex_length : Z) (st : CegarValues)
  : Res bool * CegarValues * list SolverQuery :=
  let bmcform := bmc_formula (cegval_ts_ st) (cegval_bad_ st) cex_length in
  let s1 := assert_formula bmcform (push (cegval_solver_ st)) in
  match label_loop (cegval_ts_ st) (cegval_labels_ st) (to_vals_ st) (s1, [], []) with
  | (Raise e, (s, _, _)) => (Raise e, set_cegval_solver s st, [])
  | (Ok _, (s, assumps, equalities)) =>
      if negb (List.length assumps =? List.length equalities)%nat then
        (Raise (AssertionFailure "assumps.size() == equalities.size()"),
         set_cegval_solver s st, [])
      else
        let r := check_sat_assuming_oracle (assertions s) assumps in
        let s' := pop s in
        let unreachable_return := is_unsat r in
        (Raise refine_nyi, set_cegval_solver s' st,
         [mkQuery (assertions s) (context_level s) assumps r])
  end.

(** The loop of [CegarValues::check_until]; [None] when the iterations
    allowed do not suffice. *)
Fixpoint check_until_loop (fuel : nat) (k : Z) (st : CegarValues)
  : option (Res ProverResult * CegarValues) :=
  match fuel with
  | O => None
  | S fuel' =>
      match inner_check_until k (prover_ts_ st) (bad_ st) with
      | FALSE =>
          let len := Z.of_nat (inner_witness_length k (prover_ts_ st) (bad_ st)) in
          match cegar_refine len st with
          | (Raise e, st', _) => Some (Raise e, st')
          | (Ok true, st', _) => check_until_loop fuel' k st'
          | (Ok false, st', _) => Some (Ok FALSE, st')
          end
      | res => Some (Ok res, st)
      end
  end.

(** [CegarValues::check_until] *)
Definition check_until (fuel : nat) (k : Z) (st : CegarValues)
  : option (Res ProverResult * CegarValues) :=
  match initialize st with
  | (Raise e, st') => Some (Raise e, st')
  | (Ok _, st') => check_until_loop fuel k st'
  end.

End Driver.

(** *** What the abstraction is meant to compute *)

(** The abstraction in the words of the specification: a value literal of
    a sort other than an array becomes its frozen variable, an application
    of a non-linear operator is kept as it is, every other application is
    rebuilt over its abstracted children. *)
Fixpoint abstract_spec (t : Term) : Term :=
  match t with
  | Sym _ _ => t
  | Val _ s => if is_array_sort s then t else Sym (abs_name t) s
  | App op cs => if is_nl_op op then t else App op (map abstract_spec cs)
  end.

Definition frozen_var (v : Term) : Term := Sym (abs_name v) (get_sort v).

(** The value literals the abstractor makes a variable for. *)
Definition abstractable (t : Term) : bool :=
  is_value t && negb (is_array_sort (get_sort t)).

Fixpoint subterms (t : Term) : list Term :=
  t :: match t with
       | App _ cs => flat_map subterms cs
       | _ => []
       end.

(** The relation with the frozen variables appended. *)
Definition freeze_conj (vars : list Term) (t : Term) : Term :=
  fold_left (fun f v => make_term And [f; make_term Equal [next v; v]]) vars t.

Definition Z_of_string (s : string) : option Z :=
  option_map Z.of_int (NilZero.int_of_string s).

(** *** The state of a traversal *)

Definition cached (w : ValueAbstractor) (t : Term) : Prop :=
  map_get t (va_cache_ w) = Some (abstract_spec t).

(** The state of an abstractor during a traversal: every cached term maps
    to its abstraction, the abstractable values below a cached term are
    recorded under their frozen variable, and every recorded variable is a
    state variable of the system. *)
Record walker_ok (w : ValueAbstractor) : Prop := mk_walker_ok {
  ok_cache : forall t u, map_get t (va_cache_ w) = Some u -> u = abstract_spec t;
  ok_values : forall t u, map_get t (va_cache_ w) = Some u ->
    forall v, In v (subterms t) -> abstractable v = true ->
      map_get (frozen_var v) (abstracted_values_ w) = Some v;
  ok_entries : forall k v, In (k, v) (abstracted_values_ w) ->
    k = frozen_var v /\ abstractable v = true /\ In k (statevars (va_ts_ w))
}.

Definition is_frozen_var (x : Term) : Prop :=
  exists v, abstractable v = true /\ x = frozen_var v.

(** From one state of a traversal to a later one: the cache keeps what it
    has and the system only gains frozen variables. *)
Definition extends (w w' : ValueAbstractor) : Prop :=
  (forall t, cached w t -> cached w' t)
  /\ is_functional (va_ts_ w') = is_functional (va_ts_ w)
  /\ inputvars (va_ts_ w') = inputvars (va_ts_ w)
  /\ init (va_ts_ w') = init (va_ts_ w)
  /\ trans (va_ts_ w') = trans (va_ts_ w)
  /\ exists vars, statevars (va_ts_ w') = statevars (va_ts_ w) ++ vars
                  /\ Forall is_frozen_var vars.

Definition copy_vals (elems vals : TermMap) : TermMap :=
  fold_left (fun m e => map_set (fst e) (snd e) m) elems vals.

(** *** The abstraction step as a whole *)

(** The terms the abstraction traverses, with all their subterms. *)
Definition roots (st : CegarValues) : list Term :=
  subterms (init (conc_ts_ st)) ++ subterms (trans (conc_ts_ st))
    ++ subterms (orig_property_ st).

Definition has_values (st : CegarValues) : bool :=
  existsb abstractable (roots st).

(** The state in which [cegar_abstract] leaves a relational system: [ts4]
    and [vals4] are the system and the recorded values after the three
    traversals. *)
Definition abstracted_state (st : CegarValues) (ts4 : TransitionSystem)
  (vals4 : TermMap) : Res unit * CegarValues :=
  let bad := make_term Not [abstract_spec (orig_property_ st)] in
  if (List.length vals4 =? 0)%nat then
    (Raise (AssertionFailure assert_msg_values),
     mkCegarValues (initialized_ st) (orig_property_ st) (conc_ts_ st)
       ts4 bad (cegval_solver_ st) (cegval_ts_ st) bad (to_vals_ st)
       (cegval_labels_ st) (from_cegval_cache_ st))
  else
    (Ok tt,
     mkCegarValues (initialized_ st) (orig_property_ st) (conc_ts_ st)
       (mkTS false (statevars ts4) (inputvars ts4) (init ts4)
             (freeze_conj (map fst vals4) (trans ts4)))
       bad (cegval_solver_ st) (cegval_ts_ st) bad
       (copy_vals vals4 (to_vals_ st))
       (cegval_labels_ st) (from_cegval_cache_ st)).

(** *** Three systems to abstract *)

Definition int_var (x : string) : Term := Sym x SInt.

Definition int_val (z : Z) : Term := Val (LNum z) SInt.

(** A counter [x] and an accumulator [y]: [x' = x + 1], [y' = y + x * 2],
    with the property [y < 7]. *)
Definition counter_ts : TransitionSystem :=
  mkTS false [int_var "x"; int_var "y"] []
    (make_term And [make_term Equal [int_var "x"; int_val 0];
                    make_term Equal [int_var "y"; int_val 0]])
    (make_term And
       [make_term Equal [next (int_var "x");
                         make_term Plus [int_var "x"; int_val 1]];
        make_term Equal [next (int_var "y");
                         make_term Plus [int_var "y";
                                         make_term Mult [int_var "x"; int_val 2]]]]).

Definition counter_prop : Term := make_term Lt [int_var "y"; int_val 7].

(** A bit that flips, with no value literal anywhere. *)
Definition flip_ts (functional : bool) : TransitionSystem :=
  mkTS functional [Sym "b" SBool] []
    (Sym "b" SBool)
    (make_term Equal [next (Sym "b" SBool); make_term Not [Sym "b" SBool]]).

Definition flip_prop : Term :=
  make_term Or [Sym "b" SBool; make_term Not [Sym "b" SBool]].

(** The counter declared functional. *)
Definition functional_counter_ts : TransitionSystem :=
  mkTS true (statevars counter_ts) (inputvars counter_ts)
       (init counter_ts) (trans counter_ts).

(** A system that has a state variable of the name the abstraction gives
    to the value 0. *)
Definition clash_ts : TransitionSystem :=
  mkTS false [int_var "x"; int_var "__abs_0"] []
    (make_term Equal [int_var "x"; int_val 0])
    (make_term Equal [next (int_var "x"); int_var "__abs_0"]).

Definition clash_prop : Term := make_term Le [int_var "x"; int_var "__abs_0"].

(** No state variable and no input of the system has a name of the form
    the abstraction gives to its variables. *)
Definition no_abs_names (ts : TransitionSystem) : bool :=
  forallb (fun s => negb (String.prefix "__abs_" (to_string s)))
          (statevars ts ++ inputvars ts).

(** *** Notions for the refinement step *)

(** A state in which the loop of [cegar_refine] meets no failed assertion
    and no missing label: every abstracted variable is a current variable
    of the second system and has a label, and is mapped to a value. *)
Definition refine_ready (st : CegarValues) : bool :=
  forallb
    (fun elem =>
       is_curr_var (cegval_ts_ st) (fst elem) && is_value (snd elem)
       && match map_get (fst elem) (cegval_labels_ st) with
          | Some _ => true
          | None => false
          end)
    (to_vals_ st).

(** The label of an abstracted variable and the implication asserted for
    it: the label implies that the variable, at step 0, is its value. *)
Definition label_of (labels : TermMap) (elem : Term * Term) : Term :=
  match map_get (fst elem) labels with
  | Some lbl => lbl
  | None => fst elem
  end.

Definition labelled_equality (ts : TransitionSystem) (labels : TermMap)
  (elem : Term * Term) : Term :=
  make_term Implies
    [label_of labels elem;
     at_time ts (make_term Equal [fst elem; snd elem]) 0].

(** The label that [initialize] makes for an abstracted value, and the
    implication that [cegar_refine] asserts for it. *)
Definition value_label (elem : Term * Term) : Term :=
  Sym (label_name (snd elem)) SBool.

Definition labelled_value (ts : TransitionSystem) (elem : Term * Term) : Term :=
  make_term Implies
    [value_label elem; at_time ts (make_term Equal [fst elem; snd elem]) 0].

(** The query of the refinement for a witness of length [len]: in a
    context pushed for it, the solver holds the BMC formula of that length
    and, for every abstracted variable, its labelled equality; all the
    labels are assumed. *)
Definition labelled_query (oracle : list Term -> list Term -> Result) (len : Z)
  (st : CegarValues) : SolverQuery :=
  let fs :=
    rev (map (labelled_value (cegval_ts_ st)) (to_vals_ st))
      ++ bmc_formula (cegval_ts_ st) (cegval_bad_ st) len
      :: assertions (cegval_solver_ st) in
  let labels := map value_label (to_vals_ st) in
  mkQuery fs (S (context_level (cegval_solver_ st))) labels (oracle fs labels).

Definition always_unsafe : Z -> TransitionSystem -> Term -> ProverResult :=
  fun _ _ _ => FALSE.

Definition witness_of_length (n : nat) : Z -> TransitionSystem -> Term -> nat :=
  fun _ _ _ => n.

(** *** The values behind the frozen variables *)

(** A model reads the frozen variables as their values when every recorded
    variable evaluates to the value recorded for it. *)
Definition reads_values (theory : PrimOp -> list Value -> Value) (m : Model)
  (vals : TermMap) : bool :=
  forallb (fun e => Value_eqb (eval theory m (fst e)) (eval theory m (snd e)))
          vals.

(** The model that reads a symbol named [__abs_<n>] as the number [n]. *)
Definition abs_model : Model :=
  fun x _ =>
    if String.prefix "__abs_" x
    then match Z_of_string (String.substring 6 (String.length x - 6)%nat x) with
         | Some z => VNum z
         | None => VNum 0
         end
    else VNum 0.

Definition uninterpreted : PrimOp -> list Value -> Value :=
  fun _ _ => VBool false.

(** A traversal that started on a system with the state variables [base]
    and nothing recorded: every recorded value is in the cache, and the
    state variables added are the recorded variables, each made once. *)
Definition tidy (base : list Term) (w : ValueAbstractor) : Prop :=
  walker_ok w
  /\ (forall k v, In (k, v) (abstracted_values_ w) -> in_cache v w = true)
  /\ statevars (va_ts_ w) = base ++ map fst (abstracted_values_ w)
  /\ NoDup (map fst (abstracted_values_ w)).

End CegarVal.

(** ** The syntax-guided IC3 engine ([ic3sa.cpp]) *)

Module IC3SA.

Import Smt Core.

(** How a call ends: a return, a thrown [PonoException], a failed
    assertion, or the dereference of an iterator at a position that holds
    no element. *)
Inductive Outcome (A : Type) : Type :=
| Returns (a : A)
| Throws (msg : string)
| AssertFails (what : string)
| InvalidDeref (pos : nat).

Arguments Returns {A} a.

Arguments Throws {A} msg.

Arguments AssertFails {A} what.

Arguments InvalidDeref {A} pos.

Definition returns {A : Type} (o : Outcome A) : bool :=
  match o with Returns _ => true | _ => false end.

(** The members of the engine that the verified functions read. *)
Record Engine : Type := mkEngine {
  ts_ : TransitionSystem;
  predset_ : list Term;
  term_abstraction_ : list (Sort * list Term)
}.

Definition unsupported_msg : string := "IC3SA currently only supports bit-vectors".

(** One of the two loops of [check_ts]. *)
Fixpoint check_vars (vars : list Term) : Outcome unit :=
  match vars with
  | [] => Returns tt
  | v :: vars' =>
      let sk := get_sort_kind (get_sort v) in
      if negb (if SortKind_eq_dec sk BOOL then true else false)
         && negb (if SortKind_eq_dec sk BV then true else false)
      then Throws unsupported_msg
      else check_vars vars'
  end.

(** [IC3SA::check_ts], a [const] member: the engine is handed back as it
    came. *)
Definition check_ts (e : Engine) : Outcome unit * Engine :=
  (match check_vars (statevars (ts_ e)) with
   | Returns _ => check_vars (inputvars (ts_ e))
   | o => o
   end, e).

(** The classes of terms with equal value in the model, by sort and by
    value.  The order of a list stands for the iteration order of the
    hash table it models. *)
Definition EquivalenceClasses := list (Sort * list (Term * list Term)).

(** The choice of the representative of a class, as far as made. *)
Record ReprState : Type := mkRepr {
  repr : Term;
  found_repr : bool;
  repr_val : bool
}.

Definition update_repr (term : Term) (r : ReprState) : ReprState :=
  if negb (found_repr r) then
    if is_symbolic_const term then mkRepr term true false
    else if negb (is_value term) && repr_val r then mkRepr term (found_repr r) false
    else r
  else r.

(** The [while] loop over one class.  The iterator [it] is the list of the
    elements from its position [pos] on; it is [end] when the list is
    empty.  Each round increments the iterator first and dereferences it
    then. *)
Fixpoint class_loop (it : list Term) (pos : nat) (last : Term)
  (out_cube : TermVec) (r : ReprState) : Outcome (TermVec * ReprState) :=
  match it with
  | [] => Returns (out_cube, r)
  | _ :: it' =>
      match it' with
      | [] => InvalidDeref (S pos)
      | term :: _ =>
          if Sort_eq_dec (get_sort last) (get_sort term) then
            class_loop it' (S pos) term
              (out_cube ++ [make_term Equal [last; term]])
              (update_repr term r)
          else AssertFails "last->get_sort() == term->get_sort()"
      end
  end.

(** The body of the loop over the classes of a sort. *)
Definition class_body (elem : Term * list Term) (out_cube : TermVec)
  : Outcome (TermVec * ReprState) :=
  let (val, terms) := elem in
  if negb (is_value val) then AssertFails "val->is_value()"
  else
    match terms with
    | [] => InvalidDeref 0
    | last :: _ => class_loop terms 0 last out_cube (mkRepr val false true)
    end.

(** The loop over the classes of a sort.  The representative chosen for a
    class is dropped at the end of the body: the vector [representatives]
    is never written. *)
Fixpoint classes_loop (classes : list (Term * list Term)) (out_cube : TermVec)
  (representatives : TermVec) : Outcome (TermVec * TermVec) :=
  match classes with
  | [] => Returns (out_cube, representatives)
  | elem :: classes' =>
      match class_body elem out_cube with
      | Returns (out_cube', _) => classes_loop classes' out_cube' representatives
      | Throws m => Throws m
      | AssertFails w => AssertFails w
      | InvalidDeref p => InvalidDeref p
      end
  end.

(** The inner loop of the disequalities: [ti] against the later ones. *)
Fixpoint diseq_with (ti : Term) (later : TermVec) (out_cube : TermVec)
  : Outcome TermVec :=
  match later with
  | [] => Returns out_cube
  | tj :: later' =>
      if Term_eq_dec ti tj then AssertFails "ti != tj"
      else diseq_with ti later' (out_cube ++ [make_term Distinct [ti; tj]])
  end.

(** The loops over the pairs of representatives. *)
Fixpoint diseq_loop (representatives : TermVec) (out_cube : TermVec)
  : Outcome TermVec :=
  match representatives with
  | [] => Returns out_cube
  | ti :: later =>
      match diseq_with ti later out_cube with
      | Returns out_cube' => diseq_loop later out_cube'
      | o => o
      end
  end.

(** [IC3SA::construct_partition] *)
Fixpoint construct_partition (ec : EquivalenceClasses) (out_cube : TermVec)
  : Outcome TermVec :=
  match ec with
  | [] => Returns out_cube
  | (sort, classes) :: ec' =>
      match classes_loop classes out_cube [] with
      | Returns (out_cube1, representatives) =>
          match diseq_loop representatives out_cube1 with
          | Returns out_cube2 => construct_partition ec' out_cube2
          | o => o
          end
      | Throws m => Throws m
      | AssertFails w => AssertFails w
      | InvalidDeref p => InvalidDeref p
      end
  end.

(** *** Example classes *)

Definition bv2 : Sort := SBV 2.

Definition bv_var (x : string) : Term := Sym x bv2.

Definition bv_val (z : Z) : Term := Val (LNum z) bv2.

(** Two classes of one sort: [x] has the value 1, [y] the value 2. *)
Definition two_singletons : EquivalenceClasses :=
  [(bv2, [(bv_val 1, [bv_var "x"]); (bv_val 2, [bv_var "y"])])].

(** One class holding a variable and a sum. *)
Definition one_pair : EquivalenceClasses :=
  [(bv2, [(bv_val 1, [bv_var "x"; make_term BVAdd [bv_var "y"; bv_val 1]])])].

(** A sort without any class. *)
Definition no_class : EquivalenceClasses := [(bv2, [])].

(** *** Cubes and their validity *)

(** The [IC3Unit] of [ic3base.h], which the engine calls [IC3Formula]. *)
Record IC3Formula : Type := mkIC3Formula {
  term : Term;
  children : TermVec;
  negated : bool
}.

(** The last test of [is_eq_lit]; the operator may be null. *)
Definition is_eq_op (op : option PrimOp) : bool :=
  match op with
  | Some Equal | Some Distinct | Some BVComp => true
  | _ => false
  end.

(** [is_eq_lit].  Under a [Not] the operator of the first child is looked
    at; [begin()] of a term without children holds no element. *)
Definition is_eq_lit (t : Term) (boolsort : Sort) : Outcome bool :=
  if Sort_eq_dec (get_sort t) boolsort then
    if is_symbolic_const t then Returns true
    else
      match get_op t with
      | None => AssertFails "!op.is_null()"
      | Some op =>
          if PrimOp_eq_dec op Not then
            match Smt.children t with
            | c :: _ => Returns (is_eq_op (get_op c))
            | [] => InvalidDeref 0
            end
          else Returns (is_eq_op (Some op))
      end
  else Returns false.

(** The loop of [ic3formula_check_valid] over the children. *)
Fixpoint check_children (cs : TermVec) : Outcome bool :=
  match cs with
  | [] => Returns true
  | c :: cs' =>
      match is_eq_lit c SBool with
      | Returns true => check_children cs'
      | o => o
      end
  end.

(** [IC3SA::ic3formula_check_valid] *)
Definition ic3formula_check_valid (u : IC3Formula) : Outcome bool :=
  check_children (children u).

(** *** The refinement *)

(** The [IC3Goal] of [ic3base.h]: a target, a frame index and the goal it
    leads to. *)
Inductive ProofGoal : Type :=
| mkProofGoal (target : IC3Formula) (idx : nat) (next : option ProofGoal).

Definition target (pg : ProofGoal) : IC3Formula :=
  match pg with mkProofGoal t _ _ => t end.

Definition next_goal (pg : ProofGoal) : option ProofGoal :=
  match pg with mkProofGoal _ _ n => n end.

Definition refine_nyi : string := "IC3SA::refine NYI".

Section Refine.

(** The two tests of the base classes that [refine] asserts. *)
Variable check_intersects_initial : Term -> bool.

Variable only_curr : Term -> bool.

(** The [while] loop of [refine] from the goal [tmp] on, collecting the
    counterexample. *)
Fixpoint refine_loop (tmp : ProofGoal) (cex : TermVec) : Outcome TermVec :=
  match tmp with
  | mkProofGoal _ _ None => Returns cex
  | mkProofGoal _ _ (Some nxt) =>
      if only_curr (term (target nxt))
      then refine_loop nxt (cex ++ [term (target nxt)])
      else AssertFails "ts_->only_curr(tmp->target.term)"
  end.

(** [IC3SA::refine], given the goal [cex_pg_].  The result type of the
    source has no value here: no path reaches a [return]. *)
Definition refine (cex_pg : ProofGoal) : Outcome unit :=
  if check_intersects_initial (term (target cex_pg)) then
    match refine_loop cex_pg [term (target cex_pg)] with
    | Returns cex => Throws refine_nyi
    | Throws m => Throws m
    | AssertFails w => AssertFails w
    | InvalidDeref p => InvalidDeref p
    end
  else AssertFails "check_intersects_initial(cex_pg_->target.term)".

(** The targets of a chain of goals, first to last. *)
Fixpoint chain (pg : ProofGoal) : list Term :=
  match pg with
  | mkProofGoal t _ None => [term t]
  | mkProofGoal t _ (Some nxt) => term t :: chain nxt
  end.

End Refine.

(** *** Cubes from the model *)

(** [m[val].insert(t)] on an unordered set of terms. *)
Definition set_insert (t : Term) (s : list Term) : list Term :=
  if existsb (Term_eqb t) s then s else s ++ [t].

(** [m[val].insert(t)] on the classes of a sort: the class of [val] is
    made when there is none. *)
Fixpoint class_insert (val t : Term) (m : list (Term * list Term))
  : list (Term * list Term) :=
  match m with
  | [] => [(val, [t])]
  | (v, ts) :: m' =>
      if Term_eq_dec val v then (v, set_insert t ts) :: m'
      else (v, ts) :: class_insert val t m'
  end.

(** [ec[sort] = m] *)
Fixpoint ec_set (sort : Sort) (m : list (Term * list Term))
  (ec : EquivalenceClasses) : EquivalenceClasses :=
  match ec with
  | [] => [(sort, m)]
  | (s, m') :: ec' =>
      if Sort_eq_dec sort s then (sort, m) :: ec' else (s, m') :: ec_set sort m ec'
  end.

Definition not_fully_implemented : string :=
  "IC3SA::get_model_ic3formula not fully implemented".

Section ModelCubes.

(** The value of a term in the current model of the solver. *)
Variable get_value : Term -> Term.

(** The member [solver_true_] of the base class, the term a true
    predicate evaluates to; it is set outside the verified files. *)
Variable solver_true_ : Term.

(** The test of the base class whether a term is kept by the projection on
    a set of variables. *)
Variable in_projection : Term -> list Term -> bool.

(** The conjunction of the base class, which makes a cube of literals. *)
Variable ic3formula_conjunction : TermVec -> IC3Formula.

(** The inner loop of [get_equivalence_classes_from_model]. *)
Definition classes_of (to_keep : list Term) (terms : list Term)
  : list (Term * list Term) :=
  fold_left
    (fun m t => if in_projection t to_keep then class_insert (get_value t) t m
                else m)
    terms [].

(** [IC3SA::get_equivalence_classes_from_model] *)
Definition get_equivalence_classes_from_model (to_keep : list Term) (e : Engine)
  : EquivalenceClasses :=
  fold_left
    (fun ec elem => ec_set (fst elem) (classes_of to_keep (snd elem)) ec)
    (term_abstraction_ e) [].

(** The first loop of [get_model_ic3formula]: one literal per predicate. *)
Definition predicate_lits (preds : list Term) : TermVec :=
  map (fun p => if Term_eq_dec (get_value p) solver_true_ then p
                else make_term Not [p])
      preds.

(** The end of [get_model_ic3formula] and of [generalize_predecessor]:
    the partition is added to the literals, the cube is made of them and
    asserted to be valid. *)
Definition cube_of_partition (ec : EquivalenceClasses) (cube_lits : TermVec)
  : Outcome IC3Formula :=
  match construct_partition ec cube_lits with
  | Returns cube_lits' =>
      let cube := ic3formula_conjunction cube_lits' in
      match ic3formula_check_valid cube with
      | Returns true => Returns cube
      | Returns false => AssertFails "ic3formula_check_valid(cube)"
      | Throws m => Throws m
      | AssertFails w => AssertFails w
      | InvalidDeref p => InvalidDeref p
      end
  | Throws m => Throws m
  | AssertFails w => AssertFails w
  | InvalidDeref p => InvalidDeref p
  end.

(** [IC3SA::get_model_ic3formula]; the two pointers are [None] when null. *)
Definition get_model_ic3formula (out_inputs out_nexts : option TermVec)
  (e : Engine) : Outcome IC3Formula :=
  match out_inputs, out_nexts with
  | None, None =>
      let cube_lits := predicate_lits (predset_ e) in
      let ec := get_equivalence_classes_from_model (statevars (ts_ e)) e in
      cube_of_partition ec cube_lits
  | _, _ => Throws not_fully_implemented
  end.

(** The cone of influence of a term: [fcoi_.compute_coi] followed by
    [fcoi_.statevars_in_coi]. *)
Variable statevars_in_coi : Term -> list Term.

(** [get_free_symbolic_consts] *)
Variable free_symbolic_consts : Term -> list Term.

(** The loop of [generalize_predecessor] over the free symbols of a
    predicate.  Its [continue] continues this loop, not the loop over the
    predicates: with or without a symbol in the cone, nothing is done. *)
Definition scan_free_symbols (coi_symbols free_symbols : list Term) : unit :=
  fold_left
    (fun u fv => if existsb (Term_eqb fv) coi_symbols then u else u)
    free_symbols tt.

(** The first loop of [generalize_predecessor]. *)
Definition generalize_lits (coi_symbols : list Term) (preds : list Term)
  : TermVec :=
  map (fun p =>
         let 'tt := scan_free_symbols coi_symbols (free_symbolic_consts p) in
         if Term_eq_dec (get_value p) solver_true_ then p
         else make_term Not [p])
      preds.

(** [IC3SA::generalize_predecessor] *)
Definition generalize_predecessor (i : nat) (c : IC3Formula) (e : Engine)
  : Outcome IC3Formula :=
  let coi_symbols := statevars_in_coi (term c) in
  if (List.length coi_symbols <=? List.length (statevars (ts_ e)))%nat then
    let cube_lits := generalize_lits coi_symbols (predset_ e) in
    let ec := get_equivalence_classes_from_model coi_symbols e in
    cube_of_partition ec cube_lits
  else AssertFails "coi_symbols.size() <= ts_->statevars().size()".

(** What the classes of a sort are to the terms [seen] of that sort: the
    values of the classes are distinct; no class is empty or lists a term
    twice; the members of a class are terms seen, kept by the projection,
    with the value of the class; and every term seen and kept is in the
    class of its value. *)
Definition partitions (to_keep seen : list Term) (m : list (Term * list Term))
  : Prop :=
  NoDup (map fst m)
  /\ (forall val ts, In (val, ts) m ->
        ts <> [] /\ NoDup ts
        /\ forall t, In t ts ->
             In t seen /\ in_projection t to_keep = true /\ get_value t = val)
  /\ (forall t, In t seen -> in_projection t to_keep = true ->
        exists ts, In (get_value t, ts) m /\ In t ts).

(** The terms of the abstraction that the projection keeps. *)
Definition kept_terms (to_keep : list Term) (e : Engine) : list Term :=
  filter (fun t => in_projection t to_keep)
         (flat_map snd (term_abstraction_ e)).

(** A predicate whose literal passes [is_eq_lit]. *)
Definition literal_accepted (p : Term) : bool :=
  match is_eq_lit (if Term_eq_dec (get_value p) solver_true_ then p
                   else make_term Not [p]) SBool with
  | Returns true => true
  | _ => false
  end.

End ModelCubes.

(** *** An engine to read a model on *)

(** The terms [x], [y] and [x + y] of two bits, and the predicate
    [x = y]. *)
Definition small_engine : Engine :=
  mkEngine (mkTS false [bv_var "x"; bv_var "y"] [] (make_value true) (make_value true))
           [make_term Equal [bv_var "x"; bv_var "y"]]
           [(bv2, [bv_var "x"; bv_var "y";
                   make_term BVAdd [bv_var "x"; bv_var "y"]])].

(** The model [x = 1], [y = 2]. *)
Definition small_model (t : Term) : Term :=
  match t with
  | Sym "x" _ => bv_val 1
  | Sym "y" _ => bv_val 2
  | App BVAdd _ => bv_val 3
  | App Equal _ => make_value false
  | _ => t
  end.

(** The projection that keeps the terms whose symbols are all kept. *)
Fixpoint symbols_in (t : Term) (to_keep : list Term) : bool :=
  match t with
  | Sym _ _ => existsb (Term_eqb t) to_keep
  | Val _ _ => true
  | App _ cs => forallb (fun c => symbols_in c to_keep) cs
  end.

Definition and_cube (c : TermVec) : IC3Formula :=
  mkIC3Formula (fold_left (fun f l => make_term And [f; l]) c (make_value true))
               c true.

End IC3SA.

(** * Part II: the proofs *)

(** ** Facts about values and the solver *)

Module SmtFacts.

Import Smt.

Lemma Value_eqb_eq (a b : Value) : Value_eqb a b = true <-> a = b.
Proof.
  destruct a as [x|x], b as [y|y]; simpl; split; intro H;
    try discriminate; try congruence.
  - apply Bool.eqb_prop in H. now subst.
  - inversion H; subst. apply Bool.eqb_reflx.
  - apply Z.eqb_eq in H. now subst.
  - inversion H; subst. apply Z.eqb_refl.
Qed.

Lemma assertions_push s : assertions (push s) = assertions s.
Proof. reflexivity. Qed.

Lemma assertions_assert f s :
  forall g, In g (assertions (assert_formula f s)) <-> g = f \/ In g (assertions s).
Proof.
  intro g. unfold assertions, assert_formula.
  destruct (contexts s) as [|c cs]; simpl.
  - split; intros [H|H]; auto.
  - split; intros [H|H]; auto.
Qed.

Lemma context_level_assert f s :
  context_level (assert_formula f s) = context_level s.
Proof.
  unfold context_level, assert_formula.
  destruct (contexts s); reflexivity.
Qed.

Lemma context_level_push s : context_level (push s) = S (context_level s).
Proof. reflexivity. Qed.

Lemma context_level_pop_push s : context_level (pop (push s)) = context_level s.
Proof. reflexivity. Qed.

Lemma existsb_Term_eqb t s : existsb (Term_eqb t) s = true <-> In t s.
Proof.
  rewrite existsb_exists. unfold Term_eqb. split.
  - intros [x [Hin Hx]]. destruct (Term_eq_dec t x); [now subst|discriminate].
  - intro Hin. exists t. split; [exact Hin|].
    destruct (Term_eq_dec t t); congruence.
Qed.

End SmtFacts.

(** ** Facts about counting loops *)

Module CoreFacts.

Import Smt Core.

Lemma in_upto n j : In j (upto n) <-> 0 <= j < n.
Proof.
  unfold upto. rewrite in_map_iff. split.
  - intros [m [<- Hm]]. apply in_seq in Hm. lia.
  - intros Hj. exists (Z.to_nat j). split; [lia|]. apply in_seq. lia.
Qed.

Lemma upto_succ n : 0 <= n -> upto (n + 1) = upto n ++ [n].
Proof.
  intro Hn. unfold upto.
  replace (Z.to_nat (n + 1)) with (S (Z.to_nat n)) by lia.
  rewrite seq_S, map_app. simpl. now rewrite Z2Nat.id.
Qed.

End CoreFacts.

(** ** The k-induction prover *)

Module KIndFacts.

Import Smt Core KInd SmtFacts CoreFacts.

Section EngineFacts.

Variable check_sat_oracle : list Term -> Result.

Variable unroll : Term -> Z -> Term.

Local Abbreviation base_step := (KInd.base_step check_sat_oracle unroll).

Local Abbreviation inductive_step := (KInd.inductive_step check_sat_oracle unroll).

Local Abbreviation check_until_loop := (KInd.check_until_loop check_sat_oracle unroll).

Local Abbreviation check_until := (KInd.check_until check_sat_oracle unroll).

Local Abbreviation base_query := (KInd.base_query unroll).
Local Abbreviation with_simple_path := (KInd.with_simple_path unroll).
Local Abbreviation inductive_query := (KInd.inductive_query unroll).
Local Abbreviation trans_asserted := (KInd.trans_asserted unroll).

(** *** One step, case by case *)

Lemma pop_two_asserts f g s : pop (assert_formula g (assert_formula f (push s))) = s.
Proof. destruct s as [b cs]. reflexivity. Qed.

Lemma assertions_two_asserts f g s :
  assertions (assert_formula g (assert_formula f (push s))) = g :: f :: assertions s.
Proof. destruct s as [b cs]. reflexivity. Qed.

Lemma level_two_asserts f g s :
  context_level (assert_formula g (assert_formula f (push s))) = S (context_level s).
Proof. destruct s as [b cs]. reflexivity. Qed.

Lemma fold_simple_path_fields i js : forall e,
  let e' := fold_left (fun e' j => add_simple_path_constraint unroll i j e') js e in
  ts_ e' = ts_ e /\ property_ e' = property_ e /\ solver_ e' = solver_ e
  /\ reached_k_ e' = reached_k_ e.
Proof.
  induction js as [|j js IH]; intro e; simpl; [tauto|].
  destruct (IH (add_simple_path_constraint unroll i j e)) as (H1 & H2 & H3 & H4).
  simpl in *. now rewrite H1, H2, H3, H4.
Qed.

Lemma with_simple_path_fields i e :
  ts_ (with_simple_path i e) = ts_ e
  /\ property_ (with_simple_path i e) = property_ e
  /\ solver_ (with_simple_path i e) = solver_ e
  /\ reached_k_ (with_simple_path i e) = reached_k_ e.
Proof. apply fold_simple_path_fields. Qed.

(** The base step, case by case. *)
Lemma base_step_cases i e :
  (i <= reached_k_ e /\ base_step i e = (true, e))
  \/ (reached_k_ e < i /\ check_sat_oracle (base_query i e) = SAT
      /\ base_step i e =
           (false, set_solver (assert_formula (unroll (bad_of e) i)
                     (assert_formula (unroll (init (ts_ e)) 0) (push (solver_ e)))) e))
  \/ (reached_k_ e < i /\ check_sat_oracle (base_query i e) <> SAT
      /\ base_step i e =
           (true, set_solver (assert_formula (unroll (property_ e) i)
                     (assert_formula (unroll (trans (ts_ e)) i) (solver_ e))) e)).
Proof.
  unfold KInd.base_step, check_sat.
  destruct (Z.leb_spec i (reached_k_ e)) as [Hle|Hlt]; [left; auto|right].
  rewrite assertions_two_asserts. fold (base_query i e).
  destruct (check_sat_oracle (base_query i e)) eqn:Hr; simpl.
  - left. auto.
  - right. rewrite pop_two_asserts. repeat split; auto; discriminate.
  - right. rewrite pop_two_asserts. repeat split; auto; discriminate.
Qed.

(** The inductive step, case by case. *)
Lemma inductive_step_cases i e :
  (i <= reached_k_ e /\ inductive_step i e = (false, e))
  \/ (reached_k_ e < i /\ check_sat_oracle (inductive_query i e) = UNSAT
      /\ inductive_step i e =
           (true, set_solver (assert_formula (unroll (bad_of e) (i + 1))
                    (assert_formula (simple_path_ (with_simple_path i e))
                       (push (solver_ e)))) (with_simple_path i e)))
  \/ (reached_k_ e < i /\ check_sat_oracle (inductive_query i e) <> UNSAT
      /\ inductive_step i e =
           (false, incr_reached_k (set_solver (solver_ e) (with_simple_path i e)))).
Proof.
  unfold KInd.inductive_step, check_sat.
  destruct (Z.leb_spec i (reached_k_ e)) as [Hle|Hlt]; [left; auto|right].
  fold (with_simple_path i e).
  destruct (with_simple_path_fields i e) as (Hts & Hp & Hs & Hk).
  rewrite assertions_two_asserts, Hs. fold (inductive_query i e).
  destruct (check_sat_oracle (inductive_query i e)) eqn:Hr; simpl.
  - right. rewrite pop_two_asserts. repeat split; auto; discriminate.
  - left. auto.
  - right. rewrite pop_two_asserts. repeat split; auto; discriminate.
Qed.

(** *** The context stack *)

Lemma base_step_level i e :
  context_level (solver_ (snd (base_step i e))) =
    if fst (base_step i e)
    then context_level (solver_ e)
    else S (context_level (solver_ e)).
Proof.
  destruct (base_step_cases i e) as [[_ ->]|[(_ & _ & ->)|(_ & _ & ->)]]; simpl.
  - reflexivity.
  - apply level_two_asserts.
  - now rewrite !context_level_assert.
Qed.

Lemma inductive_step_level i e :
  context_level (solver_ (snd (inductive_step i e))) =
    if fst (inductive_step i e)
    then S (context_level (solver_ e))
    else context_level (solver_ e).
Proof.
  destruct (inductive_step_cases i e) as [[_ ->]|[(_ & _ & ->)|(_ & _ & ->)]]; simpl.
  - reflexivity.
  - apply level_two_asserts.
  - reflexivity.
Qed.

Lemma check_until_loop_level n : forall i e,
  context_level (solver_ (snd (check_until_loop n i e))) =
    match fst (check_until_loop n i e) with
    | Core.UNKNOWN => context_level (solver_ e)
    | _ => S (context_level (solver_ e))
    end.
Proof.
  induction n as [|n IH]; intros i e; simpl; [reflexivity|].
  pose proof (base_step_level i e) as Hb.
  destruct (base_step i e) as [b e1]; simpl in Hb.
  destruct b; simpl; [|exact Hb].
  pose proof (inductive_step_level i e1) as Hi.
  destruct (inductive_step i e1) as [r e2]; simpl in Hi.
  destruct r; simpl.
  - now rewrite Hi, Hb.
  - rewrite IH, Hi, Hb. reflexivity.
Qed.

(** *** Unknown answers *)

Lemma check_until_loop_all_unknown n : forall i e,
  fst (KInd.check_until_loop (fun _ => Smt.UNKNOWN) unroll n i e) = Core.UNKNOWN.
Proof.
  induction n as [|n IH]; intros i e; simpl; [reflexivity|].
  unfold KInd.base_step, check_sat. simpl.
  destruct (i <=? reached_k_ e); simpl;
    unfold KInd.inductive_step, check_sat; simpl;
    match goal with |- context [if ?c then _ else _] => destruct c end;
    simpl; apply IH.
Qed.

(** *** Counterexamples found by the base step *)

Lemma trans_asserted_base i e e1 :
  trans_asserted i e -> base_step i e = (true, e1) ->
  ts_ e1 = ts_ e /\ property_ e1 = property_ e
  /\ reached_k_ e1 = reached_k_ e /\ trans_asserted (i + 1) e1.
Proof.
  intros Hinv Hb.
  destruct (base_step_cases i e) as [[Hle E]|[(_ & _ & E)|(Hlt & _ & E)]];
    rewrite E in Hb; inversion Hb; subst e1; clear Hb.
  - repeat split; auto. intros j Hj [Hji|Hjr]; apply Hinv; auto; lia.
  - simpl. repeat split; auto. intros j Hj Hcase. simpl in *.
    apply assertions_assert. right. apply assertions_assert.
    destruct (Z.eq_dec j i) as [->|Hne]; [left; reflexivity|right].
    apply Hinv; auto. lia.
Qed.

Lemma trans_asserted_inductive i e e2 :
  trans_asserted (i + 1) e -> inductive_step i e = (false, e2) ->
  ts_ e2 = ts_ e /\ property_ e2 = property_ e /\ trans_asserted (i + 1) e2.
Proof.
  intros Hinv Hs.
  destruct (inductive_step_cases i e) as [[Hle E]|[(_ & _ & E)|(Hlt & _ & E)]];
    rewrite E in Hs; inversion Hs; subst e2; clear Hs.
  - auto.
  - destruct (with_simple_path_fields i e) as (Hts & Hp & _ & Hk).
    simpl. repeat split; auto.
    intros j Hj Hcase. simpl in *. rewrite Hts. apply Hinv; auto.
    rewrite Hk in Hcase. lia.
Qed.

Section Soundness.

Variable theory : PrimOp -> list Value -> Value.

Local Abbreviation sound_solver := (KInd.sound_solver check_sat_oracle theory).
Local Abbreviation counterexample_trace := (KInd.counterexample_trace unroll theory).

Lemma check_until_loop_unsafe (Hsound : sound_solver) n : forall i e e',
  0 <= i -> trans_asserted i e ->
  check_until_loop n i e = (FALSE, e') ->
  exists i' m, i <= i' < i + Z.of_nat n
    /\ counterexample_trace (ts_ e) (property_ e) i' m.
Proof.
  induction n as [|n IH]; intros i e e' Hi Hinv Hrun; simpl in Hrun;
    [discriminate|].
  destruct (base_step i e) as [b e1] eqn:Hb.
  destruct b; simpl in Hrun.
  - destruct (trans_asserted_base i e e1 Hinv Hb) as (Hts1 & Hp1 & _ & Hinv1).
    destruct (inductive_step i e1) as [r e2] eqn:Hs.
    destruct r; [discriminate|].
    destruct (trans_asserted_inductive i e1 e2 Hinv1 Hs) as (Hts2 & Hp2 & Hinv2).
    destruct (IH (i + 1) e2 e' ltac:(lia) Hinv2 Hrun) as (i' & m & Hi' & Htr).
    exists i', m. split; [lia|].
    now rewrite Hts2, Hp2, Hts1, Hp1 in Htr.
  - destruct (base_step_cases i e) as [[_ E]|[(Hlt & Hsat & E)|(_ & _ & E)]];
      rewrite E in Hb; try discriminate.
    destruct (Hsound _ Hsat) as [m Hm].
    exists i, m. split; [lia|]. unfold KInd.base_query in Hm.
    repeat split.
    + apply Hm. right. left. reflexivity.
    + intros j Hj. apply Hm. right. right. apply Hinv; lia.
    + apply Hm. left. reflexivity.
Qed.

End Soundness.

End EngineFacts.

Section SimplePath.

Variable check_sat_oracle : list Term -> Result.

Variable unroll : Term -> Z -> Term.

Variable theory : PrimOp -> list Value -> Value.

Local Abbreviation base_step := (KInd.base_step check_sat_oracle unroll).

Local Abbreviation inductive_step := (KInd.inductive_step check_sat_oracle unroll).

Local Abbreviation check_until_loop := (KInd.check_until_loop check_sat_oracle unroll).

Local Abbreviation state_at := (KInd.state_at unroll theory).
Local Abbreviation differ := (KInd.differ unroll theory).
Local Abbreviation pairwise_differ := (KInd.pairwise_differ unroll theory).
Local Abbreviation after_inductive := (KInd.after_inductive check_sat_oracle unroll).

(** *** The simple-path constraint *)

Lemma differ_spec vars m a b :
  differ vars m a b = true <->
  exists s, In s vars /\ eval theory m (unroll s a) <> eval theory m (unroll s b).
Proof.
  unfold KInd.differ. rewrite existsb_exists.
  split; intros [s [Hin Hs]]; exists s; split; auto.
  - intro Heq. apply Value_eqb_eq in Heq. rewrite Heq in Hs. discriminate.
  - destruct (Value_eqb _ _) eqn:E; [|reflexivity].
    apply Value_eqb_eq in E. contradiction.
Qed.

Lemma states_differ vars m a b :
  map (fun s => eval theory m (unroll s a)) vars
    <> map (fun s => eval theory m (unroll s b)) vars ->
  differ vars m a b = true.
Proof.
  induction vars as [|v vars IH]; simpl; intro Hne; [congruence|].
  destruct (Value_eqb _ _) eqn:E; simpl; [|reflexivity].
  apply IH. intro Heq. apply Hne. apply Value_eqb_eq in E. congruence.
Qed.

Lemma eval_disj_acc m i j vars : forall acc b,
  eval theory m acc = VBool b ->
  eval theory m
    (fold_left
       (fun disj v =>
          make_term Or [disj; make_term Not [make_term Equal [unroll v i; unroll v j]]])
       vars acc)
  = VBool (b || differ vars m i j).
Proof.
  induction vars as [|v vars IH]; intros acc b Hacc; simpl.
  - now rewrite Hacc, orb_false_r.
  - erewrite IH.
    + rewrite orb_assoc. reflexivity.
    + simpl. rewrite Hacc. reflexivity.
Qed.

Lemma eval_simple_path_disj m i j vars :
  eval theory m (simple_path_disj unroll i j vars) = VBool (differ vars m i j).
Proof.
  unfold simple_path_disj.
  now rewrite (eval_disj_acc m i j vars (make_value false) false eq_refl).
Qed.

Lemma eval_fold_simple_path m i js : forall e b,
  eval theory m (simple_path_ e) = VBool b ->
  eval theory m
    (simple_path_
       (fold_left (fun e' j => add_simple_path_constraint unroll i j e') js e))
  = VBool (b && forallb (differ (statevars (ts_ e)) m i) js).
Proof.
  induction js as [|j js IH]; intros e b Hb; simpl.
  - now rewrite Hb, andb_true_r.
  - erewrite IH.
    + simpl. rewrite andb_assoc. reflexivity.
    + simpl. rewrite Hb, eval_simple_path_disj. reflexivity.
Qed.

(** What the run of a fresh engine keeps true after each inductive step. *)
Lemma after_inductive_inv ts prop solver i r e :
  after_inductive (new ts prop solver) i r e ->
  0 <= i /\ ts_ e = ts
  /\ reached_k_ e = (if r then i - 1 else i)
  /\ forall m, exists b,
       eval theory m (simple_path_ e) = VBool b
       /\ (b = true <-> pairwise_differ ts m i).
Proof.
  assert (Hstep : forall i e e1 r e2,
    0 <= i -> ts_ e = ts -> reached_k_ e = i - 1 ->
    (forall m, exists b, eval theory m (simple_path_ e) = VBool b
       /\ (b = true <-> pairwise_differ ts m (i - 1))) ->
    base_step i e = (true, e1) -> inductive_step i e1 = (r, e2) ->
    ts_ e2 = ts /\ reached_k_ e2 = (if r then i - 1 else i)
    /\ forall m, exists b, eval theory m (simple_path_ e2) = VBool b
       /\ (b = true <-> pairwise_differ ts m i)).
  { clear. intros i e e1 r e2 Hi Hts Hk Hsp Hb Hs.
    assert (H1 : ts_ e1 = ts /\ reached_k_ e1 = i - 1
                 /\ simple_path_ e1 = simple_path_ e).
    { destruct (base_step_cases check_sat_oracle unroll i e)
        as [[Hle _]|[(_ & _ & E)|(_ & _ & E)]]; [lia| |];
        rewrite E in Hb; inversion Hb; subst e1; simpl; auto. }
    destruct H1 as (Hts1 & Hk1 & Hsp1).
    destruct (with_simple_path_fields unroll i e1) as (Hts' & _ & _ & Hk').
    assert (Hsp2 : simple_path_ e2 = simple_path_ (with_simple_path unroll i e1)
                   /\ ts_ e2 = ts /\ reached_k_ e2 = (if r then i - 1 else i)).
    { destruct (inductive_step_cases check_sat_oracle unroll i e1)
        as [[Hle _]|[(_ & _ & E)|(_ & _ & E)]]; [lia| |];
        rewrite E in Hs; inversion Hs; subst; simpl; repeat split; auto;
        try congruence; lia. }
    destruct Hsp2 as (Hsp2 & Hts2 & Hk2).
    repeat split; auto. intro m.
    destruct (Hsp m) as [b [Hb0 Hbiff]].
    exists (b && forallb (differ (statevars (ts_ e1)) m i) (upto i)). split.
    - rewrite Hsp2. unfold with_simple_path.
      apply eval_fold_simple_path. now rewrite Hsp1.
    - rewrite andb_true_iff, forallb_forall, Hbiff, Hts1.
      unfold KInd.pairwise_differ. split.
      + intros [Hold Hnew] j k Hjk.
        destruct (Z.eq_dec k i) as [->|Hne].
        * apply differ_spec, Hnew, in_upto. lia.
        * apply Hold. lia.
      + intros Hall. split.
        * intros j k Hjk. apply Hall. lia.
        * intros j Hj. apply in_upto in Hj. apply differ_spec, Hall. lia. }
  induction 1 as [e1 r e2 Hb Hs | i e e1 r e2 Hprev IH Hb Hs].
  - assert (Hsp0 : forall m, exists b,
              eval theory m (simple_path_ (new ts prop solver)) = VBool b
              /\ (b = true <-> pairwise_differ ts m (0 - 1))).
    { intro m. exists true. split; [reflexivity|].
      split; [|reflexivity]. intros _ j k Hjk. lia. }
    destruct (Hstep 0 (new ts prop solver) e1 r e2 ltac:(lia) eq_refl eq_refl
                Hsp0 Hb Hs) as (A & B & C).
    split; [lia|]. auto.
  - destruct IH as (Hi & Hts & Hk & Hsp).
    assert (Hsp' : forall m, exists b,
              eval theory m (simple_path_ e) = VBool b
              /\ (b = true <-> pairwise_differ ts m (i + 1 - 1))).
    { intro m. replace (i + 1 - 1) with i by lia. apply Hsp. }
    destruct (Hstep (i + 1) e e1 r e2 ltac:(lia) Hts ltac:(lia) Hsp' Hb Hs)
      as (A & B & C).
    split; [lia|]. auto.
Qed.

(** Every run of [check_until] on a fresh engine that ends in SAFE ends
    right after an inductive step of this relation. *)
Lemma check_until_loop_after e0 n : forall i e e',
  (i = 0 /\ e = e0) \/ (0 < i /\ after_inductive e0 (i - 1) false e) ->
  check_until_loop n i e = (TRUE, e') ->
  exists i', i <= i' < i + Z.of_nat n /\ after_inductive e0 i' true e'.
Proof.
  induction n as [|n IH]; intros i e e' Hstart Hrun; simpl in Hrun;
    [discriminate|].
  destruct (base_step i e) as [b e1] eqn:Hb.
  destruct b; simpl in Hrun; [|discriminate].
  destruct (inductive_step i e1) as [r e2] eqn:Hs.
  assert (Hafter : after_inductive e0 i r e2).
  { destruct Hstart as [[-> ->]|[Hpos Hprev]].
    - eapply after_first; eauto.
    - replace i with (i - 1 + 1) by lia.
      eapply after_next; eauto;
        replace (i - 1 + 1) with i by lia; eauto. }
  destruct r.
  - inversion Hrun; subst e'. exists i. split; [lia|exact Hafter].
  - destruct (IH (i + 1) e2 e') as (i' & Hi' & Ha); auto.
    + right. split.
      * destruct Hstart as [[-> _]|[Hpos _]]; lia.
      * replace (i + 1 - 1) with i by lia. exact Hafter.
    + exists i'. split; [lia|exact Ha].
Qed.

End SimplePath.

(** *** The claims about k-induction *)

Lemma brute_solver_sound names :
  sound_solver (brute_solver names) no_theory.
Proof.
  intros fs Hsat. unfold brute_solver in Hsat.
  destruct (existsb _ _) eqn:E; [|discriminate].
  apply existsb_exists in E. destruct E as [a [_ Ha]].
  exists (model_of a). intros f Hf.
  unfold satisfies in Ha. rewrite forallb_forall in Ha.
  apply Value_eqb_eq. now apply Ha.
Qed.

(** C2, as stated, fails: on the stuck bit the base query of depth 0 is
    answered UNKNOWN, and yet [check_until 0] returns SAFE rather than
    UNKNOWN; the base step went on as after UNSAT and asserted the property
    at step 0 for good, although the initial state violates the property. *)
Lemma kind_unknown_base_query_taken_as_unsat :
  let solver := timid_solver (at_time stuck_ts (init stuck_ts) 0) latch_names in
  let unroll := at_time stuck_ts in
  let e := new stuck_ts stuck_prop fresh_solver in
  solver (base_query unroll 0 e) = Smt.UNKNOWN
  /\ fst (check_until solver unroll 0 e) = TRUE
  /\ fst (check_until solver unroll 0 e) <> Core.UNKNOWN
  /\ In (unroll stuck_prop 0) (base (solver_ (snd (base_step solver unroll 0 e))))
  /\ counterexample_trace unroll no_theory stuck_ts stuck_prop 0
       (model_of [("x@0", false)]).
Proof.
  cbv zeta. repeat apply conj.
  - vm_compute. reflexivity.
  - vm_compute. reflexivity.
  - vm_compute. discriminate.
  - vm_compute. auto.
  - vm_compute. reflexivity.
  - intros j Hj. lia.
  - vm_compute. reflexivity.
Qed.

(** C2, amended: the engine never looks at UNKNOWN.  A base step returns
    false only on SAT, so an UNKNOWN answer is handled as UNSAT (pop, then
    assert the relation and the property of that depth); an inductive step
    returns true only on UNSAT, so an UNKNOWN answer is handled as SAT (pop,
    count the depth as reached); and when every query is answered UNKNOWN,
    [check_until k] returns UNKNOWN. *)
Theorem kind_unknown_handling (oracle : list Term -> Result)
  (unroll : Term -> Z -> Term) (i k : Z) (e : KInduction) :
  (fst (base_step oracle unroll i e) = false <->
     reached_k_ e < i /\ oracle (base_query unroll i e) = SAT)
  /\ (reached_k_ e < i -> oracle (base_query unroll i e) = Smt.UNKNOWN ->
        base_step oracle unroll i e =
          (true, set_solver (assert_formula (unroll (property_ e) i)
                    (assert_formula (unroll (trans (ts_ e)) i) (solver_ e))) e))
  /\ (fst (inductive_step oracle unroll i e) = true <->
        reached_k_ e < i /\ oracle (inductive_query unroll i e) = UNSAT)
  /\ (reached_k_ e < i -> oracle (inductive_query unroll i e) = Smt.UNKNOWN ->
        inductive_step oracle unroll i e =
          (false, incr_reached_k
                    (set_solver (solver_ e) (with_simple_path unroll i e))))
  /\ fst (check_until (fun _ => Smt.UNKNOWN) unroll k e) = Core.UNKNOWN.
Proof.
  repeat apply conj.
  - destruct (base_step_cases oracle unroll i e)
      as [[Hle ->]|[(Hlt & Hr & ->)|(Hlt & Hr & ->)]]; simpl;
      intro H; try discriminate; auto.
  - destruct (base_step_cases oracle unroll i e)
      as [[Hle ->]|[(Hlt & Hr & ->)|(Hlt & Hr & ->)]]; simpl;
      intros [H1 H2]; try reflexivity; try lia; contradiction.
  - intros Hlt Hunk.
    destruct (base_step_cases oracle unroll i e)
      as [[Hle _]|[(_ & Hr & _)|(_ & _ & E)]]; [lia|congruence|exact E].
  - destruct (inductive_step_cases oracle unroll i e)
      as [[Hle ->]|[(Hlt & Hr & ->)|(Hlt & Hr & ->)]]; simpl;
      intro H; try discriminate; auto.
  - destruct (inductive_step_cases oracle unroll i e)
      as [[Hle ->]|[(Hlt & Hr & ->)|(Hlt & Hr & ->)]]; simpl;
      intros [H1 H2]; try reflexivity; try lia; contradiction.
  - intros Hlt Hunk.
    destruct (inductive_step_cases oracle unroll i e)
      as [[Hle _]|[(_ & Hr & _)|(_ & _ & E)]]; [lia|congruence|exact E].
  - apply check_until_loop_all_unknown.
Qed.

(** C3: when [check_until k] on a fresh engine returns UNSAFE and the
    back-end is sound, there are a depth [i] with [0 <= i <= k] and a model
    of [init@0], of [trans@j] for every [j < i], and of the negated
    property at step [i]. *)
Theorem check_until_unsafe_trace (theory : PrimOp -> list Value -> Value)
  (oracle : list Term -> Result) (unroll : Term -> Z -> Term)
  (ts : TransitionSystem) (prop : Term) (solver : SmtSolver) (k : Z) :
  sound_solver oracle theory ->
  fst (check_until oracle unroll k (new ts prop solver)) = FALSE ->
  exists i m, 0 <= i <= k /\ counterexample_trace unroll theory ts prop i m.
Proof.
  intros Hsound Hrun. unfold check_until in Hrun.
  destruct (check_until_loop oracle unroll (Z.to_nat (k + 1)) 0 (new ts prop solver))
    as [res e'] eqn:Hloop.
  simpl in Hrun. subst res.
  assert (Hinv : trans_asserted unroll 0 (new ts prop solver))
    by (intros j Hj [Hlt|Hle]; simpl in *; lia).
  destruct (check_until_loop_unsafe oracle unroll theory Hsound _ 0 _ e'
              ltac:(lia) Hinv Hloop) as (i & m & Hi & Htr).
  exists i, m. split; [lia|exact Htr].
Qed.

Lemma check_until_unsafe_trace_witness :
  exists i m, 0 <= i <= 1
    /\ counterexample_trace (at_time latch_ts) no_theory latch_ts latch_prop i m.
Proof.
  apply (check_until_unsafe_trace no_theory (brute_solver latch_names)
           (at_time latch_ts) latch_ts latch_prop fresh_solver 1).
  - apply brute_solver_sound.
  - vm_compute. reflexivity.
Defined.

(** C4, as stated, fails: on the free latch [check_until 1] returns UNSAFE
    and leaves one context pushed. *)
Lemma kind_unsafe_leaves_context_pushed :
  let solver := brute_solver latch_names in
  let unroll := at_time latch_ts in
  let e := new latch_ts latch_prop fresh_solver in
  fst (check_until solver unroll 1 e) = FALSE
  /\ context_level (solver_ e) = 0%nat
  /\ context_level (solver_ (snd (check_until solver unroll 1 e))) = 1%nat.
Proof. vm_compute. auto. Qed.

(** C4, amended: a step that lets the loop go on pops the context it
    pushed, so [check_until] returning UNKNOWN leaves the context stack as
    it found it; the step that ends the run (a SAT base query, an UNSAT
    inductive query) returns without popping, so on UNSAFE and on SAFE
    exactly one context more is open than before. *)
Theorem check_until_context_level (oracle : list Term -> Result)
  (unroll : Term -> Z -> Term) (k : Z) (e : KInduction) :
  context_level (solver_ (snd (check_until oracle unroll k e))) =
    match fst (check_until oracle unroll k e) with
    | Core.UNKNOWN => context_level (solver_ e)
    | _ => S (context_level (solver_ e))
    end.
Proof. apply check_until_loop_level. Qed.

(** C5: after the inductive step at depth [i] in the run of a fresh
    engine, the accumulated simple-path constraint holds in a model exactly
    when for all [0 <= j < k <= i] some state variable has different values
    at the steps [k] and [j]; so it holds in every model in which the states
    at the steps [0..i] are pairwise distinct. *)
Theorem simple_path_after_inductive_step
  (oracle : list Term -> Result) (unroll : Term -> Z -> Term)
  (theory : PrimOp -> list Value -> Value)
  (ts : TransitionSystem) (prop : Term) (solver : SmtSolver)
  (i : Z) (r : bool) (e : KInduction) :
  after_inductive oracle unroll (new ts prop solver) i r e ->
  (forall m, holds theory m (simple_path_ e) <->
     pairwise_differ unroll theory ts m i)
  /\ (forall m,
        (forall j k, 0 <= j < k /\ k <= i ->
           state_at unroll theory ts m k <> state_at unroll theory ts m j) ->
        holds theory m (simple_path_ e)).
Proof.
  intro Hafter.
  destruct (after_inductive_inv oracle unroll theory ts prop solver i r e Hafter)
    as (_ & _ & _ & Hsp).
  assert (Hiff : forall m, holds theory m (simple_path_ e) <->
                   pairwise_differ unroll theory ts m i).
  { intro m. destruct (Hsp m) as [b [Hb Hbiff]]. unfold holds. rewrite Hb.
    rewrite <- Hbiff. split; congruence. }
  split; [exact Hiff|].
  intros m Hdist. apply Hiff. intros j k Hjk.
  apply differ_spec. apply states_differ. apply (Hdist j k Hjk).
Qed.

(** A run to depth 1 on the free latch with a back-end that always gives
    up: the inductive step at depth 1 leaves the constraint of the pair
    of steps 1 and 0. *)
Lemma simple_path_after_inductive_step_witness :
  (forall m,
     holds no_theory m
       (simple_path_
          (snd (check_until (fun _ => Smt.UNKNOWN) (at_time latch_ts) 1
                  (new latch_ts latch_prop fresh_solver)))) <->
     pairwise_differ (at_time latch_ts) no_theory latch_ts m 1)
  /\ (forall m,
        (forall j k, 0 <= j < k /\ k <= 1 ->
           state_at (at_time latch_ts) no_theory latch_ts m k
             <> state_at (at_time latch_ts) no_theory latch_ts m j) ->
        holds no_theory m
          (simple_path_
             (snd (check_until (fun _ => Smt.UNKNOWN) (at_time latch_ts) 1
                     (new latch_ts latch_prop fresh_solver))))).
Proof.
  apply (simple_path_after_inductive_step (fun _ => Smt.UNKNOWN)
           (at_time latch_ts) no_theory latch_ts latch_prop fresh_solver 1 false).
  change 1 with (0 + 1).
  eapply after_next.
  - eapply after_first; vm_compute; reflexivity.
  - vm_compute; reflexivity.
  - vm_compute; reflexivity.
Defined.

(** *** Repeated calls *)

Section RepeatedCalls.

Variable check_sat_oracle : list Term -> Result.
Variable unroll : Term -> Z -> Term.

Local Abbreviation check_until_loop := (KInd.check_until_loop check_sat_oracle unroll).
Local Abbreviation check_until := (KInd.check_until check_sat_oracle unroll).

(** Depths already reached are passed over without a query. *)
Lemma check_until_loop_skip n : forall i e,
  i + Z.of_nat n - 1 <= reached_k_ e ->
  check_until_loop n i e = (Core.UNKNOWN, e).
Proof.
  induction n as [|n IH]; intros i e Hle; [reflexivity|].
  simpl. unfold KInd.base_step.
  destruct (Z.leb_spec i (reached_k_ e)) as [_|Hlt]; [|lia]. simpl.
  unfold KInd.inductive_step.
  destruct (Z.leb_spec i (reached_k_ e)) as [_|Hlt]; [|lia]. simpl.
  apply IH. lia.
Qed.

(** A run of [n1 + n2] rounds is a run of [n1] rounds followed, when it
    gave no verdict, by a run of [n2] rounds. *)
Lemma check_until_loop_app n1 : forall n2 i e,
  check_until_loop (n1 + n2) i e =
    let (r, e1) := check_until_loop n1 i e in
    match r with
    | Core.UNKNOWN => check_until_loop n2 (i + Z.of_nat n1) e1
    | _ => (r, e1)
    end.
Proof.
  induction n1 as [|n1 IH]; intros n2 i e.
  - simpl. now rewrite Z.add_0_r.
  - change (S n1 + n2)%nat with (S (n1 + n2)). simpl.
    destruct (KInd.base_step check_sat_oracle unroll i e) as [b e1].
    destruct b; simpl; [|reflexivity].
    destruct (KInd.inductive_step check_sat_oracle unroll i e1) as [r e2].
    destruct r; simpl; [reflexivity|].
    rewrite IH. replace (i + 1 + Z.of_nat n1) with (i + Z.pos (Pos.of_succ_nat n1))
      by lia.
    reflexivity.
Qed.

(** How far [reached_k_] moves in a run that starts at depth [i]. *)
Lemma check_until_loop_reached n : forall i e,
  0 <= i -> i - 1 <= reached_k_ e ->
  reached_k_ e <= reached_k_ (snd (check_until_loop n i e))
  /\ reached_k_ (snd (check_until_loop n i e))
       <= Z.max (reached_k_ e) (i + Z.of_nat n - 1)
  /\ (fst (check_until_loop n i e) = Core.UNKNOWN ->
      reached_k_ (snd (check_until_loop n i e))
        = Z.max (reached_k_ e) (i + Z.of_nat n - 1)).
Proof.
  induction n as [|n IH]; intros i e Hi Hinv.
  - simpl. lia.
  - cbn [KInd.check_until_loop].
    destruct (base_step_cases check_sat_oracle unroll i e)
      as [[Hle ->]|[(Hlt & _ & ->)|(Hlt & _ & ->)]]; cbn [negb];
      [|simpl; repeat split; try lia; discriminate|].
    + destruct (inductive_step_cases check_sat_oracle unroll i e)
        as [[_ ->]|[(Hlt & _ & _)|(Hlt & _ & _)]]; try lia.
      destruct (IH (i + 1) e ltac:(lia) ltac:(lia)) as (A & B & C).
      repeat split; try lia. intro H. specialize (C H). lia.
    + set (e1 := set_solver _ e).
      assert (Hk1 : reached_k_ e1 = reached_k_ e) by reflexivity.
      destruct (inductive_step_cases check_sat_oracle unroll i e1)
        as [[Hle _]|[(_ & _ & ->)|(_ & _ & ->)]]; [lia| |].
      * destruct (with_simple_path_fields unroll i e1) as (_ & _ & _ & Hk).
        simpl. rewrite Hk, Hk1. repeat split; try lia; discriminate.
      * set (e2 := incr_reached_k _).
        assert (Hk2 : reached_k_ e2 = reached_k_ e + 1).
        { unfold e2. simpl.
          destruct (with_simple_path_fields unroll i e1) as (_ & _ & _ & Hk).
          rewrite Hk, Hk1. reflexivity. }
        destruct (IH (i + 1) e2 ltac:(lia) ltac:(lia)) as (A & B & C).
        repeat split; try lia. intro H. specialize (C H). lia.
Qed.

End RepeatedCalls.

(** X1: a call of [check_until] with a bound that is negative or not
    above [reached_k_] returns UNKNOWN at once and leaves the engine, the
    solver included, untouched. *)
Theorem check_until_below_reached (oracle : list Term -> Result)
  (unroll : Term -> Z -> Term) (k : Z) (e : KInduction) :
  k < 0 \/ k <= reached_k_ e ->
  check_until oracle unroll k e = (Core.UNKNOWN, e).
Proof.
  intro Hk. unfold check_until.
  destruct (Z.ltb_spec k 0) as [Hneg|Hpos].
  - replace (Z.to_nat (k + 1)) with 0%nat by lia. reflexivity.
  - apply check_until_loop_skip. lia.
Qed.

Lemma check_until_below_reached_witness :
  check_until (fun _ => Smt.UNKNOWN) (at_time latch_ts) 1
    (snd (check_until (fun _ => Smt.UNKNOWN) (at_time latch_ts) 1
            (new latch_ts latch_prop fresh_solver)))
  = (Core.UNKNOWN,
     snd (check_until (fun _ => Smt.UNKNOWN) (at_time latch_ts) 1
            (new latch_ts latch_prop fresh_solver))).
Proof.
  apply check_until_below_reached. right. vm_compute. discriminate.
Defined.

(** X2: on an engine whose [reached_k_] is at least -1, as the constructor
    leaves it, [check_until k] never lowers [reached_k_] and never raises
    it above [k]; when it returns UNKNOWN, [reached_k_] is the larger of
    its old value and [k]. *)
Theorem check_until_reached_k (oracle : list Term -> Result)
  (unroll : Term -> Z -> Term) (k : Z) (e : KInduction) :
  -1 <= reached_k_ e ->
  reached_k_ e <= reached_k_ (snd (check_until oracle unroll k e))
  /\ reached_k_ (snd (check_until oracle unroll k e)) <= Z.max (reached_k_ e) k
  /\ (fst (check_until oracle unroll k e) = Core.UNKNOWN ->
      reached_k_ (snd (check_until oracle unroll k e)) = Z.max (reached_k_ e) k).
Proof.
  intro Hinv. unfold check_until.
  destruct (check_until_loop_reached oracle unroll (Z.to_nat (k + 1)) 0 e
              ltac:(lia) ltac:(lia)) as (A & B & C).
  repeat split; try lia. intro H. specialize (C H). lia.
Qed.

Lemma check_until_reached_k_witness :
  reached_k_ (snd (check_until (brute_solver latch_names) (at_time latch_ts) 1
                     (new latch_ts latch_prop fresh_solver)))
    <= Z.max (-1) 1.
Proof.
  apply (check_until_reached_k (brute_solver latch_names) (at_time latch_ts) 1
           (new latch_ts latch_prop fresh_solver)).
  vm_compute. discriminate.
Defined.

(** X3: calls with growing bounds resume where the last one stopped: after
    [check_until k1] returned UNKNOWN, [check_until k2] with [k1 <= k2]
    gives the verdict and the engine that one call of [check_until k2]
    gives on the engine as it was before. *)
Theorem check_until_resumes (oracle : list Term -> Result)
  (unroll : Term -> Z -> Term) (k1 k2 : Z) (e : KInduction) :
  -1 <= reached_k_ e -> k1 <= k2 ->
  fst (check_until oracle unroll k1 e) = Core.UNKNOWN ->
  check_until oracle unroll k2 (snd (check_until oracle unroll k1 e))
    = check_until oracle unroll k2 e.
Proof.
  intros Hinv Hk Hunk. unfold check_until in *.
  set (n1 := Z.to_nat (k1 + 1)) in *.
  assert (Hn : Z.to_nat (k2 + 1) = (n1 + (Z.to_nat (k2 + 1) - n1))%nat)
    by (unfold n1; lia).
  rewrite Hn. set (m := (Z.to_nat (k2 + 1) - n1)%nat).
  destruct (check_until_loop_reached oracle unroll n1 0 e ltac:(lia) ltac:(lia))
    as (A & _ & C).
  specialize (C Hunk).
  rewrite (check_until_loop_app oracle unroll n1 m 0 e).
  destruct (check_until_loop oracle unroll n1 0 e) as [r e1] eqn:Hrun.
  simpl in Hunk, A, C |- *. subst r.
  rewrite (check_until_loop_app oracle unroll n1 m 0 e1).
  rewrite (check_until_loop_skip oracle unroll n1 0 e1) by lia.
  reflexivity.
Qed.

Lemma check_until_resumes_witness :
  check_until (brute_solver latch_names) (at_time latch_ts) 1
    (snd (check_until (brute_solver latch_names) (at_time latch_ts) 0
            (new latch_ts latch_prop fresh_solver)))
  = check_until (brute_solver latch_names) (at_time latch_ts) 1
      (new latch_ts latch_prop fresh_solver).
Proof.
  apply check_until_resumes.
  - vm_compute. discriminate.
  - lia.
  - vm_compute. reflexivity.
Defined.

(** *** The run of a fresh engine in closed form *)

Section ClosedFormFacts.

Variable check_sat_oracle : list Term -> Result.
Variable unroll : Term -> Z -> Term.
Variable ts : TransitionSystem.
Variable prop : Term.

Local Abbreviation asserted := (KInd.asserted unroll ts prop).
Local Abbreviation simple_path_upto := (KInd.simple_path_upto unroll ts).
Local Abbreviation engine_at_depth := (KInd.engine_at_depth unroll ts prop).
Local Abbreviation base_answer := (KInd.base_answer check_sat_oracle unroll ts prop).
Local Abbreviation inductive_answer :=
  (KInd.inductive_answer check_sat_oracle unroll ts prop).
Local Abbreviation verdict_from := (KInd.verdict_from check_sat_oracle unroll ts prop).

Lemma asserted_succ i :
  0 <= i ->
  asserted (i + 1) = unroll prop i :: unroll (trans ts) i :: asserted i.
Proof.
  intro Hi. unfold KInd.asserted.
  rewrite upto_succ by exact Hi. rewrite rev_unit. reflexivity.
Qed.

Lemma simple_path_upto_succ i :
  0 <= i ->
  simple_path_upto i =
    fold_left
      (fun sp' j =>
         make_term And [sp'; simple_path_disj unroll i j (statevars ts)])
      (upto i) (simple_path_upto (i - 1)).
Proof.
  intro Hi. unfold KInd.simple_path_upto.
  rewrite upto_succ by exact Hi. rewrite fold_left_app. simpl.
  replace (i - 1 + 1) with i by lia. reflexivity.
Qed.

Lemma fold_add_simple_path i js : forall e,
  fold_left (fun e' j => add_simple_path_constraint unroll i j e') js e =
    set_simple_path
      (fold_left
         (fun sp' j =>
            make_term And [sp'; simple_path_disj unroll i j (statevars (ts_ e))])
         js (simple_path_ e)) e.
Proof.
  induction js as [|j js IH]; intro e; simpl.
  - now destruct e.
  - rewrite IH. reflexivity.
Qed.

(** The engine between the two steps of depth [i]. *)
Lemma base_step_closed i :
  0 <= i ->
  KInd.base_step check_sat_oracle unroll i (engine_at_depth i) =
    if is_sat (base_answer i)
    then (false,
          mkKInduction ts prop
            (mkSolver (asserted i)
               [[unroll (make_term Not [prop]) i; unroll (init ts) 0]])
            (i - 1) (simple_path_upto (i - 1)))
    else (true,
          mkKInduction ts prop (mkSolver (asserted (i + 1)) []) (i - 1)
            (simple_path_upto (i - 1))).
Proof.
  intro Hi. unfold KInd.base_step, KInd.engine_at_depth. simpl.
  destruct (Z.leb_spec i (i - 1)) as [Hle|_]; [lia|].
  unfold check_sat, KInd.base_answer. simpl.
  destruct (is_sat _); [reflexivity|].
  rewrite asserted_succ by exact Hi. reflexivity.
Qed.

Lemma inductive_step_closed i :
  0 <= i ->
  KInd.inductive_step check_sat_oracle unroll i
    (mkKInduction ts prop (mkSolver (asserted (i + 1)) []) (i - 1)
       (simple_path_upto (i - 1))) =
    if is_unsat (inductive_answer i)
    then (true,
          mkKInduction ts prop
            (mkSolver (asserted (i + 1))
               [[unroll (make_term Not [prop]) (i + 1); simple_path_upto i]])
            (i - 1) (simple_path_upto i))
    else (false, engine_at_depth (i + 1)).
Proof.
  intro Hi. unfold KInd.inductive_step. simpl reached_k_.
  destruct (Z.leb_spec i (i - 1)) as [Hle|_]; [lia|].
  rewrite fold_add_simple_path. simpl.
  rewrite <- simple_path_upto_succ by exact Hi.
  unfold check_sat, KInd.inductive_answer. simpl.
  destruct (is_unsat _); [reflexivity|].
  unfold KInd.engine_at_depth, incr_reached_k, set_solver. simpl.
  replace (i + 1 - 1) with i by lia. replace (i - 1 + 1) with i by lia.
  reflexivity.
Qed.

Lemma check_until_loop_closed n : forall i,
  0 <= i ->
  fst (KInd.check_until_loop check_sat_oracle unroll n i (engine_at_depth i))
    = verdict_from n i
  /\ (verdict_from n i = Core.UNKNOWN ->
      KInd.check_until_loop check_sat_oracle unroll n i (engine_at_depth i)
        = (Core.UNKNOWN, engine_at_depth (i + Z.of_nat n))).
Proof.
  induction n as [|n IH]; intros i Hi.
  - simpl. split; [reflexivity|]. intros _. now rewrite Z.add_0_r.
  - cbn [KInd.check_until_loop KInd.verdict_from].
    rewrite base_step_closed by exact Hi.
    destruct (is_sat (base_answer i)); cbn [negb].
    + split; [reflexivity|discriminate].
    + rewrite inductive_step_closed by exact Hi.
      destruct (is_unsat (inductive_answer i)).
      * split; [reflexivity|discriminate].
      * destruct (IH (i + 1) ltac:(lia)) as [A B]. split; [exact A|].
        intro H. rewrite (B H). do 2 f_equal. lia.
Qed.

End ClosedFormFacts.

(** X4: the verdict of [check_until] on a fresh engine is a function of the
    answers to two explicit lists of formulas per depth.  The base query of
    depth [i] is [not prop@i], [init@0] and, for every [j < i], [prop@j] and
    [trans@j]; the inductive query is [not prop@(i+1)], the simple-path
    constraint of the depths up to [i], and [prop@j], [trans@j] for every
    [j <= i].  The first SAT base query gives UNSAFE, the first UNSAT
    inductive query gives SAFE. *)
Theorem check_until_verdict_closed_form (oracle : list Term -> Result)
  (unroll : Term -> Z -> Term) (ts : TransitionSystem) (prop : Term)
  (solver : SmtSolver) (k : Z) :
  fst (check_until oracle unroll k (new ts prop solver))
    = verdict oracle unroll ts prop k.
Proof.
  unfold check_until, verdict.
  apply (check_until_loop_closed oracle unroll ts prop (Z.to_nat (k + 1)) 0).
  lia.
Qed.

(** X5: when [check_until k] on a fresh engine returns UNKNOWN, no context
    is left pushed and the solver holds exactly [prop@j] and [trans@j] for
    [0 <= j <= k], newest first: the initial predicate, asserted inside the
    context of each base query only, is not among them.  [reached_k_] is
    [k] (or -1 for a negative [k]) and the simple-path constraint is the one
    of the depths up to [k]. *)
Theorem check_until_unknown_state (oracle : list Term -> Result)
  (unroll : Term -> Z -> Term) (ts : TransitionSystem) (prop : Term)
  (solver : SmtSolver) (k : Z) :
  fst (check_until oracle unroll k (new ts prop solver)) = Core.UNKNOWN ->
  snd (check_until oracle unroll k (new ts prop solver))
    = mkKInduction ts prop
        (mkSolver (asserted unroll ts prop (Z.max (k + 1) 0)) [])
        (Z.max k (-1))
        (simple_path_upto unroll ts (Z.max k (-1))).
Proof.
  intro Hunk. unfold check_until in *.
  destruct (check_until_loop_closed oracle unroll ts prop (Z.to_nat (k + 1)) 0
              ltac:(lia)) as [A B].
  change (engine_at_depth unroll ts prop 0) with (new ts prop solver) in A, B.
  rewrite A in Hunk. rewrite (B Hunk). cbn [snd].
  unfold engine_at_depth. rewrite Z.add_0_l.
  replace (Z.of_nat (Z.to_nat (k + 1))) with (Z.max (k + 1) 0) by lia.
  replace (Z.max (k + 1) 0 - 1) with (Z.max k (-1)) by lia.
  reflexivity.
Qed.

Lemma check_until_unknown_state_witness :
  snd (check_until (fun _ => Smt.UNKNOWN) (at_time latch_ts) 1
         (new latch_ts latch_prop fresh_solver))
    = mkKInduction latch_ts latch_prop
        (mkSolver (asserted (at_time latch_ts) latch_ts latch_prop (Z.max (1 + 1) 0)) [])
        (Z.max 1 (-1))
        (simple_path_upto (at_time latch_ts) latch_ts (Z.max 1 (-1))).
Proof.
  apply (check_until_unknown_state (fun _ => Smt.UNKNOWN) (at_time latch_ts)
           latch_ts latch_prop fresh_solver 1).
  vm_compute. reflexivity.
Defined.

(** *** What the verdict SAFE rests on *)

Section InductionFacts.

Variable check_sat_oracle : list Term -> Result.

Variable unroll : Term -> Z -> Term.

Variable theory : PrimOp -> list Value -> Value.

Variable ts : TransitionSystem.

Variable prop : Term.

Local Abbreviation base_answer := (KInd.base_answer check_sat_oracle unroll ts prop).

Local Abbreviation inductive_answer :=
  (KInd.inductive_answer check_sat_oracle unroll ts prop).

Local Abbreviation verdict_from := (KInd.verdict_from check_sat_oracle unroll ts prop).

Local Abbreviation simple_path_upto := (KInd.simple_path_upto unroll ts).

Local Abbreviation pairwise_differ := (KInd.pairwise_differ unroll theory).

Lemma verdict_from_true n : forall i,
  verdict_from n i = TRUE ->
  exists d, i <= d < i + Z.of_nat n
    /\ (forall j, i <= j <= d -> base_answer j <> SAT)
    /\ inductive_answer d = UNSAT.
Proof.
  induction n as [|n IH]; intro i; cbn [KInd.verdict_from]; [discriminate|].
  destruct (is_sat (base_answer i)) eqn:Hb; [discriminate|].
  destruct (is_unsat (inductive_answer i)) eqn:Hu.
  - intros _. exists i. split; [lia|]. split.
    + intros j Hj. replace j with i by lia. intro E. rewrite E in Hb.
      discriminate.
    + destruct (inductive_answer i); try discriminate. reflexivity.
  - intro H. destruct (IH (i + 1) H) as (d & Hd & Hbase & Hind).
    exists d. split; [lia|]. split; [|exact Hind].
    intros j Hj. destruct (Z.eq_dec j i) as [->|Hne].
    + intro E. rewrite E in Hb. discriminate.
    + apply Hbase. lia.
Qed.

Lemma eval_simple_path_fold m i js sp b :
  eval theory m sp = VBool b ->
  eval theory m
    (fold_left
       (fun sp' j =>
          make_term And [sp'; simple_path_disj unroll i j (statevars ts)])
       js sp)
  = VBool (b && forallb (differ unroll theory (statevars ts) m i) js).
Proof.
  intro Hsp.
  pose proof (eval_fold_simple_path unroll theory m i js
                (mkKInduction ts prop fresh_solver 0 sp) b Hsp) as H.
  rewrite fold_add_simple_path in H. exact H.
Qed.

Lemma eval_simple_path_upto m n :
  exists b,
    eval theory m (simple_path_upto (Z.of_nat n - 1)) = VBool b
    /\ (b = true <-> pairwise_differ ts m (Z.of_nat n - 1)).
Proof.
  induction n as [|n IH].
  - exists true. split; [reflexivity|]. split; [|reflexivity].
    intros _ j k Hjk. simpl in Hjk. lia.
  - destruct IH as [b [Hb Hiff]].
    replace (Z.of_nat (S n) - 1) with (Z.of_nat n) by lia.
    rewrite simple_path_upto_succ by lia.
    exists (b && forallb (differ unroll theory (statevars ts) m (Z.of_nat n))
                         (upto (Z.of_nat n))).
    split; [now apply eval_simple_path_fold|].
    rewrite andb_true_iff, forallb_forall, Hiff.
    unfold KInd.pairwise_differ. split.
    + intros [Hold Hnew] j k Hjk.
      destruct (Z.eq_dec k (Z.of_nat n)) as [->|Hne].
      * apply differ_spec, Hnew, in_upto. lia.
      * apply Hold. lia.
    + intros Hall. split.
      * intros j k Hjk. apply Hall. lia.
      * intros j Hj. apply in_upto in Hj. apply differ_spec, Hall. lia.
Qed.

Lemma in_asserted f i :
  In f (KInd.asserted unroll ts prop i) ->
  exists j, 0 <= j < i /\ (f = unroll prop j \/ f = unroll (trans ts) j).
Proof.
  unfold KInd.asserted. rewrite in_flat_map. intros [j [Hj Hf]].
  apply in_rev, in_upto in Hj. exists j. split; [exact Hj|].
  destruct Hf as [<-|[<-|[]]]; auto.
Qed.

End InductionFacts.

Lemma clash_solver_sound (theory : PrimOp -> list Value -> Value) :
  unsat_sound clash_solver theory.
Proof.
  intros fs H m Hall. unfold clash_solver in H.
  destruct (existsb (clash fs) fs) eqn:E; [|discriminate].
  apply existsb_exists in E. destruct E as [f [Hf Hc]].
  destruct f as [x s | l s | op cs]; try discriminate.
  destruct op; try discriminate.
  destruct cs as [|a [|b [|c cs]]]; try discriminate.
  simpl in Hc. apply andb_true_iff in Hc. destruct Hc as [Hb Hna].
  apply existsb_Term_eqb in Hb. apply existsb_Term_eqb in Hna.
  pose proof (Hall _ Hf) as Heq. pose proof (Hall _ Hb) as Hbt.
  pose proof (Hall _ Hna) as Hnat.
  unfold holds in *. simpl in Heq, Hnat.
  injection Heq as Heq. apply Value_eqb_eq in Heq.
  rewrite Heq, Hbt in Hnat. discriminate.
Qed.

(** X14: what the verdict SAFE rests on.  When [check_until k] on a fresh
    engine returns TRUE and the answers UNSAT of the back-end are right,
    there is a depth [i <= k] such that no base query up to [i] was
    answered SAT and the induction step at [i] has no counterexample: no
    model makes the property and the transition relation hold at the steps
    0 to [i] with pairwise different states and the property fail at step
    [i + 1]. *)
Theorem check_until_safe_induction (theory : PrimOp -> list Value -> Value)
  (oracle : list Term -> Result) (unroll : Term -> Z -> Term)
  (ts : TransitionSystem) (prop : Term) (solver : SmtSolver) (k : Z) :
  unsat_sound oracle theory ->
  fst (check_until oracle unroll k (new ts prop solver)) = TRUE ->
  exists i, 0 <= i <= k
    /\ (forall j, 0 <= j <= i -> base_answer oracle unroll ts prop j <> SAT)
    /\ forall m, ~ induction_counterexample unroll theory ts prop i m.
Proof.
  intros Hsound Htrue. unfold check_until in Htrue.
  destruct (check_until_loop_closed oracle unroll ts prop (Z.to_nat (k + 1)) 0
              ltac:(lia)) as [A _].
  change (engine_at_depth unroll ts prop 0) with (new ts prop solver) in A.
  rewrite A in Htrue. apply verdict_from_true in Htrue.
  destruct Htrue as (d & Hd & Hbase & Hind).
  exists d. split; [lia|]. split; [exact Hbase|].
  intros m (Hpt & Hpd & Hbad).
  apply (Hsound _ Hind m). intros f [<-|[<-|Hin]].
  - exact Hbad.
  - destruct (eval_simple_path_upto unroll theory ts prop m (Z.to_nat (d + 1)))
      as [b [Hb Hiff]].
    replace (Z.of_nat (Z.to_nat (d + 1)) - 1) with d in Hb, Hiff by lia.
    unfold holds. rewrite Hb. f_equal. now apply Hiff.
  - apply in_asserted in Hin. destruct Hin as [j [Hj [-> | ->]]];
      apply Hpt; lia.
Qed.

Lemma check_until_safe_induction_witness :
  exists i, 0 <= i <= 0
    /\ (forall j, 0 <= j <= i ->
          base_answer clash_solver (at_time hold_ts) hold_ts hold_prop j <> SAT)
    /\ forall m,
         ~ induction_counterexample (at_time hold_ts) no_theory
             hold_ts hold_prop i m.
Proof.
  apply (check_until_safe_induction no_theory clash_solver (at_time hold_ts)
           hold_ts hold_prop fresh_solver 0).
  - apply clash_solver_sound.
  - vm_compute. reflexivity.
Defined.

End KIndFacts.

(** ** The value-abstraction CEGAR driver *)

Module CegarValFacts.

Import Smt Core CegarVal SmtFacts CoreFacts.

(** *** Maps and names *)

Lemma map_get_set k' k v m :
  map_get k' (map_set k v m) = if Term_eq_dec k' k then Some v else map_get k' m.
Proof.
  induction m as [|[a b] m IH]; simpl.
  - destruct (Term_eq_dec k' k); reflexivity.
  - destruct (Term_eq_dec k a) as [->|Hka]; simpl.
    + destruct (Term_eq_dec k' a); reflexivity.
    + destruct (Term_eq_dec k' a) as [->|Hk'a].
      * destruct (Term_eq_dec a k); [congruence|reflexivity].
      * exact IH.
Qed.

Lemma in_map_set a b k v m :
  In (a, b) (map_set k v m) -> (a, b) = (k, v) \/ In (a, b) m.
Proof.
  induction m as [|[a' b'] m IH]; simpl.
  - intros [H|[]]. left. congruence.
  - destruct (Term_eq_dec k a') as [->|Hne]; simpl.
    + intros [H|H]; [left; congruence|auto].
    + intros [H|H]; [auto|]. destruct (IH H); auto.
Qed.

Lemma map_get_in k v m : map_get k m = Some v -> In (k, v) m.
Proof.
  induction m as [|[a b] m IH]; simpl; [discriminate|].
  destruct (Term_eq_dec k a) as [->|Hne].
  - intros [= ->]. now left.
  - intro H. right. now apply IH.
Qed.

Lemma Z_of_string_of_Z z : Z_of_string (string_of_Z z) = Some z.
Proof.
  unfold Z_of_string, string_of_Z.
  rewrite NilZero.isi.
  - simpl. now rewrite Stdlib.Numbers.DecimalZ.of_to.
  - destruct z; simpl; try discriminate.
    intro H. injection H as H. revert H. apply DecimalPos.Unsigned.to_uint_nonnil.
  - destruct z; simpl; try discriminate.
    intro H. injection H as H. revert H. apply DecimalPos.Unsigned.to_uint_nonnil.
Qed.

Lemma to_string_value_inj l l' s s' :
  to_string (Val l s) = to_string (Val l' s') -> l = l'.
Proof.
  destruct l as [[|]|z], l' as [[|]|z']; simpl; intro H;
    try reflexivity; try discriminate.
  - pose proof (Z_of_string_of_Z z') as E. rewrite <- H in E. discriminate.
  - pose proof (Z_of_string_of_Z z') as E. rewrite <- H in E. discriminate.
  - pose proof (Z_of_string_of_Z z) as E. rewrite H in E. discriminate.
  - pose proof (Z_of_string_of_Z z) as E. rewrite H in E. discriminate.
  - pose proof (Z_of_string_of_Z z) as E. rewrite H in E.
    rewrite Z_of_string_of_Z in E. congruence.
Qed.

(** Two values with the same frozen variable are the same value. *)
Lemma frozen_var_inj v v' :
  abstractable v = true -> abstractable v' = true ->
  frozen_var v = frozen_var v' -> v = v'.
Proof.
  unfold abstractable, frozen_var.
  destruct v as [| l s |], v' as [| l' s' |]; simpl; intros H1 H2 H;
    try discriminate.
  unfold abs_name in H. simpl in H. injection H as Hn Hs.
  assert (Hl : l = l') by (apply (to_string_value_inj l l' s s'); exact Hn).
  congruence.
Qed.

(** Induction on terms, with the children of an application at hand. *)
Lemma Term_nested_ind (P : Term -> Prop) :
  (forall x s, P (Sym x s)) ->
  (forall l s, P (Val l s)) ->
  (forall op cs, Forall P cs -> P (App op cs)) ->
  forall t, P t.
Proof.
  intros HS HV HA. fix IH 1. intros [x s | l s | op cs].
  - apply HS.
  - apply HV.
  - apply HA. induction cs as [|c cs IHcs]; constructor.
    + apply IH.
    + exact IHcs.
Qed.

Lemma extends_refl w : extends w w.
Proof.
  unfold extends. repeat split; auto.
  exists []. split; [now rewrite app_nil_r|constructor].
Qed.

Lemma extends_trans w1 w2 w3 : extends w1 w2 -> extends w2 w3 -> extends w1 w3.
Proof.
  intros (C1 & F1 & I1 & N1 & T1 & vs1 & S1 & A1)
         (C2 & F2 & I2 & N2 & T2 & vs2 & S2 & A2).
  unfold extends. repeat split; auto; try congruence.
  exists (vs1 ++ vs2). split.
  - now rewrite S2, S1, app_assoc.
  - apply Forall_app. auto.
Qed.

Lemma abstract_spec_not_abstractable_leaf t :
  abstractable t = false -> get_op t = None -> abstract_spec t = t.
Proof.
  destruct t as [x s | l s | op cs]; simpl; try reflexivity; try discriminate.
  unfold abstractable. simpl. destruct (is_array_sort s); [reflexivity|discriminate].
Qed.

(** *** The traversal computes the abstraction *)

(** Storing the abstraction of a term whose abstractable values are
    already recorded keeps the state good. *)
Lemma save_abstraction_ok t w :
  walker_ok w ->
  (forall v, In v (subterms t) -> abstractable v = true ->
     map_get (frozen_var v) (abstracted_values_ w) = Some v) ->
  let w' := save_in_cache t (abstract_spec t) w in
  walker_ok w' /\ cached w' t /\ extends w w'.
Proof.
  intros [Hc Hv He] Hsub w'. subst w'. split; [|split].
  - constructor; simpl.
    + intros t' u. rewrite map_get_set.
      destruct (Term_eq_dec t' t) as [->|Hne]; [congruence|apply Hc].
    + intros t' u. rewrite map_get_set.
      destruct (Term_eq_dec t' t) as [->|Hne]; [intros _; exact Hsub|apply Hv].
    + exact He.
  - unfold cached. simpl. rewrite map_get_set.
    destruct (Term_eq_dec t t); congruence.
  - unfold extends, cached. simpl. repeat split; auto.
    + intros t' Ht'. rewrite map_get_set.
      destruct (Term_eq_dec t' t) as [->|Hne]; auto.
    + exists []. split; [now rewrite app_nil_r|constructor].
Qed.

Lemma visit_term_not_abstractable t w :
  abstractable t = false ->
  (forall c, In c (children t) -> cached w c) ->
  visit_term t w = save_in_cache t (abstract_spec t) w.
Proof.
  intros Hab Hch. unfold visit_term. fold (abstractable t). rewrite Hab.
  destruct t as [x s | l s | op cs]; simpl.
  - reflexivity.
  - unfold abstractable in Hab. simpl in Hab.
    destruct (is_array_sort s); [reflexivity|discriminate].
  - destruct (is_nl_op op); simpl; [reflexivity|].
    unfold make_term. do 2 f_equal. apply map_ext_in.
    intros c Hc. unfold query_cache. simpl in Hch. now rewrite (Hch c Hc).
Qed.

(** One visit on the way up, the children being cached already. *)
Lemma visit_term_ok t w :
  walker_ok w ->
  (forall c, In c (children t) -> cached w c) ->
  walker_ok (visit_term t w) /\ cached (visit_term t w) t
  /\ extends w (visit_term t w).
Proof.
  intros Hok Hch. destruct (abstractable t) eqn:Hab.
  - (* a value to abstract *)
    destruct Hok as [Hc Hv He].
    assert (Hspec : abstract_spec t = frozen_var t).
    { destruct t as [x s | l s | op cs]; try discriminate.
      unfold abstractable in Hab. simpl in *.
      now destruct (is_array_sort s). }
    assert (Hsub : subterms t = [t])
      by (destruct t; try discriminate; reflexivity).
    unfold visit_term. fold (abstractable t). rewrite Hab.
    unfold make_statevar. fold (frozen_var t).
    split; [|split].
    + constructor; simpl.
      * intros t' u. rewrite map_get_set.
        destruct (Term_eq_dec t' t) as [->|Hne]; [congruence|apply Hc].
      * intros t' u Hget v Hin Hv'. rewrite map_get_set.
        destruct (Term_eq_dec (frozen_var v) (frozen_var t)) as [E|Hne].
        -- f_equal. symmetry. now apply frozen_var_inj.
        -- rewrite map_get_set in Hget.
           destruct (Term_eq_dec t' t) as [->|Hne'].
           ++ rewrite Hsub in Hin. destruct Hin as [<-|[]]. congruence.
           ++ eapply Hv; eauto.
      * intros k v Hin. apply in_map_set in Hin. destruct Hin as [E|Hin].
        -- injection E as -> ->. repeat split; auto.
           apply in_or_app. right. now left.
        -- destruct (He k v Hin) as (A & B & C). repeat split; auto.
           apply in_or_app. now left.
    + unfold cached. simpl. rewrite map_get_set.
      destruct (Term_eq_dec t t); congruence.
    + unfold extends, cached. simpl. repeat split; auto.
      * intros t' Ht'. rewrite map_get_set.
        destruct (Term_eq_dec t' t) as [->|Hne]; [congruence|auto].
      * exists [frozen_var t]. split; [reflexivity|].
        constructor; [|constructor]. exists t. auto.
  - (* anything else *)
    rewrite (visit_term_not_abstractable t w Hab Hch).
    apply save_abstraction_ok; [exact Hok|].
    intros v Hin Hv.
    destruct t as [x s | l s | op cs]; simpl in Hin.
    + destruct Hin as [<-|[]]. congruence.
    + destruct Hin as [<-|[]]. congruence.
    + destruct Hin as [<-|Hin]; [congruence|].
      apply in_flat_map in Hin. destruct Hin as [c [Hc Hvc]].
      destruct Hok as [_ Hval _]. eapply Hval; eauto.
      apply (Hch c Hc).
Qed.

Lemma walk_children_ok cs :
  Forall (fun c => forall w, walker_ok w ->
            walker_ok (walk c w) /\ cached (walk c w) c /\ extends w (walk c w)) cs ->
  forall w, walker_ok w ->
    walker_ok (fold_right walk w cs)
    /\ (forall c, In c cs -> cached (fold_right walk w cs) c)
    /\ extends w (fold_right walk w cs).
Proof.
  induction 1 as [|c cs Hc _ IH]; intros w Hok; simpl.
  - split; [exact Hok|]. split; [intros c []|apply extends_refl].
  - destruct (IH w Hok) as (Hok1 & Hcs & Hext1).
    destruct (Hc _ Hok1) as (Hok2 & Hcc & Hext2).
    split; [exact Hok2|]. split.
    + intros c' [<-|Hin]; [exact Hcc|].
      destruct Hext2 as [Hmono _]. apply Hmono. now apply Hcs.
    + eapply extends_trans; eauto.
Qed.

Ltac cache_hit Hok E :=
  split; [exact Hok|split; [|apply extends_refl]];
  unfold cached; rewrite E; f_equal; eapply ok_cache; eauto.

(** The traversal of a term leaves it cached with its abstraction. *)
Lemma walk_ok t : forall w,
  walker_ok w ->
  walker_ok (walk t w) /\ cached (walk t w) t /\ extends w (walk t w).
Proof.
  induction t as [x s | l s | op cs IH] using Term_nested_ind; intros w Hok.
  - simpl. unfold in_cache.
    destruct (map_get (Sym x s) (va_cache_ w)) as [u|] eqn:E.
    + cache_hit Hok E.
    + apply visit_term_ok; [exact Hok|intros c []].
  - simpl. unfold in_cache.
    destruct (map_get (Val l s) (va_cache_ w)) as [u|] eqn:E.
    + cache_hit Hok E.
    + apply visit_term_ok; [exact Hok|intros c []].
  - simpl. unfold in_cache.
    destruct (map_get (App op cs) (va_cache_ w)) as [u|] eqn:E.
    + cache_hit Hok E.
    + destruct (walk_children_ok cs IH w Hok) as (Hok1 & Hcs & Hext1).
      destruct (visit_term_ok (App op cs) _ Hok1 Hcs) as (Hok2 & Hc2 & Hext2).
      split; [exact Hok2|split; [exact Hc2|]]. eapply extends_trans; eauto.
Qed.

Lemma visit_ok t w :
  walker_ok w ->
  fst (visit t w) = abstract_spec t
  /\ walker_ok (snd (visit t w)) /\ cached (snd (visit t w)) t
  /\ extends w (snd (visit t w)).
Proof.
  intro Hok. destruct (walk_ok t w Hok) as (H1 & H2 & H3).
  unfold visit. simpl. split; [|auto].
  unfold query_cache. now rewrite H2.
Qed.

(** The recorded values all come from the terms traversed. *)
Lemma visit_term_entries t w k v :
  In (k, v) (abstracted_values_ (visit_term t w)) ->
  v = t \/ In (k, v) (abstracted_values_ w).
Proof.
  unfold visit_term.
  destruct (is_value t && negb (is_array_sort (get_sort t))); simpl.
  - intro H. apply in_map_set in H. destruct H as [E|H]; [left; congruence|auto].
  - destruct (get_op t) as [op|]; [destruct (negb (is_nl_op op))|]; simpl; auto.
Qed.

Lemma walk_entries_within (S : Term -> Prop) t : forall w,
  (forall k v, In (k, v) (abstracted_values_ w) -> S v) ->
  (forall x, In x (subterms t) -> S x) ->
  forall k v, In (k, v) (abstracted_values_ (walk t w)) -> S v.
Proof.
  induction t as [x s | l s | op cs IH] using Term_nested_ind;
    intros w Hw Hsub k v; simpl; destruct (in_cache _ w); try apply Hw;
    intro Hin; apply visit_term_entries in Hin;
    destruct Hin as [->|Hin]; try (apply Hsub; now left);
    try solve [eapply Hw; eauto].
  assert (Hfold : forall k v,
            In (k, v) (abstracted_values_ (fold_right walk w cs)) -> S v).
  { clear Hin k v.
    assert (Hcs : forall c x, In c cs -> In x (subterms c) -> S x).
    { intros c x Hc Hx. apply Hsub. simpl. right.
      apply in_flat_map. eauto. }
    clear Hsub. induction IH as [|c cs Hc _ IHcs]; simpl; [exact Hw|].
    intros k v. apply Hc.
    - apply IHcs. intros c' x Hc' Hx. eapply Hcs; [right|]; eauto.
    - intros x Hx. eapply Hcs; [left; reflexivity|exact Hx]. }
  eapply Hfold; eauto.
Qed.

(** *** The loop that freezes the variables *)

Lemma freeze_all_spec elems : forall ts vals,
  freeze_all elems ts vals =
    (mkTS (is_functional ts) (statevars ts) (inputvars ts) (init ts)
          (freeze_conj (map fst elems) (trans ts)),
     copy_vals elems vals).
Proof.
  unfold freeze_all, copy_vals, freeze_conj.
  induction elems as [|[k v] elems IH]; intros ts vals; simpl.
  - now destruct ts.
  - rewrite IH. reflexivity.
Qed.

Lemma conjuncts_freeze_conj vars : forall t,
  conjuncts (freeze_conj vars t)
  = conjuncts t ++ map (fun v => make_term Equal [next v; v]) vars.
Proof.
  unfold freeze_conj.
  induction vars as [|v vars IH]; intro t; simpl.
  - now rewrite app_nil_r.
  - rewrite IH. simpl. now rewrite <- app_assoc.
Qed.

Lemma copy_vals_keeps elems : forall vals k v,
  map_get k vals = Some v ->
  (forall v', In (k, v') elems -> v' = v) ->
  map_get k (copy_vals elems vals) = Some v.
Proof.
  unfold copy_vals.
  induction elems as [|[k' v'] elems IH]; intros vals k v Hget Hfun; simpl;
    [exact Hget|].
  apply IH.
  - rewrite map_get_set. destruct (Term_eq_dec k k') as [->|Hne]; [|exact Hget].
    f_equal. apply Hfun. now left.
  - intros v'' Hin. apply Hfun. now right.
Qed.

Lemma copy_vals_get elems : forall vals k v,
  In (k, v) elems ->
  (forall k v v', In (k, v) elems -> In (k, v') elems -> v = v') ->
  map_get k (copy_vals elems vals) = Some v.
Proof.
  induction elems as [|[k' v'] elems IH]; intros vals k v Hin Hfun;
    [destruct Hin|].
  change (copy_vals ((k', v') :: elems) vals)
    with (copy_vals elems (map_set k' v' vals)).
  destruct Hin as [E|Hin].
  - injection E as -> ->. apply copy_vals_keeps.
    + rewrite map_get_set. destruct (Term_eq_dec k k); congruence.
    + intros v'' Hin. eapply Hfun; [right; exact Hin|left; reflexivity].
  - apply IH; [exact Hin|].
    intros a b b' Hb Hb'. eapply Hfun; right; eauto.
Qed.

(** *** The abstraction step as a whole *)

Lemma cegar_abstract_relational st :
  is_functional (conc_ts_ st) = false ->
  exists ts4 vals4,
    cegar_abstract st = abstracted_state st ts4 vals4
    /\ is_functional ts4 = false
    /\ inputvars ts4 = inputvars (conc_ts_ st)
    /\ init ts4 = abstract_spec (init (conc_ts_ st))
    /\ trans ts4 = abstract_spec (trans (conc_ts_ st))
    /\ (exists vars, statevars ts4 = statevars (conc_ts_ st) ++ vars
                     /\ Forall is_frozen_var vars)
    /\ (forall v, In v (roots st) -> abstractable v = true ->
          map_get (frozen_var v) vals4 = Some v)
    /\ (forall k v, In (k, v) vals4 ->
          k = frozen_var v /\ abstractable v = true /\ In k (statevars ts4)
          /\ In v (roots st)).
Proof.
  intro Hrel.
  set (va0 := mkVA (conc_ts_ st) [] []).
  assert (Hok0 : walker_ok va0) by (constructor; simpl; [discriminate..|tauto]).
  destruct (visit_ok (init (conc_ts_ st)) va0 Hok0) as (Hi & Hok1 & Hc1 & Hx1).
  set (va1 := snd (visit (init (conc_ts_ st)) va0)) in *.
  destruct (visit_ok (trans (conc_ts_ st)) va1 Hok1) as (Ht & Hok2 & Hc2 & Hx2).
  set (va2 := snd (visit (trans (conc_ts_ st)) va1)) in *.
  set (va3 := mkVA (set_behavior (abstract_spec (init (conc_ts_ st)))
                      (abstract_spec (trans (conc_ts_ st))) (va_ts_ va2))
                   (va_cache_ va2) (abstracted_values_ va2)).
  assert (Hok3 : walker_ok va3) by (destruct Hok2; constructor; auto).
  destruct (visit_ok (orig_property_ st) va3 Hok3) as (Hp & Hok4 & Hc4 & Hx4).
  set (va4 := snd (visit (orig_property_ st) va3)) in *.
  exists (va_ts_ va4), (abstracted_values_ va4).
  destruct Hx1 as (M1 & F1 & I1 & N1 & T1 & vs1 & S1 & A1).
  destruct Hx2 as (M2 & F2 & I2 & N2 & T2 & vs2 & S2 & A2).
  destruct Hx4 as (M4 & F4 & I4 & N4 & T4 & vs4 & S4 & A4).
  assert (Hin4 : cached va4 (init (conc_ts_ st)))
    by (apply M4; apply (M2 _ Hc1)).
  assert (Htr4 : cached va4 (trans (conc_ts_ st))) by (apply M4; exact Hc2).
  split; [|split; [|split; [|split; [|split; [|split; [|split]]]]]].
  - unfold cegar_abstract, abstracted_state. rewrite Hrel.
    fold va0.
    rewrite (surjective_pairing (visit (init (conc_ts_ st)) va0)), Hi.
    fold va1.
    rewrite (surjective_pairing (visit (trans (conc_ts_ st)) va1)), Ht.
    fold va2. fold va3. unfold transfer_term.
    rewrite (surjective_pairing (visit (orig_property_ st) va3)), Hp.
    fold va4.
    destruct (List.length (abstracted_values_ va4) =? 0)%nat; [reflexivity|].
    rewrite freeze_all_spec. rewrite F4. simpl. rewrite F2, F1. simpl.
    now rewrite Hrel.
  - rewrite F4. simpl. now rewrite F2, F1.
  - rewrite I4. simpl. now rewrite I2, I1.
  - rewrite N4. reflexivity.
  - rewrite T4. reflexivity.
  - exists (vs1 ++ vs2 ++ vs4). split.
    + rewrite S4. simpl. rewrite S2, S1. simpl. now rewrite <- !app_assoc.
    + repeat (apply Forall_app; split); auto.
  - intros v Hv Hab. unfold roots in Hv.
    destruct Hok4 as [_ Hval _].
    apply in_app_or in Hv. destruct Hv as [Hv|Hv];
      [|apply in_app_or in Hv; destruct Hv as [Hv|Hv]].
    + eapply (Hval _ _ Hin4); eauto.
    + eapply (Hval _ _ Htr4); eauto.
    + eapply (Hval _ _ Hc4); eauto.
  - assert (Hroot : forall k v, In (k, v) (abstracted_values_ va4) ->
                      In v (roots st)).
    { unfold va4, va3, va2, va1, visit. simpl.
      apply walk_entries_within.
      - apply walk_entries_within.
        + apply walk_entries_within; [intros k v []|].
          intros x Hx. unfold roots. apply in_or_app. now left.
        + intros x Hx. unfold roots. apply in_or_app. right.
          apply in_or_app. now left.
      - intros x Hx. unfold roots. apply in_or_app. right.
        apply in_or_app. now right. }
    intros k v Hin. destruct (ok_entries _ Hok4 k v Hin) as (A & B & C).
    repeat split; eauto.
Qed.

Lemma no_values_no_entries (st : CegarValues) (vals4 : TermMap) :
  (forall k v, In (k, v) vals4 -> abstractable v = true /\ In v (roots st)) ->
  has_values st = false -> vals4 = [].
Proof.
  intros Hent Hno. destruct vals4 as [|[k v] rest]; [reflexivity|].
  destruct (Hent k v (or_introl eq_refl)) as [Hab Hin].
  unfold has_values in Hno.
  assert (existsb abstractable (roots st) = true)
    by (apply existsb_exists; eauto).
  congruence.
Qed.

(** *** The traversal makes each variable once *)

Lemma NoDup_snoc {A : Type} (l : list A) (a : A) :
  NoDup l -> ~ In a l -> NoDup (l ++ [a]).
Proof.
  induction 1 as [|x l Hx Hl IH]; simpl; intro Ha.
  - constructor; [intros []|constructor].
  - constructor.
    + rewrite in_app_iff. simpl. intros [H|[H|[]]]; [tauto|].
      apply Ha. now left.
    + apply IH. intro H. apply Ha. now right.
Qed.

Lemma map_set_fresh k v m :
  ~ In k (map fst m) -> map_set k v m = m ++ [(k, v)].
Proof.
  induction m as [|[k' v'] m IH]; simpl; intro H; [reflexivity|].
  destruct (Term_eq_dec k k') as [->|Hne]; [exfalso; apply H; now left|].
  f_equal. apply IH. tauto.
Qed.

Lemma copy_vals_nodup elems : forall vals,
  NoDup (map fst (vals ++ elems)) -> copy_vals elems vals = vals ++ elems.
Proof.
  induction elems as [|[k v] elems IH]; intros vals H.
  - simpl. now rewrite app_nil_r.
  - change (copy_vals ((k, v) :: elems) vals)
      with (copy_vals elems (map_set k v vals)).
    assert (Hk : ~ In k (map fst vals)).
    { rewrite map_app in H. simpl in H. apply NoDup_remove_2 in H.
      intro Hin. apply H. apply in_or_app. now left. }
    rewrite (map_set_fresh k v vals Hk). rewrite IH.
    + now rewrite <- app_assoc.
    + now rewrite <- app_assoc.
Qed.

Lemma visit_term_tidy base t w :
  tidy base w ->
  (abstractable t = true -> in_cache t w = false) ->
  (forall c, In c (children t) -> cached w c) ->
  tidy base (visit_term t w).
Proof.
  intros (Hok & Hc & Hs & Hn) Hfresh Hch.
  split; [now apply visit_term_ok|].
  destruct (abstractable t) eqn:Hab.
  - assert (Hk : ~ In (frozen_var t) (map fst (abstracted_values_ w))).
    { intro Hin. apply in_map_iff in Hin. destruct Hin as [[k v] [Ek Hin]].
      simpl in Ek. subst k.
      destruct (ok_entries _ Hok _ _ Hin) as (E & Hv & _).
      apply frozen_var_inj in E; auto. subst v.
      specialize (Hc _ _ Hin). rewrite Hfresh in Hc; auto. discriminate. }
    unfold visit_term. fold (abstractable t). rewrite Hab.
    unfold make_statevar. fold (frozen_var t). unfold in_cache. simpl.
    rewrite (map_set_fresh _ _ _ Hk). split; [|split].
    + intros k v Hin. rewrite map_get_set.
      destruct (Term_eq_dec v t); [reflexivity|].
      apply in_app_or in Hin. destruct Hin as [Hin|[E|[]]].
      * apply (Hc k v Hin).
      * injection E as _ E. congruence.
    + rewrite Hs, map_app. simpl. now rewrite <- app_assoc.
    + rewrite map_app. simpl. now apply NoDup_snoc.
  - rewrite (visit_term_not_abstractable t w Hab Hch). unfold in_cache. simpl.
    split; [|split; assumption].
    intros k v Hin. rewrite map_get_set.
    destruct (Term_eq_dec v t); [reflexivity|apply (Hc k v Hin)].
Qed.

Lemma walk_tidy base t : forall w, tidy base w -> tidy base (walk t w).
Proof.
  induction t as [x s | l s | op cs IH] using Term_nested_ind; intros w Ht;
    simpl; destruct (in_cache _ w) eqn:E; try exact Ht.
  - apply visit_term_tidy; [exact Ht|discriminate|intros c []].
  - apply visit_term_tidy; [exact Ht|intros _; exact E|intros c []].
  - assert (Hfold : tidy base (fold_right walk w cs)).
    { clear E. induction IH as [|c cs Hc _ IHcs]; simpl; auto. }
    apply visit_term_tidy; [exact Hfold|discriminate|].
    destruct Ht as (Hok & _).
    assert (Hall : Forall (fun c => forall w, walker_ok w ->
                     walker_ok (walk c w) /\ cached (walk c w) c
                     /\ extends w (walk c w)) cs)
      by (apply Forall_forall; intros c _; apply walk_ok).
    destruct (walk_children_ok cs Hall w Hok) as (_ & Hcs & _).
    exact Hcs.
Qed.

Lemma cegar_abstract_tidy st :
  is_functional (conc_ts_ st) = false ->
  exists va4,
    cegar_abstract st
      = abstracted_state st (va_ts_ va4) (abstracted_values_ va4)
    /\ tidy (statevars (conc_ts_ st)) va4
    /\ (forall v, In v (roots st) -> abstractable v = true ->
          map_get (frozen_var v) (abstracted_values_ va4) = Some v)
    /\ (forall k v, In (k, v) (abstracted_values_ va4) -> In v (roots st)).
Proof.
  intro Hrel.
  set (va0 := mkVA (conc_ts_ st) [] []).
  assert (Hok0 : walker_ok va0) by (constructor; simpl; [discriminate..|tauto]).
  assert (Ht0 : tidy (statevars (conc_ts_ st)) va0).
  { split; [exact Hok0|]. simpl. split; [intros k v []|].
    split; [now rewrite app_nil_r|constructor]. }
  destruct (visit_ok (init (conc_ts_ st)) va0 Hok0) as (Hi & Hok1 & Hc1 & Hx1).
  pose proof (walk_tidy _ (init (conc_ts_ st)) va0 Ht0) as Ht1.
  change (walk (init (conc_ts_ st)) va0)
    with (snd (visit (init (conc_ts_ st)) va0)) in Ht1.
  set (va1 := snd (visit (init (conc_ts_ st)) va0)) in *.
  destruct (visit_ok (trans (conc_ts_ st)) va1 Hok1) as (Ht & Hok2 & Hc2 & Hx2).
  pose proof (walk_tidy _ (trans (conc_ts_ st)) va1 Ht1) as Ht2.
  change (walk (trans (conc_ts_ st)) va1)
    with (snd (visit (trans (conc_ts_ st)) va1)) in Ht2.
  set (va2 := snd (visit (trans (conc_ts_ st)) va1)) in *.
  set (va3 := mkVA (set_behavior (abstract_spec (init (conc_ts_ st)))
                      (abstract_spec (trans (conc_ts_ st))) (va_ts_ va2))
                   (va_cache_ va2) (abstracted_values_ va2)).
  assert (Hok3 : walker_ok va3) by (destruct Hok2; constructor; auto).
  assert (Ht3 : tidy (statevars (conc_ts_ st)) va3).
  { destruct Ht2 as (_ & A & B & C). split; [exact Hok3|]. split; [exact A|].
    split; [exact B|exact C]. }
  destruct (visit_ok (orig_property_ st) va3 Hok3) as (Hp & Hok4 & Hc4 & Hx4).
  pose proof (walk_tidy _ (orig_property_ st) va3 Ht3) as Ht4.
  change (walk (orig_property_ st) va3)
    with (snd (visit (orig_property_ st) va3)) in Ht4.
  set (va4 := snd (visit (orig_property_ st) va3)) in *.
  exists va4.
  destruct Hx1 as (M1 & F1 & I1 & N1 & T1 & vs1 & S1 & A1).
  destruct Hx2 as (M2 & F2 & I2 & N2 & T2 & vs2 & S2 & A2).
  destruct Hx4 as (M4 & F4 & I4 & N4 & T4 & vs4 & S4 & A4).
  assert (Hin4 : cached va4 (init (conc_ts_ st)))
    by (apply M4; apply (M2 _ Hc1)).
  assert (Htr4 : cached va4 (trans (conc_ts_ st))) by (apply M4; exact Hc2).
  split; [|split; [exact Ht4|split]].
  - unfold cegar_abstract, abstracted_state. rewrite Hrel.
    fold va0.
    rewrite (surjective_pairing (visit (init (conc_ts_ st)) va0)), Hi.
    fold va1.
    rewrite (surjective_pairing (visit (trans (conc_ts_ st)) va1)), Ht.
    fold va2. fold va3. unfold transfer_term.
    rewrite (surjective_pairing (visit (orig_property_ st) va3)), Hp.
    fold va4.
    destruct (List.length (abstracted_values_ va4) =? 0)%nat; [reflexivity|].
    rewrite freeze_all_spec. rewrite F4. simpl. rewrite F2, F1. simpl.
    now rewrite Hrel.
  - intros v Hv Hab. unfold roots in Hv.
    destruct Hok4 as [_ Hval _].
    apply in_app_or in Hv. destruct Hv as [Hv|Hv];
      [|apply in_app_or in Hv; destruct Hv as [Hv|Hv]].
    + eapply (Hval _ _ Hin4); eauto.
    + eapply (Hval _ _ Htr4); eauto.
    + eapply (Hval _ _ Hc4); eauto.
  - unfold va4, va3, va2, va1, visit. simpl.
    apply walk_entries_within.
    + apply walk_entries_within.
      * apply walk_entries_within; [intros k v []|].
        intros x Hx. unfold roots. apply in_or_app. now left.
      * intros x Hx. unfold roots. apply in_or_app. right.
        apply in_or_app. now left.
    + intros x Hx. unfold roots. apply in_or_app. right.
      apply in_or_app. now right.
Qed.

(** A variable of the abstraction is none of the variables of a system
    that has no name of its form. *)
Lemma no_abs_names_frozen ts v :
  no_abs_names ts = true -> ~ In (frozen_var v) (statevars ts ++ inputvars ts).
Proof.
  intros H Hin. unfold no_abs_names in H. rewrite forallb_forall in H.
  specialize (H _ Hin). unfold frozen_var, abs_name in H. simpl in H.
  destruct (to_string v); discriminate.
Qed.

(** *** The claims about the abstraction *)

(** The abstraction of the counter: the constants 0, 1 and 7 become frozen
    variables; the product [x * 2] is kept, and a variable is made and
    frozen for the 2 below it all the same. *)
Example cegar_abstract_counter :
  let st' := snd (cegar_abstract (new counter_prop counter_ts)) in
  fst (cegar_abstract (new counter_prop counter_ts)) = Ok tt
  /\ init (prover_ts_ st') =
       make_term And [make_term Equal [int_var "x"; int_var "__abs_0"];
                      make_term Equal [int_var "y"; int_var "__abs_0"]]
  /\ bad_ st' = make_term Not [make_term Lt [int_var "y"; int_var "__abs_7"]]
  /\ existsb
       (Term_eqb
          (make_term Equal
             [next (int_var "y");
              make_term Plus [int_var "y"; make_term Mult [int_var "x"; int_val 2]]]))
       (subterms (trans (prover_ts_ st'))) = true
  /\ map fst (to_vals_ st') =
       [int_var "__abs_0"; int_var "__abs_2"; int_var "__abs_1"; int_var "__abs_7"]
  /\ frozen (prover_ts_ st') (int_var "__abs_2").
Proof.
  cbv zeta. repeat apply conj; try (vm_compute; reflexivity).
  vm_compute. repeat (first [left; reflexivity | right]).
Qed.

(** C7, as stated, fails.  On a functional system that holds value
    literals [cegar_abstract] throws before it traverses anything: no
    literal is replaced and nothing is recorded.  And the variable made for
    a value need not be fresh: on a system that has a state variable named
    [__abs_0], the variable recorded for the value 0 is that one. *)
Lemma cegar_abstract_functional_replaces_nothing :
  let st := new counter_prop functional_counter_ts in
  let st' := snd (cegar_abstract st) in
  let c' := snd (cegar_abstract (new clash_prop clash_ts)) in
  has_values st = true
  /\ fst (cegar_abstract st)
     = Raise (PonoException "Functional TS NYI in cegar_values")
  /\ init (prover_ts_ st') = init counter_ts
  /\ trans (prover_ts_ st') = trans counter_ts
  /\ statevars (prover_ts_ st') = statevars counter_ts
  /\ to_vals_ st' = []
  /\ fst (cegar_abstract (new clash_prop clash_ts)) = Ok tt
  /\ In (frozen_var (int_val 0)) (statevars clash_ts)
  /\ map_get (frozen_var (int_val 0)) (to_vals_ c') = Some (int_val 0).
Proof.
  cbv zeta. repeat apply conj; try (vm_compute; reflexivity).
  right. left. reflexivity.
Qed.

(** C7, amended.  On a functional system [cegar_abstract] throws and
    replaces nothing.  On a relational system it puts the abstraction of
    [init], [trans] and the property in place of them: every value literal
    of a sort other than an array becomes a frozen variable of its sort,
    the application of a non-linear operator is kept as the original term,
    every other application is rebuilt over its abstracted children (this
    is [abstract_spec]).  The variables made are added to the state
    variables, each once, and they are new when no variable of the system
    has a name of their form.  A variable is made for every such literal
    of the three terms, also for one below a non-linear operator; it is
    recorded with its value in [to_vals_] and frozen by [next(v) = v] in
    the relation.  The step returns normally exactly when there is a value
    to abstract. *)
Theorem cegar_abstract_abstracts_values (st : CegarValues) :
  let st' := snd (cegar_abstract st) in
  (is_functional (conc_ts_ st) = true ->
     fst (cegar_abstract st)
       = Raise (PonoException "Functional TS NYI in cegar_values")
     /\ prover_ts_ st' = conc_ts_ st
     /\ bad_ st' = bad_ st
     /\ to_vals_ st' = to_vals_ st)
  /\ (is_functional (conc_ts_ st) = false ->
      init (prover_ts_ st') = abstract_spec (init (conc_ts_ st))
      /\ (exists vars,
            trans (prover_ts_ st')
              = freeze_conj vars (abstract_spec (trans (conc_ts_ st)))
            /\ Forall is_frozen_var vars)
      /\ bad_ st' = make_term Not [abstract_spec (orig_property_ st)]
      /\ (exists vars,
            statevars (prover_ts_ st') = statevars (conc_ts_ st) ++ vars
            /\ Forall is_frozen_var vars
            /\ NoDup vars
            /\ (no_abs_names (conc_ts_ st) = true ->
                forall x, In x vars ->
                  ~ In x (statevars (conc_ts_ st) ++ inputvars (conc_ts_ st))))
      /\ (forall v, In v (roots st) -> abstractable v = true ->
            In (frozen_var v) (statevars (prover_ts_ st'))
            /\ get_sort (frozen_var v) = get_sort v
            /\ map_get (frozen_var v) (to_vals_ st') = Some v
            /\ frozen (prover_ts_ st') (frozen_var v))
      /\ (fst (cegar_abstract st) = Ok tt <-> has_values st = true)).
Proof.
  cbv zeta. split.
  - intro Hf. unfold cegar_abstract. cbv zeta. rewrite Hf. simpl. auto.
  - intro Hrel.
    assert (H4 : exists vars,
      statevars (prover_ts_ (snd (cegar_abstract st)))
        = statevars (conc_ts_ st) ++ vars
      /\ Forall is_frozen_var vars
      /\ NoDup vars
      /\ (no_abs_names (conc_ts_ st) = true ->
          forall x, In x vars ->
            ~ In x (statevars (conc_ts_ st) ++ inputvars (conc_ts_ st)))).
    { destruct (cegar_abstract_tidy st Hrel)
        as (va4 & Heq & (Hok & _ & Hsv & Hnd) & _ & _).
      exists (map fst (abstracted_values_ va4)). split; [|split; [|split]].
      - rewrite Heq. unfold abstracted_state.
        destruct (List.length _ =? 0)%nat; simpl; exact Hsv.
      - apply Forall_forall. intros k Hk. apply in_map_iff in Hk.
        destruct Hk as [[k' v] [<- Hin]]. simpl.
        destruct (ok_entries _ Hok k' v Hin) as (A & B & _). exists v. auto.
      - exact Hnd.
      - intros Hnames x Hx. apply in_map_iff in Hx.
        destruct Hx as [[k' v] [<- Hin]]. simpl.
        destruct (ok_entries _ Hok k' v Hin) as (-> & _).
        now apply no_abs_names_frozen. }
    destruct (cegar_abstract_relational st Hrel)
      as (ts4 & vals4 & Heq & F & I & N & T & _ & Hget & Hent).
    rewrite Heq in *. unfold abstracted_state in *.
    destruct (List.length vals4 =? 0)%nat eqn:Hlen; cbv zeta; simpl in *.
    + (* nothing was recorded *)
      apply Nat.eqb_eq in Hlen. apply length_zero_iff_nil in Hlen. subst vals4.
      assert (Hnone : forall v, In v (roots st) -> abstractable v = true -> False).
      { intros v Hv Hab. specialize (Hget v Hv Hab). discriminate. }
      split; [exact N|]. split; [exists []; split; [exact T|constructor]|].
      split; [reflexivity|]. split; [exact H4|]. split.
      * intros v Hv Hab. destruct (Hnone v Hv Hab).
      * split; [discriminate|]. intro Hhas. unfold has_values in Hhas.
        apply existsb_exists in Hhas.
        destruct Hhas as [v [Hv Hab]]. destruct (Hnone v Hv Hab).
    + (* the recorded variables are frozen *)
      split; [exact N|]. split.
      { exists (map fst vals4). split; [now rewrite T|].
        apply Forall_forall. intros k Hk. apply in_map_iff in Hk.
        destruct Hk as [[k' v] [<- Hin]]. simpl.
        destruct (Hent k' v Hin) as (A & B & _). exists v. auto. }
      split; [reflexivity|]. split; [exact H4|]. split.
      * intros v Hv Hab. pose proof (Hget v Hv Hab) as Hg.
        apply map_get_in in Hg. destruct (Hent _ _ Hg) as (_ & _ & Hst & _).
        split; [exact Hst|]. split; [reflexivity|]. split.
        -- apply copy_vals_get; [exact Hg|].
           intros k a b Ha Hb.
           destruct (Hent k a Ha) as (Ea & Aa & _).
           destruct (Hent k b Hb) as (Eb & Ab & _).
           apply frozen_var_inj; congruence.
        -- unfold frozen. simpl. rewrite conjuncts_freeze_conj.
           apply in_or_app. right.
           apply (in_map (fun v => make_term Equal [next v; v]) (map fst vals4)
                         (frozen_var v)).
           apply (in_map fst vals4 (frozen_var v, v) Hg).
      * split; [intros _|reflexivity].
        destruct vals4 as [|[k v] rest]; [discriminate|].
        destruct (Hent k v (or_introl eq_refl)) as (_ & Hab & _ & Hin).
        unfold has_values. apply existsb_exists. eauto.
Qed.

Lemma cegar_abstract_abstracts_values_witness :
  init (prover_ts_ (snd (cegar_abstract (new counter_prop counter_ts))))
    = abstract_spec (init counter_ts)
  /\ (fst (cegar_abstract (new counter_prop counter_ts)) = Ok tt <->
        has_values (new counter_prop counter_ts) = true).
Proof.
  pose proof (proj2 (cegar_abstract_abstracts_values (new counter_prop counter_ts))
                eq_refl) as H.
  destruct H as (H1 & _ & _ & _ & _ & H6).
  split; [exact H1|exact H6].
Defined.

(** C9, as stated, fails: on a functional system without a value literal
    the step throws the exception of the functional case; the assertion on
    the recorded values is never reached. *)
Lemma cegar_abstract_functional_throws_first :
  has_values (new flip_prop (flip_ts true)) = false
  /\ fst (cegar_abstract (new flip_prop (flip_ts true)))
     = Raise (PonoException "Functional TS NYI in cegar_values")
  /\ fst (cegar_abstract (new flip_prop (flip_ts true)))
     <> Raise (AssertionFailure assert_msg_values).
Proof. vm_compute. repeat split; auto; discriminate. Qed.

(** C9, amended: on a system whose [init], [trans] and property hold no
    value literal of a sort other than an array, [cegar_abstract] does not
    return: on a relational system the assertion that values were recorded
    fails, on a functional system the exception of the functional case is
    thrown before. *)
Theorem cegar_abstract_needs_values (st : CegarValues) :
  has_values st = false ->
  fst (cegar_abstract st) =
    if is_functional (conc_ts_ st)
    then Raise (PonoException "Functional TS NYI in cegar_values")
    else Raise (AssertionFailure assert_msg_values).
Proof.
  intro Hno. destruct (is_functional (conc_ts_ st)) eqn:Hf.
  - unfold cegar_abstract. now rewrite Hf.
  - destruct (cegar_abstract_relational st Hf)
      as (ts4 & vals4 & Heq & _ & _ & _ & _ & _ & _ & Hent).
    rewrite Heq. unfold abstracted_state.
    rewrite (no_values_no_entries st vals4); [reflexivity| |exact Hno].
    intros k v Hin. destruct (Hent k v Hin) as (_ & A & _ & B). auto.
Qed.

Lemma cegar_abstract_needs_values_witness :
  fst (cegar_abstract (new flip_prop (flip_ts false)))
    = Raise (AssertionFailure assert_msg_values).
Proof.
  apply (cegar_abstract_needs_values (new flip_prop (flip_ts false))).
  vm_compute. reflexivity.
Defined.

(** *** The refinement step *)

Lemma pop_assert_nonempty f s :
  contexts s <> [] ->
  pop (assert_formula f s) = pop s /\ contexts (assert_formula f s) <> [].
Proof.
  destruct s as [b [|c cs]]; simpl; [congruence|].
  intros _. split; [reflexivity|discriminate].
Qed.

(** The loop only adds to the innermost context, and it extends the two
    vectors in step. *)
Lemma label_loop_solver ts labels elems : forall s a e r s' a' e',
  contexts s <> [] -> List.length a = List.length e ->
  label_loop ts labels elems (s, a, e) = (r, (s', a', e')) ->
  pop s' = pop s /\ List.length a' = List.length e'.
Proof.
  induction elems as [|[k v] elems IH]; intros s a e r s' a' e' Hne Hlen; simpl.
  - intros [= _ <- <- <-]. auto.
  - destruct (negb (is_curr_var ts k)); [intros [= _ <- <- <-]; auto|].
    destruct (negb (is_value v)); [intros [= _ <- <- <-]; auto|].
    destruct (map_get k labels) as [lbl|]; [|intros [= _ <- <- <-]; auto].
    intro Hrun. apply IH in Hrun.
    + destruct Hrun as [Hpop Hl]. split; [|exact Hl].
      rewrite Hpop. now apply pop_assert_nonempty.
    + now apply pop_assert_nonempty.
    + rewrite !length_app. simpl. lia.
Qed.

Lemma label_loop_ready ts labels elems : forall acc,
  forallb
    (fun elem =>
       is_curr_var ts (fst elem) && is_value (snd elem)
       && match map_get (fst elem) labels with
          | Some _ => true
          | None => false
          end) elems = true ->
  fst (label_loop ts labels elems acc) = Ok tt.
Proof.
  induction elems as [|[k v] elems IH]; intros [[s a] e] Hall; simpl;
    [reflexivity|].
  simpl in Hall. apply andb_true_iff in Hall. destruct Hall as [Hkv Hall].
  apply andb_true_iff in Hkv. destruct Hkv as [Hkv Hlbl].
  apply andb_true_iff in Hkv. destruct Hkv as [Hcur Hval].
  rewrite Hcur, Hval. simpl.
  destruct (map_get k labels); [|discriminate]. now apply IH.
Qed.

(** In a ready state the loop asserts one labelled equality per abstracted
    variable and collects all the labels as assumptions. *)
Lemma label_loop_query ts labels elems : forall s a e,
  forallb
    (fun elem =>
       is_curr_var ts (fst elem) && is_value (snd elem)
       && match map_get (fst elem) labels with
          | Some _ => true
          | None => false
          end) elems = true ->
  label_loop ts labels elems (s, a, e) =
    (Ok tt,
     (fold_left (fun s' el => assert_formula (labelled_equality ts labels el) s')
                elems s,
      a ++ map (label_of labels) elems,
      e ++ map (fun el => make_term Equal [fst el; snd el]) elems)).
Proof.
  induction elems as [|[k v] elems IH]; intros s a e Hall; simpl.
  - now rewrite !app_nil_r.
  - simpl in Hall. apply andb_true_iff in Hall. destruct Hall as [Hkv Hall].
    apply andb_true_iff in Hkv. destruct Hkv as [Hkv Hlbl].
    apply andb_true_iff in Hkv. destruct Hkv as [Hcur Hval].
    rewrite Hcur, Hval. simpl.
    destruct (map_get k labels) as [lbl|] eqn:E; [|discriminate].
    rewrite IH by exact Hall.
    unfold labelled_equality, label_of. simpl. rewrite E.
    now rewrite <- !app_assoc.
Qed.

(** Assertions made in a pushed context pile up in that context. *)
Lemma fold_assert_pushed {A : Type} (g : A -> Term) (elems : list A) :
  forall b c cs,
    fold_left (fun s' el => assert_formula (g el) s') elems (mkSolver b (c :: cs))
    = mkSolver b ((rev (map g elems) ++ c) :: cs).
Proof.
  induction elems as [|el elems IH]; intros b c cs; simpl; [reflexivity|].
  unfold assert_formula at 2. cbn [contexts base].
  rewrite IH. now rewrite <- app_assoc.
Qed.

(** The solver at the query of the refinement: a context was pushed, it
    holds what was asserted since, and popping it gives the solver back. *)
Lemma query_solver {A : Type} (g : A -> Term) (elems : list A) (f : Term)
  (s : SmtSolver) :
  let s' :=
    fold_left (fun s' el => assert_formula (g el) s') elems
      (assert_formula f (push s)) in
  assertions s' = rev (map g elems) ++ f :: assertions s
  /\ context_level s' = S (context_level s)
  /\ pop s' = s.
Proof.
  destruct s as [b cs]. cbv zeta.
  change (assert_formula f (push (mkSolver b cs))) with (mkSolver b ([f] :: cs)).
  rewrite fold_assert_pushed.
  unfold assertions, context_level, pop. simpl.
  split; [|split; reflexivity].
  rewrite <- !app_assoc. reflexivity.
Qed.

Lemma set_cegval_solver_same st : set_cegval_solver (cegval_solver_ st) st = st.
Proof. now destruct st. Qed.

Section DriverFacts.

Variable inner_check_until : Z -> TransitionSystem -> Term -> ProverResult.

Variable inner_witness_length : Z -> TransitionSystem -> Term -> nat.

Variable check_sat_assuming_oracle : list Term -> list Term -> Result.

Local Abbreviation cegar_refine := (CegarVal.cegar_refine check_sat_assuming_oracle).

Local Abbreviation check_until_loop :=
  (CegarVal.check_until_loop inner_check_until inner_witness_length
     check_sat_assuming_oracle).

Local Abbreviation check_until :=
  (CegarVal.check_until inner_check_until inner_witness_length
     check_sat_assuming_oracle).

(** The refinement never returns, whatever the state and the answer. *)
Lemma cegar_refine_raises len st :
  exists e s q, cegar_refine len st = (Raise e, set_cegval_solver s st, q).
Proof.
  unfold CegarVal.cegar_refine.
  destruct (label_loop _ _ _ _) as [[u|e] [[s a] eqs]].
  - destruct (negb _); eauto.
  - eauto.
Qed.

(** In a ready state it asks one query, in a context of its own that
    holds the BMC formula and the labelled equalities, under all the
    labels; it ends in the exception of the missing implementation and
    leaves the state as it was. *)
Lemma cegar_refine_ready len st :
  refine_ready st = true ->
  let fs :=
    rev (map (labelled_equality (cegval_ts_ st) (cegval_labels_ st)) (to_vals_ st))
      ++ bmc_formula (cegval_ts_ st) (cegval_bad_ st) len
      :: assertions (cegval_solver_ st) in
  let labels := map (label_of (cegval_labels_ st)) (to_vals_ st) in
  cegar_refine len st =
    (Raise refine_nyi, st,
     [mkQuery fs (S (context_level (cegval_solver_ st))) labels
              (check_sat_assuming_oracle fs labels)]).
Proof.
  intro Hready. cbv zeta. unfold CegarVal.cegar_refine.
  rewrite (label_loop_query _ _ _ _ _ _ Hready).
  rewrite !app_nil_l, !length_map, Nat.eqb_refl. cbn [negb].
  destruct (query_solver
              (labelled_equality (cegval_ts_ st) (cegval_labels_ st))
              (to_vals_ st)
              (bmc_formula (cegval_ts_ st) (cegval_bad_ st) len)
              (cegval_solver_ st)) as (Ha & Hl & Hp).
  rewrite Ha, Hl, Hp, set_cegval_solver_same. reflexivity.
Qed.

(** One pass through the loop of [check_until] always decides. *)
Lemma check_until_loop_ready fuel k st :
  refine_ready st = true ->
  check_until_loop (S fuel) k st =
    match inner_check_until k (prover_ts_ st) (bad_ st) with
    | FALSE => Some (Raise refine_nyi, st)
    | res => Some (Ok res, st)
    end.
Proof.
  intro Hready. cbn [CegarVal.check_until_loop].
  destruct (inner_check_until k (prover_ts_ st) (bad_ st)); try reflexivity.
  now rewrite (cegar_refine_ready _ st Hready).
Qed.

End DriverFacts.

(** *** A freshly initialized driver is ready *)

Lemma in_copy_vals elems : forall vals k v,
  In (k, v) (copy_vals elems vals) -> In (k, v) elems \/ In (k, v) vals.
Proof.
  unfold copy_vals.
  induction elems as [|[k' v'] elems IH]; intros vals k v Hin; simpl in *; auto.
  apply IH in Hin. destruct Hin as [Hin|Hin]; auto.
  apply in_map_set in Hin. destruct Hin as [E|Hin]; auto.
Qed.

Lemma make_labels_has elems : forall ls k,
  In k (map fst elems) \/ map_get k ls <> None ->
  map_get k (make_labels elems ls) <> None.
Proof.
  unfold make_labels.
  induction elems as [|[k' v'] elems IH]; intros ls k H; simpl in *.
  - destruct H as [[]|H]; exact H.
  - apply IH. destruct H as [[->|H]|H]; auto; right; rewrite map_get_set;
      destruct (Term_eq_dec _ _); auto; discriminate.
Qed.

Lemma is_curr_var_in ts k : In k (statevars ts) -> is_curr_var ts k = true.
Proof.
  intro Hin. unfold is_curr_var. apply existsb_exists. exists k. split; auto.
  unfold Term_eqb. destruct (Term_eq_dec k k); congruence.
Qed.

Lemma initialize_new_ready prop ts st1 :
  initialize (new prop ts) = (Ok tt, st1) -> refine_ready st1 = true.
Proof.
  unfold initialize. simpl initialized_. cbv iota.
  destruct (is_functional ts) eqn:Hf.
  - unfold cegar_abstract. simpl conc_ts_. rewrite Hf. discriminate.
  - destruct (cegar_abstract_relational (new prop ts) Hf)
      as (ts4 & vals4 & Heq & _ & _ & _ & _ & _ & _ & Hent).
    rewrite Heq. unfold abstracted_state.
    destruct (List.length vals4 =? 0)%nat; [discriminate|].
    intros [= <-]. unfold refine_ready. simpl.
    apply forallb_forall. intros [k v] Hin. simpl.
    assert (Hin4 : In (k, v) vals4).
    { apply in_copy_vals in Hin. destruct Hin as [Hin|[]]. exact Hin. }
    destruct (Hent k v Hin4) as (_ & Hab & Hst & _).
    rewrite is_curr_var_in by exact Hst.
    unfold abstractable in Hab. apply andb_true_iff in Hab.
    destruct Hab as [Hval _]. rewrite Hval. simpl.
    pose proof (make_labels_has (copy_vals vals4 []) [] k) as Hl.
    destruct (map_get k (make_labels (copy_vals vals4 []) [])); [reflexivity|].
    exfalso. apply Hl; [|reflexivity]. left.
    apply (in_map fst _ (k, v) Hin).
Qed.

Lemma in_map_get k v m : In (k, v) m -> exists v', map_get k m = Some v'.
Proof.
  induction m as [|[k' v'] m IH]; simpl; [intros []|].
  intros [E|Hin]; destruct (Term_eq_dec k k'); eauto.
  injection E as -> ->. congruence.
Qed.

Lemma make_labels_copy elems : forall ls,
  make_labels elems ls =
    copy_vals (map (fun e => (fst e, Sym (label_name (snd e)) SBool)) elems) ls.
Proof.
  unfold make_labels, copy_vals.
  induction elems as [|e elems IH]; intro ls; simpl; [reflexivity|apply IH].
Qed.

Lemma initialize_new_labels prop ts st1 :
  initialize (new prop ts) = (Ok tt, st1) ->
  forall k v, In (k, v) (to_vals_ st1) ->
    map_get k (cegval_labels_ st1) = Some (Sym (label_name v) SBool).
Proof.
  unfold initialize. simpl initialized_. cbv iota.
  destruct (is_functional ts) eqn:Hf.
  - unfold cegar_abstract. simpl conc_ts_. rewrite Hf. discriminate.
  - destruct (cegar_abstract_relational (new prop ts) Hf)
      as (ts4 & vals4 & Heq & _ & _ & _ & _ & _ & _ & Hent).
    rewrite Heq. unfold abstracted_state.
    destruct (List.length vals4 =? 0)%nat; [discriminate|].
    intros [= <-]. simpl. intros k v Hin.
    assert (Hfun : forall k a b,
              In (k, a) (copy_vals vals4 []) -> In (k, b) (copy_vals vals4 []) ->
              a = b).
    { intros k0 a b Ha Hb.
      apply in_copy_vals in Ha. destruct Ha as [Ha|[]].
      apply in_copy_vals in Hb. destruct Hb as [Hb|[]].
      destruct (Hent k0 a Ha) as (Ea & Aa & _).
      destruct (Hent k0 b Hb) as (Eb & Ab & _).
      apply frozen_var_inj; congruence. }
    rewrite make_labels_copy. apply copy_vals_get.
    + apply in_map_iff. exists (k, v). split; [reflexivity|exact Hin].
    + intros k0 a b Ha Hb.
      apply in_map_iff in Ha. destruct Ha as [[ka va] [Ea Ha]].
      apply in_map_iff in Hb. destruct Hb as [[kb vb] [Eb Hb]].
      simpl in Ea, Eb. injection Ea as -> <-. injection Eb as -> <-.
      now rewrite (Hfun _ _ _ Ha Hb).
Qed.

(** *** The claim about the refinement loop *)

(** C1, as stated, fails: the wrapped prover reports UNSAFE on the
    abstracted counter.  When the labelled query is answered SAT,
    [check_until] does not return UNSAFE; when it is answered UNSAT, no
    lemma reaches either system and no second iteration is run.  Both runs
    end in the exception of the missing implementation. *)
Lemma cegar_refine_throws_on_sat_and_unsat :
  let st0 := new counter_prop counter_ts in
  let st1 := snd (initialize st0) in
  let run r fuel :=
    check_until always_unsafe (witness_of_length 2) (fun _ _ => r) fuel 5 st0 in
  fst (initialize st0) = Ok tt
  /\ run SAT 1%nat = Some (Raise refine_nyi, st1)
  /\ run UNSAT 1%nat = Some (Raise refine_nyi, st1)
  /\ run UNSAT 9%nat = Some (Raise refine_nyi, st1)
  /\ option_map fst (run SAT 9%nat) <> Some (Ok FALSE)
  /\ trans (conc_ts_ st1) = trans counter_ts.
Proof.
  cbv zeta. repeat apply conj; try (vm_compute; reflexivity).
  vm_compute. discriminate.
Qed.

(** C1, amended: on a driver as constructed, [check_until] first
    abstracts; if that succeeds and the wrapped prover reports UNSAFE,
    [cegar_refine] asks the solver one query: in a context pushed for it
    the solver holds the BMC formula of the witness length and, for every
    abstracted variable, the implication from its label to its value
    equality at step 0, and all the labels are assumed.  It then pops the
    context and throws the exception of the missing implementation
    whatever the answer was.  It adds no lemma and changes no system; the
    loop of [check_until] never runs a second iteration and never returns
    UNSAFE: it hands on the exception, or the verdict of the wrapped prover
    when that is not UNSAFE. *)
Theorem cegar_values_refinement_not_implemented
  (inner_check_until : Z -> TransitionSystem -> Term -> ProverResult)
  (inner_witness_length : Z -> TransitionSystem -> Term -> nat)
  (check_sat_assuming_oracle : list Term -> list Term -> Result)
  (prop : Term) (ts : TransitionSystem) (fuel : nat) (k : Z) :
  let run :=
    check_until inner_check_until inner_witness_length
      check_sat_assuming_oracle (S fuel) k (new prop ts) in
  match initialize (new prop ts) with
  | (Raise e, st1) => run = Some (Raise e, st1)
  | (Ok _, st1) =>
      (forall len,
         cegar_refine check_sat_assuming_oracle len st1 =
           (Raise refine_nyi, st1,
            [labelled_query check_sat_assuming_oracle len st1]))
      /\ run =
           match inner_check_until k (prover_ts_ st1) (bad_ st1) with
           | FALSE => Some (Raise refine_nyi, st1)
           | res => Some (Ok res, st1)
           end
  end.
Proof.
  cbv zeta. unfold check_until.
  destruct (initialize (new prop ts)) as [[[]|e] st1] eqn:Hinit; [|reflexivity].
  pose proof (initialize_new_ready prop ts st1 Hinit) as Hready.
  split.
  - intro len.
    pose proof (cegar_refine_ready check_sat_assuming_oracle len st1 Hready) as H.
    cbv zeta in H. rewrite H. unfold labelled_query.
    assert (Hl : forall el, In el (to_vals_ st1) ->
                   label_of (cegval_labels_ st1) el = value_label el).
    { intros [k' v] Hin. unfold label_of, value_label. simpl.
      now rewrite (initialize_new_labels prop ts st1 Hinit k' v Hin). }
    assert (Hle : forall el, In el (to_vals_ st1) ->
                    labelled_equality (cegval_ts_ st1) (cegval_labels_ st1) el
                    = labelled_value (cegval_ts_ st1) el).
    { intros el Hin. unfold labelled_equality, labelled_value.
      now rewrite (Hl el Hin). }
    rewrite (map_ext_in _ _ _ Hl), (map_ext_in _ _ _ Hle). reflexivity.
  - now apply check_until_loop_ready.
Qed.

(** *** The abstraction is exact under the recorded values *)

Lemma eval_abstract_spec theory m t :
  (forall v, In v (subterms t) -> abstractable v = true ->
     eval theory m (frozen_var v) = eval theory m v) ->
  eval theory m (abstract_spec t) = eval theory m t.
Proof.
  induction t as [x s | l s | op cs IH] using Term_nested_ind; intro Hv.
  - reflexivity.
  - simpl abstract_spec. destruct (is_array_sort s) eqn:E; [reflexivity|].
    apply (Hv (Val l s)); [now left|].
    unfold abstractable. simpl. now rewrite E.
  - simpl abstract_spec. destruct (is_nl_op op); [reflexivity|].
    simpl. f_equal. rewrite map_map. apply map_ext_in. intros c Hc.
    rewrite Forall_forall in IH. apply IH; [exact Hc|].
    intros v Hin Hab. apply Hv; [|exact Hab]. simpl. right.
    apply in_flat_map. eauto.
Qed.

(** X6: the abstraction loses nothing but the values.  In a model that
    gives every variable recorded in [to_vals_] the value recorded for it,
    the abstract initial predicate, the abstract bad-state predicate and
    the abstract relation (before the freezing equalities are appended)
    evaluate as the concrete ones do. *)
Theorem cegar_abstract_exact_under_values
  (theory : PrimOp -> list Value -> Value) (m : Model) (st : CegarValues) :
  is_functional (conc_ts_ st) = false ->
  reads_values theory m (to_vals_ (snd (cegar_abstract st))) = true ->
  let st' := snd (cegar_abstract st) in
  eval theory m (init (prover_ts_ st')) = eval theory m (init (conc_ts_ st))
  /\ eval theory m (bad_ st')
     = eval theory m (make_term Not [orig_property_ st])
  /\ exists rel vars,
       trans (prover_ts_ st') = freeze_conj vars rel
       /\ eval theory m rel = eval theory m (trans (conc_ts_ st)).
Proof.
  intro Hrel.
  destruct (cegar_abstract_relational st Hrel)
    as (ts4 & vals4 & Heq & _ & _ & N & T & _ & Hget & Hent).
  rewrite Heq. unfold abstracted_state. intro Hm.
  assert (Hv : forall v, In v (roots st) -> abstractable v = true ->
                 eval theory m (frozen_var v) = eval theory m v).
  { intros v Hin Hab. pose proof (Hget v Hin Hab) as Hg.
    destruct (List.length vals4 =? 0)%nat eqn:Hlen.
    - apply Nat.eqb_eq in Hlen. apply length_zero_iff_nil in Hlen.
      subst vals4. discriminate.
    - simpl in Hm. unfold reads_values in Hm.
      rewrite forallb_forall in Hm.
      apply Value_eqb_eq.
      apply (Hm (frozen_var v, v)).
      apply map_get_in. apply copy_vals_get; [now apply map_get_in|].
      intros k a b Ha Hb.
      destruct (Hent k a Ha) as (Ea & Aa & _).
      destruct (Hent k b Hb) as (Eb & Ab & _).
      apply frozen_var_inj; congruence. }
  assert (Hi : eval theory m (abstract_spec (init (conc_ts_ st)))
               = eval theory m (init (conc_ts_ st))).
  { apply eval_abstract_spec. intros v Hin. apply Hv.
    unfold roots. apply in_or_app. now left. }
  assert (Ht : eval theory m (abstract_spec (trans (conc_ts_ st)))
               = eval theory m (trans (conc_ts_ st))).
  { apply eval_abstract_spec. intros v Hin. apply Hv.
    unfold roots. apply in_or_app. right. apply in_or_app. now left. }
  assert (Hp : eval theory m (abstract_spec (orig_property_ st))
               = eval theory m (orig_property_ st)).
  { apply eval_abstract_spec. intros v Hin. apply Hv.
    unfold roots. apply in_or_app. right. apply in_or_app. now right. }
  assert (Hb : eval theory m (make_term Not [abstract_spec (orig_property_ st)])
               = eval theory m (make_term Not [orig_property_ st])).
  { unfold make_term. cbn [eval map]. now rewrite Hp. }
  cbv zeta.
  destruct (List.length vals4 =? 0)%nat; cbn [snd prover_ts_ bad_ init trans].
  - split; [now rewrite N|]. split; [exact Hb|].
    exists (abstract_spec (trans (conc_ts_ st))), []. split; [exact T|exact Ht].
  - split; [now rewrite N|]. split; [exact Hb|].
    exists (abstract_spec (trans (conc_ts_ st))), (map fst vals4).
    split; [now rewrite T|exact Ht].
Qed.

Lemma cegar_abstract_exact_under_values_witness :
  eval uninterpreted abs_model
    (init (prover_ts_ (snd (cegar_abstract (new counter_prop counter_ts)))))
  = eval uninterpreted abs_model (init counter_ts)
  /\ eval uninterpreted abs_model
       (bad_ (snd (cegar_abstract (new counter_prop counter_ts))))
     = eval uninterpreted abs_model (make_term Not [counter_prop]).
Proof.
  pose proof (cegar_abstract_exact_under_values uninterpreted abs_model
                (new counter_prop counter_ts) eq_refl) as H.
  assert (Hr : reads_values uninterpreted abs_model
                 (to_vals_ (snd (cegar_abstract (new counter_prop counter_ts))))
               = true) by (vm_compute; reflexivity).
  specialize (H Hr). cbv zeta in H. destruct H as (H1 & H2 & _).
  split; [exact H1|exact H2].
Defined.

(** *** The labels made by [initialize] *)

(** X7: after a successful [initialize] of a driver as constructed, the
    second system is the abstract system, [bad_] is the negation of the
    abstracted property (not of the original one), every variable of
    [to_vals_] has the boolean label named [__assump_] followed by its
    value, and there is no other label. *)
Theorem initialize_labels_every_value (prop : Term) (ts : TransitionSystem)
  (st1 : CegarValues) :
  initialize (new prop ts) = (Ok tt, st1) ->
  initialized_ st1 = true
  /\ cegval_ts_ st1 = prover_ts_ st1
  /\ bad_ st1 = make_term Not [abstract_spec prop]
  /\ (forall k v, map_get k (to_vals_ st1) = Some v ->
        map_get k (cegval_labels_ st1) = Some (Sym (label_name v) SBool))
  /\ (forall k lbl, map_get k (cegval_labels_ st1) = Some lbl ->
        exists v, map_get k (to_vals_ st1) = Some v).
Proof.
  unfold initialize. simpl initialized_. cbv iota.
  destruct (is_functional ts) eqn:Hf.
  - unfold cegar_abstract. simpl conc_ts_. rewrite Hf. discriminate.
  - destruct (cegar_abstract_relational (new prop ts) Hf)
      as (ts4 & vals4 & Heq & _ & _ & _ & _ & _ & _ & Hent).
    rewrite Heq. unfold abstracted_state.
    destruct (List.length vals4 =? 0)%nat; [discriminate|].
    intros [= <-]. simpl.
    assert (Hfun : forall k a b,
              In (k, a) (copy_vals vals4 []) -> In (k, b) (copy_vals vals4 []) ->
              a = b).
    { intros k a b Ha Hb.
      apply in_copy_vals in Ha. destruct Ha as [Ha|[]].
      apply in_copy_vals in Hb. destruct Hb as [Hb|[]].
      destruct (Hent k a Ha) as (Ea & Aa & _).
      destruct (Hent k b Hb) as (Eb & Ab & _).
      apply frozen_var_inj; congruence. }
    split; [reflexivity|]. split; [reflexivity|]. split; [reflexivity|].
    rewrite make_labels_copy. split.
    + intros k v Hg. apply map_get_in in Hg. apply copy_vals_get.
      * apply in_map_iff. exists (k, v). split; [reflexivity|exact Hg].
      * intros k0 a b Ha Hb.
        apply in_map_iff in Ha. destruct Ha as [[ka va] [Ea Ha]].
        apply in_map_iff in Hb. destruct Hb as [[kb vb] [Eb Hb]].
        simpl in Ea, Eb. injection Ea as -> <-. injection Eb as -> <-.
        now rewrite (Hfun _ _ _ Ha Hb).
    + intros k lbl Hg. apply map_get_in in Hg. apply in_copy_vals in Hg.
      destruct Hg as [Hg|[]].
      apply in_map_iff in Hg. destruct Hg as [[k' v] [E Hin]].
      simpl in E. injection E as -> _.
      now apply (in_map_get k v).
Qed.

Lemma initialize_labels_every_value_witness :
  bad_ (snd (initialize (new counter_prop counter_ts)))
  = make_term Not [abstract_spec counter_prop].
Proof.
  apply (initialize_labels_every_value counter_prop counter_ts
           (snd (initialize (new counter_prop counter_ts)))).
  vm_compute. reflexivity.
Defined.

(** *** Calling [initialize] again *)

Lemma cegar_abstract_failure_stable st e st1 :
  cegar_abstract st = (Raise e, st1) ->
  cegar_abstract st1 = (Raise e, st1) /\ initialized_ st1 = initialized_ st.
Proof.
  unfold cegar_abstract. cbv zeta.
  destruct (is_functional (conc_ts_ st)) eqn:F.
  - intros [= <- <-]. simpl. rewrite F. split; reflexivity.
  - destruct (visit (init (conc_ts_ st)) _) as [i1 va1] eqn:V1.
    destruct (visit (trans (conc_ts_ st)) va1) as [t1 va2] eqn:V2.
    destruct (visit (transfer_term (orig_property_ st)) _) as [p1 va4] eqn:V4.
    destruct (List.length (abstracted_values_ va4) =? 0)%nat eqn:L.
    + intros [= <- <-].
      cbn [conc_ts_ orig_property_ initialized_ to_vals_ cegval_solver_
           cegval_ts_ cegval_labels_ from_cegval_cache_].
      rewrite F, V1, V2, V4, L. split; reflexivity.
    + destruct (freeze_all _ _ _). discriminate.
Qed.

(** X8: [initialize] is idempotent.  After a success the flag makes the
    second call return at once; after a failure the flag is still unset,
    the abstraction starts again from the concrete system and fails in the
    same way, leaving the same state. *)
Theorem initialize_idempotent (st : CegarValues) :
  initialize (snd (initialize st)) = initialize st.
Proof.
  unfold initialize at 2 3.
  destruct (initialized_ st) eqn:Hi.
  - simpl. unfold initialize. now rewrite Hi.
  - destruct (cegar_abstract st) as [[[]|e] st1] eqn:Hab.
    + reflexivity.
    + simpl. destruct (cegar_abstract_failure_stable st e st1 Hab) as [H1 H2].
      unfold initialize. rewrite H2, Hi, H1. reflexivity.
Qed.

(** *** One variable for each value *)

(** X9: on a relational system, starting with nothing recorded,
    [cegar_abstract] makes exactly one state variable for each distinct
    value literal of a sort other than an array that occurs in [init],
    [trans] or the property: the state variables of the abstract system are
    the concrete ones followed by these variables, none of them made twice,
    and [to_vals_] pairs each with its value. *)
Theorem cegar_abstract_one_variable_per_value (st : CegarValues) :
  is_functional (conc_ts_ st) = false ->
  to_vals_ st = [] ->
  let st' := snd (cegar_abstract st) in
  exists values,
    NoDup values
    /\ (forall v, In v values <-> In v (roots st) /\ abstractable v = true)
    /\ statevars (prover_ts_ st')
       = statevars (conc_ts_ st) ++ map frozen_var values
    /\ NoDup (map frozen_var values)
    /\ to_vals_ st' = map (fun v => (frozen_var v, v)) values.
Proof.
  intros Hrel Hempty.
  destruct (cegar_abstract_tidy st Hrel)
    as (va4 & Heq & (Hok & _ & Hsv & Hnd) & Hget & Hroot).
  set (ts4 := va_ts_ va4) in *. set (vals4 := abstracted_values_ va4) in *.
  assert (Hpairs : vals4 = map (fun v => (frozen_var v, v)) (map snd vals4)).
  { rewrite map_map. rewrite <- (map_id vals4) at 1.
    apply map_ext_in. intros [k v] Hin. simpl.
    destruct (ok_entries _ Hok k v Hin) as (-> & _). reflexivity. }
  assert (Hkeys : map fst vals4 = map frozen_var (map snd vals4)).
  { rewrite Hpairs at 1. rewrite map_map. reflexivity. }
  cbv zeta. exists (map snd vals4).
  split; [|split; [|split; [|split]]].
  - rewrite Hkeys in Hnd. now apply NoDup_map_inv in Hnd.
  - intro v. split.
    + intro Hin. apply in_map_iff in Hin. destruct Hin as [[k v'] [E Hin]].
      simpl in E. subst v'. split; [now apply (Hroot k)|].
      now destruct (ok_entries _ Hok k v Hin) as (_ & Hab & _).
    + intros [Hin Hab]. pose proof (Hget v Hin Hab) as Hg.
      apply map_get_in in Hg. now apply (in_map snd) in Hg.
  - rewrite Heq. unfold abstracted_state.
    destruct (List.length vals4 =? 0)%nat; simpl; now rewrite Hsv, Hkeys.
  - now rewrite <- Hkeys.
  - rewrite Heq. unfold abstracted_state.
    destruct (List.length vals4 =? 0)%nat eqn:Hlen; simpl.
    + apply Nat.eqb_eq in Hlen. apply length_zero_iff_nil in Hlen.
      rewrite Hlen. exact Hempty.
    + rewrite Hempty. rewrite (copy_vals_nodup vals4 []); [exact Hpairs|exact Hnd].
Qed.

Lemma cegar_abstract_one_variable_per_value_witness :
  exists values,
    NoDup values
    /\ (forall v, In v values <->
          In v (roots (new counter_prop counter_ts)) /\ abstractable v = true)
    /\ statevars (prover_ts_ (snd (cegar_abstract (new counter_prop counter_ts))))
       = statevars counter_ts ++ map frozen_var values
    /\ NoDup (map frozen_var values)
    /\ to_vals_ (snd (cegar_abstract (new counter_prop counter_ts)))
       = map (fun v => (frozen_var v, v)) values.
Proof.
  apply (cegar_abstract_one_variable_per_value (new counter_prop counter_ts));
    reflexivity.
Defined.

End CegarValFacts.

(** ** The syntax-guided IC3 engine *)

Module IC3SAFacts.

Import Smt Core SmtFacts IC3SA.

Lemma check_vars_throws vars :
  check_vars vars = Throws unsupported_msg <->
  exists v, In v vars
    /\ get_sort_kind (get_sort v) <> BOOL /\ get_sort_kind (get_sort v) <> BV.
Proof.
  induction vars as [|v vars IH]; simpl.
  - split; [discriminate|intros [v [[] _]]].
  - destruct (SortKind_eq_dec (get_sort_kind (get_sort v)) BOOL) as [Hb|Hb];
      destruct (SortKind_eq_dec (get_sort_kind (get_sort v)) BV) as [Hv|Hv];
      simpl.
    all: try (rewrite IH; split;
              [intros [u [Hin Hu]]; exists u; auto
              |intros [u [[<-|Hin] [H1 H2]]]; [congruence|exists u; auto]]).
    split; [intros _; exists v; auto|reflexivity].
Qed.

Lemma check_vars_cases vars :
  check_vars vars = Returns tt \/ check_vars vars = Throws unsupported_msg.
Proof.
  induction vars as [|v vars IH]; simpl; auto.
  destruct (negb _ && negb _); auto.
Qed.

Lemma class_loop_never_returns it : forall pos last cube r,
  it <> [] -> returns (class_loop it pos last cube r) = false.
Proof.
  induction it as [|x it IH]; intros pos last cube r Hne; [congruence|].
  simpl. destruct it as [|term it']; [reflexivity|].
  destruct (Sort_eq_dec _ _); [|reflexivity].
  apply IH. discriminate.
Qed.

Lemma class_loop_same_sort it : forall pos last cube r,
  it <> [] -> Forall (fun t => get_sort t = get_sort last) it ->
  class_loop it pos last cube r = InvalidDeref (pos + List.length it).
Proof.
  induction it as [|x it IH]; intros pos last cube r Hne Hall; [congruence|].
  simpl. inversion Hall as [|? ? Hx Hit]; subst.
  destruct it as [|term it']; [f_equal; simpl; lia|].
  inversion Hit as [|? ? Hterm Hit']; subst.
  destruct (Sort_eq_dec (get_sort last) (get_sort term)) as [E|E];
    [|congruence].
  rewrite IH.
  - f_equal. simpl. lia.
  - discriminate.
  - constructor; [reflexivity|].
    eapply Forall_impl; [|exact Hit']. simpl. intros a Ha. congruence.
Qed.

Lemma classes_loop_keeps_representatives classes : forall cube reps,
  match classes_loop classes cube reps with
  | Returns (_, reps') => reps' = reps
  | _ => True
  end.
Proof.
  induction classes as [|elem classes IH]; intros cube reps; simpl;
    [reflexivity|].
  destruct (class_body elem cube) as [[cube' r]| | |]; auto. apply IH.
Qed.

Lemma classes_loop_okay classes : forall cube reps,
  returns (classes_loop classes cube reps) = true -> classes = [].
Proof.
  destruct classes as [|[val terms] classes]; intros cube reps; simpl;
    [reflexivity|].
  destruct (negb (is_value val)); [discriminate|].
  destruct terms as [|last terms]; [discriminate|].
  pose proof (class_loop_never_returns (last :: terms) 0 last cube
                (mkRepr val false true) ltac:(discriminate)) as Hno.
  destruct (class_loop _ _ _ _ _) as [[c r]| | |]; simpl in *; discriminate.
Qed.

Lemma class_body_never_returns val terms cube :
  returns (class_body (val, terms) cube) = false.
Proof.
  simpl. destruct (negb (is_value val)); [reflexivity|].
  destruct terms as [|last terms]; [reflexivity|].
  apply class_loop_never_returns. discriminate.
Qed.

Lemma construct_partition_returns ec : forall cube,
  construct_partition ec cube = Returns cube
  \/ returns (construct_partition ec cube) = false.
Proof.
  induction ec as [|[sort classes] ec IH]; intro cube; simpl; [now left|].
  destruct (classes_loop classes cube []) as [[cube1 reps]| | |] eqn:Hloop;
    try (now right).
  assert (Hnil : classes = [])
    by (apply (classes_loop_okay classes cube []); now rewrite Hloop).
  subst classes. simpl in Hloop. injection Hloop as <- <-. simpl. apply IH.
Qed.

(** *** The claims about the engine *)

(** C8: [check_ts] throws the exception of the unsupported theory exactly
    when some state variable or input variable has a sort that is neither
    BOOL nor BV; it returns normally exactly when all of them have such a
    sort; either way the engine is left as it was. *)
Theorem check_ts_throws_iff_unsupported (e : Engine) :
  snd (check_ts e) = e
  /\ (fst (check_ts e) = Throws unsupported_msg <->
        exists v, In v (statevars (ts_ e) ++ inputvars (ts_ e))
          /\ get_sort_kind (get_sort v) <> BOOL
          /\ get_sort_kind (get_sort v) <> BV)
  /\ (fst (check_ts e) = Returns tt <->
        forall v, In v (statevars (ts_ e) ++ inputvars (ts_ e)) ->
          get_sort_kind (get_sort v) = BOOL \/ get_sort_kind (get_sort v) = BV).
Proof.
  assert (Hthrow : fst (check_ts e) = Throws unsupported_msg <->
            exists v, In v (statevars (ts_ e) ++ inputvars (ts_ e))
              /\ get_sort_kind (get_sort v) <> BOOL
              /\ get_sort_kind (get_sort v) <> BV).
  { simpl. split.
    - intro H.
      destruct (check_vars_cases (statevars (ts_ e))) as [Hs|Hs]; rewrite Hs in H.
      + apply check_vars_throws in H. destruct H as [v [Hin Hv]].
        exists v. split; [apply in_or_app; now right|exact Hv].
      + apply check_vars_throws in Hs. destruct Hs as [v [Hin Hv]].
        exists v. split; [apply in_or_app; now left|exact Hv].
    - intros [v [Hin Hv]]. apply in_app_or in Hin. destruct Hin as [Hin|Hin].
      + assert (Hs : check_vars (statevars (ts_ e)) = Throws unsupported_msg)
          by (apply check_vars_throws; eauto).
        now rewrite Hs.
      + assert (Hi : check_vars (inputvars (ts_ e)) = Throws unsupported_msg)
          by (apply check_vars_throws; eauto).
        destruct (check_vars_cases (statevars (ts_ e))) as [Hs|Hs]; rewrite Hs;
          auto. }
  assert (Hcases : fst (check_ts e) = Returns tt
                   \/ fst (check_ts e) = Throws unsupported_msg).
  { simpl. destruct (check_vars_cases (statevars (ts_ e))) as [Hs|Hs]; rewrite Hs;
      [apply check_vars_cases|now right]. }
  split; [reflexivity|]. split; [exact Hthrow|]. split.
  - intros Hret v Hin.
    destruct (SortKind_eq_dec (get_sort_kind (get_sort v)) BOOL) as [Hb|Hb];
      [now left|].
    destruct (SortKind_eq_dec (get_sort_kind (get_sort v)) BV) as [Hv|Hv];
      [now right|].
    assert (Ht : fst (check_ts e) = Throws unsupported_msg)
      by (apply Hthrow; eauto).
    congruence.
  - intro Hall. destruct Hcases as [Hr|Ht]; [exact Hr|].
    apply Hthrow in Ht. destruct Ht as [v [Hin [Hb Hv]]].
    destruct (Hall v Hin); contradiction.
Qed.

(** C6 does not hold of the code.  The representative chosen for a class
    is never stored, so the vector of representatives stays as it was,
    empty, and the loops over its pairs add nothing: whenever
    [construct_partition] returns, the cube is the one it was given.  On
    two classes of one sort, where the claim has the disequality of the
    two representatives appended, the call does not even return. *)
Theorem construct_partition_adds_no_disequality :
  (forall classes cube reps,
     match classes_loop classes cube reps with
     | Returns (_, reps') => reps' = reps
     | _ => True
     end)
  /\ (forall ec cube,
        construct_partition ec cube = Returns cube
        \/ returns (construct_partition ec cube) = false)
  /\ construct_partition two_singletons [] = InvalidDeref 1
  /\ construct_partition no_class [] = Returns [].
Proof.
  split; [exact classes_loop_keeps_representatives|].
  split; [intros ec cube; apply construct_partition_returns|].
  split; reflexivity.
Qed.

(** C10 does not hold of the code.  In a class whose terms have one sort,
    the traversal increments the iterator before it dereferences it, so the
    last dereference is at the position of [end], one past the last
    element; for a singleton class that is the first round. *)
Theorem class_traversal_dereferences_end (val last : Term) (rest : list Term)
  (cube : TermVec) :
  is_value val = true ->
  Forall (fun t => get_sort t = get_sort last) rest ->
  class_body (val, last :: rest) cube
    = InvalidDeref (List.length (last :: rest)).
Proof.
  intros Hval Hsort. unfold class_body. cbv beta iota. rewrite Hval.
  cbv beta iota delta [negb].
  rewrite class_loop_same_sort.
  - reflexivity.
  - discriminate.
  - constructor; [reflexivity|exact Hsort].
Qed.

Lemma class_traversal_dereferences_end_witness :
  class_body (bv_val 1, [bv_var "x"]) [] = InvalidDeref 1.
Proof.
  apply (class_traversal_dereferences_end (bv_val 1) (bv_var "x") [] []).
  - reflexivity.
  - constructor.
Defined.

(** A class of two: the second element is read in the first round, the
    position of [end] in the second. *)
Example class_traversal_of_a_pair :
  construct_partition one_pair [] = InvalidDeref 2.
Proof. reflexivity. Qed.

(** *** Sets and classes *)

Lemma in_set_insert x t s : In x (set_insert t s) <-> x = t \/ In x s.
Proof.
  unfold set_insert. destruct (existsb (Term_eqb t) s) eqn:E.
  - apply existsb_Term_eqb in E. split; [auto|]. intros [->|H]; auto.
  - rewrite in_app_iff. simpl. intuition.
Qed.

Lemma set_insert_nonempty t s : set_insert t s <> [].
Proof.
  unfold set_insert. destruct (existsb (Term_eqb t) s) eqn:E.
  - apply existsb_Term_eqb in E. destruct s; [destruct E|discriminate].
  - destruct s; discriminate.
Qed.

Lemma NoDup_set_insert t s : NoDup s -> NoDup (set_insert t s).
Proof.
  intro Hs. unfold set_insert. destruct (existsb (Term_eqb t) s) eqn:E; auto.
  assert (Hn : ~ In t s).
  { intro Hin. apply existsb_Term_eqb in Hin. congruence. }
  clear E. induction Hs as [|x l Hx Hl IH]; simpl.
  - constructor; [intros []|constructor].
  - constructor.
    + rewrite in_app_iff. simpl. intros [H|[H|[]]]; [tauto|].
      apply Hn. now left.
    + apply IH. intro H. apply Hn. now right.
Qed.

Lemma class_insert_key_in val t m k :
  In k (map fst (class_insert val t m)) -> k = val \/ In k (map fst m).
Proof.
  induction m as [|[v ts] m IH]; simpl.
  - intros [<-|[]]. now left.
  - destruct (Term_eq_dec val v) as [->|Hne]; simpl.
    + intros [<-|H]; auto.
    + intros [<-|H]; auto. destruct (IH H); auto.
Qed.

Lemma class_insert_keys val t m :
  NoDup (map fst m) -> NoDup (map fst (class_insert val t m)).
Proof.
  induction m as [|[v ts] m IH]; simpl; intro Hnd.
  - constructor; [intros []|constructor].
  - inversion Hnd as [|? ? Hv Hm]; subst.
    destruct (Term_eq_dec val v) as [->|Hne]; simpl.
    + constructor; assumption.
    + constructor; [|now apply IH].
      intro H. apply class_insert_key_in in H.
      destruct H as [E|E]; [congruence|tauto].
Qed.

Lemma class_insert_in val t m v ts :
  In (v, ts) (class_insert val t m) ->
  In (v, ts) m
  \/ (v = val /\ (ts = [t]
                  \/ exists ts0, In (val, ts0) m /\ ts = set_insert t ts0)).
Proof.
  induction m as [|[v' ts'] m IH]; simpl.
  - intros [E|[]]. injection E as <- <-. right. auto.
  - destruct (Term_eq_dec val v') as [->|Hne]; simpl.
    + intros [E|H]; [|auto]. injection E as <- <-. right. split; [reflexivity|].
      right. exists ts'. auto.
    + intros [E|H]; [auto|]. destruct (IH H) as [H'|[-> [->|[ts0 [H0 ->]]]]].
      * auto.
      * right. auto.
      * right. split; [reflexivity|]. right. exists ts0. auto.
Qed.

Lemma class_insert_mono val t m v ts :
  In (v, ts) m ->
  exists ts', In (v, ts') (class_insert val t m) /\ incl ts ts'.
Proof.
  induction m as [|[v' ts'] m IH]; simpl; [intros []|].
  destruct (Term_eq_dec val v') as [->|Hne]; simpl.
  - intros [E|H].
    + injection E as <- <-. exists (set_insert t ts'). split; [now left|].
      intros x Hx. apply in_set_insert. now right.
    + exists ts. split; [now right|apply incl_refl].
  - intros [E|H].
    + exists ts. split; [now left|apply incl_refl].
    + destruct (IH H) as [ts'' [H1 H2]]. exists ts''. split; [now right|exact H2].
Qed.

Lemma class_insert_has val t m :
  exists ts, In (val, ts) (class_insert val t m) /\ In t ts.
Proof.
  induction m as [|[v' ts'] m IH]; simpl.
  - exists [t]. split; now left.
  - destruct (Term_eq_dec val v') as [->|Hne]; simpl.
    + exists (set_insert t ts'). split; [now left|].
      apply in_set_insert. now left.
    + destruct IH as [ts [H1 H2]]. exists ts. split; [now right|exact H2].
Qed.

Lemma ec_set_fresh sort m ec :
  ~ In sort (map fst ec) -> ec_set sort m ec = ec ++ [(sort, m)].
Proof.
  induction ec as [|[s m'] ec IH]; simpl; intro H; [reflexivity|].
  destruct (Sort_eq_dec sort s) as [->|Hne]; [exfalso; apply H; now left|].
  f_equal. apply IH. tauto.
Qed.

Lemma filter_nil_iff {A : Type} (f : A -> bool) (l : list A) :
  filter f l = [] <-> forall x, In x l -> f x = false.
Proof.
  induction l as [|a l IH]; simpl.
  - split; [intros _ x []|reflexivity].
  - destruct (f a) eqn:E.
    + split; [discriminate|]. intro H. rewrite (H a (or_introl eq_refl)) in E.
      discriminate.
    + rewrite IH. split.
      * intros H x [<-|Hx]; auto.
      * intros H x Hx. apply H. now right.
Qed.

(** *** The partition without classes *)

Lemma construct_partition_all_empty ec : forall cube,
  (forall s cl, In (s, cl) ec -> cl = []) ->
  construct_partition ec cube = Returns cube.
Proof.
  induction ec as [|[s cl] ec IH]; intros cube H; simpl; [reflexivity|].
  rewrite (H s cl (or_introl eq_refl)). simpl.
  apply IH. intros s' cl' Hin. apply (H s' cl'). now right.
Qed.

Lemma construct_partition_some_class ec : forall cube,
  (exists s cl, In (s, cl) ec /\ cl <> []) ->
  returns (construct_partition ec cube) = false.
Proof.
  induction ec as [|[s cl] ec IH]; intros cube (s' & cl' & Hin & Hne).
  - destruct Hin.
  - simpl. destruct cl as [|c cl].
    + simpl. apply IH. destruct Hin as [E|Hin]; [congruence|].
      exists s', cl'. auto.
    + pose proof (classes_loop_okay (c :: cl) cube []) as Hok.
      destruct (classes_loop (c :: cl) cube []) as [[c1 reps]| | |];
        try reflexivity.
      specialize (Hok eq_refl). discriminate.
Qed.

(** *** The classes read off a model *)

Section ModelCubesFacts.

Variable get_value : Term -> Term.

Variable in_projection : Term -> list Term -> bool.

Local Abbreviation classes_of := (IC3SA.classes_of get_value in_projection).

Local Abbreviation partitions := (IC3SA.partitions get_value in_projection).

Local Abbreviation get_equivalence_classes_from_model :=
  (IC3SA.get_equivalence_classes_from_model get_value in_projection).

Local Abbreviation kept_terms := (IC3SA.kept_terms in_projection).

Lemma partitions_step to_keep seen m t :
  partitions to_keep seen m ->
  partitions to_keep (seen ++ [t])
    (if in_projection t to_keep then class_insert (get_value t) t m else m).
Proof.
  intros (Hk & Hc & Hs).
  destruct (in_projection t to_keep) eqn:Hp.
  - split; [now apply class_insert_keys|]. split.
    + intros val ts Hin. apply class_insert_in in Hin.
      destruct Hin as [Hin|[-> [->|[ts0 [Hin ->]]]]].
      * destruct (Hc val ts Hin) as (A & B & C). split; [exact A|].
        split; [exact B|]. intros x Hx. destruct (C x Hx) as (C1 & C2 & C3).
        split; [apply in_or_app; now left|auto].
      * split; [discriminate|]. split.
        -- constructor; [intros []|constructor].
        -- intros x [<-|[]]. split; [apply in_or_app; right; now left|auto].
      * destruct (Hc _ ts0 Hin) as (A & B & C).
        split; [apply set_insert_nonempty|].
        split; [now apply NoDup_set_insert|].
        intros x Hx. apply in_set_insert in Hx. destruct Hx as [->|Hx].
        -- split; [apply in_or_app; right; now left|auto].
        -- destruct (C x Hx) as (C1 & C2 & C3).
           split; [apply in_or_app; now left|auto].
    + intros x Hx Hpx. apply in_app_or in Hx. destruct Hx as [Hx|[<-|[]]].
      * destruct (Hs x Hx Hpx) as [ts [H1 H2]].
        destruct (class_insert_mono (get_value t) t m _ ts H1) as [ts' [H3 H4]].
        exists ts'. split; [exact H3|now apply H4].
      * apply class_insert_has.
  - split; [exact Hk|]. split.
    + intros val ts Hin. destruct (Hc val ts Hin) as (A & B & C).
      split; [exact A|]. split; [exact B|].
      intros x Hx. destruct (C x Hx) as (C1 & C2 & C3).
      split; [apply in_or_app; now left|auto].
    + intros x Hx Hpx. apply in_app_or in Hx. destruct Hx as [Hx|[<-|[]]].
      * now apply Hs.
      * congruence.
Qed.

Lemma partitions_fold to_keep terms : forall seen m,
  partitions to_keep seen m ->
  partitions to_keep (seen ++ terms)
    (fold_left
       (fun m t => if in_projection t to_keep
                   then class_insert (get_value t) t m else m)
       terms m).
Proof.
  induction terms as [|t terms IH]; intros seen m H; simpl.
  - now rewrite app_nil_r.
  - replace (seen ++ t :: terms) with ((seen ++ [t]) ++ terms)
      by (now rewrite <- app_assoc).
    apply IH. now apply partitions_step.
Qed.

Lemma classes_of_partitions to_keep terms :
  partitions to_keep terms (classes_of to_keep terms).
Proof.
  apply (partitions_fold to_keep terms [] []).
  split; [constructor|]. split; [intros val ts []|intros t []].
Qed.

Lemma classes_fold_noop to_keep terms : forall m,
  (forall t, In t terms -> in_projection t to_keep = false) ->
  fold_left
    (fun m t => if in_projection t to_keep
                then class_insert (get_value t) t m else m)
    terms m = m.
Proof.
  induction terms as [|t terms IH]; intros m H; simpl; [reflexivity|].
  rewrite (H t (or_introl eq_refl)). apply IH.
  intros x Hx. apply H. now right.
Qed.

Lemma classes_of_nil to_keep terms :
  classes_of to_keep terms = [] <->
  forall t, In t terms -> in_projection t to_keep = false.
Proof.
  split.
  - intros Hnil t Hin. destruct (in_projection t to_keep) eqn:Hp; [|reflexivity].
    destruct (classes_of_partitions to_keep terms) as (_ & _ & Hs).
    destruct (Hs t Hin Hp) as [ts [H _]]. rewrite Hnil in H. destruct H.
  - intro H. unfold IC3SA.classes_of. now apply classes_fold_noop.
Qed.

(** With one entry per sort, the classes are those of each sort in turn. *)
Lemma ec_fold_map to_keep (l : list (Sort * list Term)) : forall acc,
  NoDup (map fst acc ++ map fst l) ->
  fold_left
    (fun ec elem => ec_set (fst elem) (classes_of to_keep (snd elem)) ec) l acc
  = acc ++ map (fun elem => (fst elem, classes_of to_keep (snd elem))) l.
Proof.
  induction l as [|[s terms] l IH]; intros acc H; simpl.
  - now rewrite app_nil_r.
  - simpl in H. rewrite ec_set_fresh.
    + rewrite IH.
      * now rewrite <- app_assoc.
      * rewrite map_app, <- app_assoc. exact H.
    + apply NoDup_remove_2 in H. intro Hin. apply H. apply in_or_app. now left.
Qed.

Lemma get_equivalence_classes_map to_keep e :
  NoDup (map fst (term_abstraction_ e)) ->
  get_equivalence_classes_from_model to_keep e
  = map (fun elem => (fst elem, classes_of to_keep (snd elem)))
        (term_abstraction_ e).
Proof.
  intro H. unfold IC3SA.get_equivalence_classes_from_model.
  now rewrite ec_fold_map.
Qed.

Lemma kept_terms_nil to_keep e :
  kept_terms to_keep e = [] <->
  forall s terms, In (s, terms) (term_abstraction_ e) ->
    classes_of to_keep terms = [].
Proof.
  unfold IC3SA.kept_terms. rewrite filter_nil_iff. split.
  - intros H s terms Hin. apply classes_of_nil. intros t Ht. apply H.
    apply in_flat_map. exists (s, terms). auto.
  - intros H t Ht. apply in_flat_map in Ht. destruct Ht as [[s terms] [Hin Ht]].
    apply (classes_of_nil to_keep terms); [now apply (H s)|exact Ht].
Qed.

(** The partition of the classes of a model: with no term kept the cube is
    left as it is, with a term kept the call does not return. *)
Lemma construct_partition_of_model to_keep e cube :
  NoDup (map fst (term_abstraction_ e)) ->
  (kept_terms to_keep e = [] ->
   construct_partition (get_equivalence_classes_from_model to_keep e) cube
     = Returns cube)
  /\ (kept_terms to_keep e <> [] ->
      returns (construct_partition
                 (get_equivalence_classes_from_model to_keep e) cube) = false).
Proof.
  intro Hnd. rewrite (get_equivalence_classes_map to_keep e Hnd). split.
  - intro Hk. apply construct_partition_all_empty.
    intros s cl Hin. apply in_map_iff in Hin.
    destruct Hin as [[s' terms] [E Hin]]. simpl in E. injection E as <- <-.
    exact (proj1 (kept_terms_nil to_keep e) Hk s' terms Hin).
  - intro Hk. apply construct_partition_some_class.
    destruct (kept_terms to_keep e) as [|t ts] eqn:E; [congruence|].
    assert (Ht : In t (kept_terms to_keep e)) by (rewrite E; now left).
    unfold IC3SA.kept_terms in Ht. apply filter_In in Ht. destruct Ht as [Ht Hp].
    apply in_flat_map in Ht. destruct Ht as [[s terms] [Hin Ht]].
    exists s, (classes_of to_keep terms). split.
    + apply in_map_iff. exists (s, terms). auto.
    + intro Hnil.
      rewrite (proj1 (classes_of_nil to_keep terms) Hnil t Ht) in Hp.
      discriminate.
Qed.

End ModelCubesFacts.

Lemma check_children_true cs :
  check_children cs = Returns true <->
  forallb (fun c => match is_eq_lit c SBool with
                    | Returns true => true
                    | _ => false
                    end) cs = true.
Proof.
  induction cs as [|c cs IH]; simpl; [tauto|].
  destruct (is_eq_lit c SBool) as [[|]| | |]; simpl; try exact IH;
    split; discriminate.
Qed.

Lemma check_predicate_lits (get_value : Term -> Term) (solver_true_ : Term)
  (preds : list Term) :
  check_children (predicate_lits get_value solver_true_ preds) = Returns true <->
  forallb (literal_accepted get_value solver_true_) preds = true.
Proof.
  rewrite check_children_true. unfold IC3SA.predicate_lits.
  induction preds as [|p preds IH]; [reflexivity|].
  cbn [map forallb]. rewrite !andb_true_iff, IH.
  unfold IC3SA.literal_accepted. reflexivity.
Qed.

Lemma literal_of_false_predicate (get_value : Term -> Term)
  (solver_true_ : Term) (p : Term) :
  (if Term_eq_dec (get_value p) solver_true_ then true else false) = false ->
  literal_accepted get_value solver_true_ p = is_eq_op (get_op p).
Proof.
  unfold IC3SA.literal_accepted.
  destruct (Term_eq_dec (get_value p) solver_true_); [discriminate|].
  intros _. unfold is_eq_lit, make_term. simpl.
  now destruct (is_eq_op (get_op p)).
Qed.

(** X10: the equivalence classes read off a model partition the kept terms
    of each sort.  With one entry per sort in the term abstraction, the
    result has an entry for every sort (also when none of its terms is
    kept); the classes of a sort have distinct values; no class is empty or
    lists a term twice; the members of a class are terms of the sort that
    the projection keeps and whose value is the value of the class; and
    every kept term of the sort is in the class of its value. *)
Theorem equivalence_classes_partition (get_value : Term -> Term)
  (in_projection : Term -> list Term -> bool) (to_keep : list Term)
  (e : Engine) :
  NoDup (map fst (term_abstraction_ e)) ->
  let ec := get_equivalence_classes_from_model get_value in_projection to_keep e in
  map fst ec = map fst (term_abstraction_ e)
  /\ forall sort terms, In (sort, terms) (term_abstraction_ e) ->
       exists classes,
         In (sort, classes) ec
         /\ partitions get_value in_projection to_keep terms classes.
Proof.
  intro Hnd. cbv zeta.
  rewrite (get_equivalence_classes_map get_value in_projection to_keep e Hnd).
  split.
  - rewrite map_map. reflexivity.
  - intros sort terms Hin.
    exists (classes_of get_value in_projection to_keep terms). split.
    + apply in_map_iff. exists (sort, terms). auto.
    + apply classes_of_partitions.
Qed.

Lemma equivalence_classes_partition_witness :
  map fst (get_equivalence_classes_from_model small_model symbols_in
             [bv_var "x"; bv_var "y"] small_engine)
  = map fst (term_abstraction_ small_engine)
  /\ forall sort terms, In (sort, terms) (term_abstraction_ small_engine) ->
       exists classes,
         In (sort, classes)
            (get_equivalence_classes_from_model small_model symbols_in
               [bv_var "x"; bv_var "y"] small_engine)
         /\ partitions small_model symbols_in [bv_var "x"; bv_var "y"]
              terms classes.
Proof.
  apply (equivalence_classes_partition small_model symbols_in
           [bv_var "x"; bv_var "y"] small_engine).
  simpl. constructor; [intros []|constructor].
Defined.

(** X11: the partition of the classes read off a model.  When the
    projection keeps no term of the abstraction, [construct_partition]
    returns the cube it was given; as soon as it keeps one, there is a
    class, and the call does not return. *)
Theorem construct_partition_of_model_classes (get_value : Term -> Term)
  (in_projection : Term -> list Term -> bool) (to_keep : list Term)
  (e : Engine) (cube : TermVec) :
  NoDup (map fst (term_abstraction_ e)) ->
  let ec := get_equivalence_classes_from_model get_value in_projection to_keep e in
  (kept_terms in_projection to_keep e = [] ->
   construct_partition ec cube = Returns cube)
  /\ (kept_terms in_projection to_keep e <> [] ->
      returns (construct_partition ec cube) = false).
Proof.
  intro Hnd. cbv zeta. now apply construct_partition_of_model.
Qed.

Lemma construct_partition_of_model_classes_witness :
  returns
    (construct_partition
       (get_equivalence_classes_from_model small_model symbols_in
          [bv_var "x"; bv_var "y"] small_engine) []) = false.
Proof.
  apply (construct_partition_of_model_classes small_model symbols_in
           [bv_var "x"; bv_var "y"] small_engine []).
  - simpl. constructor; [intros []|constructor].
  - vm_compute. discriminate.
Defined.

Lemma cube_of_partition_returns (get_value : Term -> Term)
  (in_projection : Term -> list Term -> bool)
  (ic3formula_conjunction : TermVec -> IC3Formula)
  (to_keep : list Term) (e : Engine) (lits : TermVec) (cube : IC3Formula) :
  NoDup (map fst (term_abstraction_ e)) ->
  (forall c, children (ic3formula_conjunction c) = c) ->
  cube_of_partition ic3formula_conjunction
    (get_equivalence_classes_from_model get_value in_projection to_keep e) lits
    = Returns cube <->
  kept_terms in_projection to_keep e = []
  /\ check_children lits = Returns true
  /\ cube = ic3formula_conjunction lits.
Proof.
  intros Hnd Hconj. unfold cube_of_partition.
  destruct (construct_partition_of_model get_value in_projection to_keep e lits
              Hnd) as [Hnone Hsome].
  destruct (kept_terms in_projection to_keep e) as [|t ts] eqn:Hk.
  - rewrite (Hnone eq_refl). unfold ic3formula_check_valid. rewrite Hconj.
    destruct (check_children lits) as [[|]| | |].
    + split.
      * intros [= <-]. auto.
      * intros (_ & _ & ->). reflexivity.
    + split; [discriminate|]. intros (_ & H & _). discriminate.
    + split; [discriminate|]. intros (_ & H & _). discriminate.
    + split; [discriminate|]. intros (_ & H & _). discriminate.
    + split; [discriminate|]. intros (_ & H & _). discriminate.
  - assert (Hret : returns
              (construct_partition
                 (get_equivalence_classes_from_model get_value in_projection
                    to_keep e) lits) = false)
      by (apply Hsome; discriminate).
    destruct (construct_partition _ _); [discriminate| | |];
      (split; [discriminate|intros (H & _); discriminate]).
Qed.

Lemma generalize_lits_all (get_value : Term -> Term) (solver_true_ : Term)
  (free_symbolic_consts : Term -> list Term) (coi_symbols preds : list Term) :
  generalize_lits get_value solver_true_ free_symbolic_consts coi_symbols preds
  = predicate_lits get_value solver_true_ preds.
Proof.
  unfold generalize_lits, predicate_lits. apply map_ext. intro p.
  now destruct (scan_free_symbols coi_symbols (free_symbolic_consts p)).
Qed.

(** X12: [get_model_ic3formula] throws when asked for inputs or next-state
    values.  Otherwise it returns exactly when the projection on the state
    variables keeps no term of the abstraction and the literal of every
    predicate passes [is_eq_lit]; the cube is then the conjunction of the
    predicate literals alone.  The literal of a predicate that is false in
    the model passes only if the predicate is an application of [Equal],
    [Distinct] or [BVComp]: a false boolean symbol, for one, makes the
    call fail. *)
Theorem get_model_ic3formula_outcome (get_value : Term -> Term)
  (solver_true_ : Term) (in_projection : Term -> list Term -> bool)
  (ic3formula_conjunction : TermVec -> IC3Formula) (e : Engine) :
  NoDup (map fst (term_abstraction_ e)) ->
  (forall c, children (ic3formula_conjunction c) = c) ->
  let run :=
    get_model_ic3formula get_value solver_true_ in_projection
      ic3formula_conjunction in
  (forall a b, a <> None \/ b <> None ->
     run a b e = Throws not_fully_implemented)
  /\ (forall cube,
        run None None e = Returns cube <->
        kept_terms in_projection (statevars (ts_ e)) e = []
        /\ forallb (literal_accepted get_value solver_true_) (predset_ e) = true
        /\ cube = ic3formula_conjunction
                    (predicate_lits get_value solver_true_ (predset_ e)))
  /\ (forall p, In p (predset_ e) ->
        (if Term_eq_dec (get_value p) solver_true_ then true else false) = false ->
        is_eq_op (get_op p) = false ->
        returns (run None None e) = false).
Proof.
  intros Hnd Hconj. cbv zeta.
  assert (Hmain : forall cube,
    get_model_ic3formula get_value solver_true_ in_projection
      ic3formula_conjunction None None e = Returns cube <->
    kept_terms in_projection (statevars (ts_ e)) e = []
    /\ forallb (literal_accepted get_value solver_true_) (predset_ e) = true
    /\ cube = ic3formula_conjunction
                (predicate_lits get_value solver_true_ (predset_ e))).
  { intro cube. unfold get_model_ic3formula. cbv zeta.
    rewrite (cube_of_partition_returns get_value in_projection
               ic3formula_conjunction _ e _ cube Hnd Hconj).
    now rewrite check_predicate_lits. }
  split; [|split; [exact Hmain|]].
  - intros a b [H|H]; unfold get_model_ic3formula;
      destruct a, b; try reflexivity; congruence.
  - intros p Hin Hfalse Hop.
    destruct (get_model_ic3formula get_value solver_true_ in_projection
                ic3formula_conjunction None None e) as [cube| | |] eqn:Hrun;
      try reflexivity.
    destruct (proj1 (Hmain cube) eq_refl) as (_ & Hall & _).
    rewrite forallb_forall in Hall. specialize (Hall p Hin).
    rewrite (literal_of_false_predicate get_value solver_true_ p Hfalse) in Hall.
    congruence.
Qed.

Lemma get_model_ic3formula_outcome_witness :
  returns
    (get_model_ic3formula small_model (make_value true) symbols_in and_cube
       None None (mkEngine (ts_ small_engine) [bv_var "p"] [])) = false.
Proof.
  pose proof (get_model_ic3formula_outcome small_model (make_value true)
                symbols_in and_cube
                (mkEngine (ts_ small_engine) [bv_var "p"] [])) as H.
  assert (Hnd : NoDup (map fst (term_abstraction_
                  (mkEngine (ts_ small_engine) [bv_var "p"] []))))
    by (simpl; constructor).
  specialize (H Hnd (fun c => eq_refl)). cbv zeta in H.
  destruct H as (_ & _ & H).
  apply (H (bv_var "p")); [now left|reflexivity|reflexivity].
Defined.

(** X15: [generalize_predecessor] keeps the literal of every predicate.
    It returns exactly when the cone of influence of the target has no
    more symbols than there are state variables, the projection on the
    cone keeps no term of the abstraction and every predicate literal
    passes [is_eq_lit]; the cube is then the conjunction of the literals
    of all predicates of [predset_], whatever the target and the frame:
    the loop over the free symbols of a predicate drops none that lies
    outside the cone. *)
Theorem generalize_predecessor_keeps_all_predicates (get_value : Term -> Term)
  (solver_true_ : Term) (in_projection : Term -> list Term -> bool)
  (ic3formula_conjunction : TermVec -> IC3Formula)
  (statevars_in_coi free_symbolic_consts : Term -> list Term)
  (e : Engine) (i : nat) (c cube : IC3Formula) :
  NoDup (map fst (term_abstraction_ e)) ->
  (forall c, children (ic3formula_conjunction c) = c) ->
  generalize_predecessor get_value solver_true_ in_projection
    ic3formula_conjunction statevars_in_coi free_symbolic_consts i c e
    = Returns cube <->
  (List.length (statevars_in_coi (term c))
     <= List.length (statevars (ts_ e)))%nat
  /\ kept_terms in_projection (statevars_in_coi (term c)) e = []
  /\ forallb (literal_accepted get_value solver_true_) (predset_ e) = true
  /\ cube = ic3formula_conjunction
              (predicate_lits get_value solver_true_ (predset_ e)).
Proof.
  intros Hnd Hconj. unfold generalize_predecessor. cbv zeta.
  rewrite generalize_lits_all.
  destruct (Nat.leb_spec (List.length (statevars_in_coi (term c)))
              (List.length (statevars (ts_ e)))) as [Hle|Hgt].
  - rewrite (cube_of_partition_returns get_value in_projection
               ic3formula_conjunction _ e _ cube Hnd Hconj).
    rewrite check_predicate_lits. tauto.
  - split; [discriminate|]. intros [H _]. lia.
Qed.

Lemma generalize_predecessor_keeps_all_predicates_witness :
  generalize_predecessor small_model (make_value true) symbols_in and_cube
    (fun _ => [bv_var "x"]) (fun _ => [])
    0 (and_cube []) (mkEngine (ts_ small_engine) (predset_ small_engine) [])
  = Returns
      (and_cube [make_term Not [make_term Equal [bv_var "x"; bv_var "y"]]]).
Proof.
  apply (generalize_predecessor_keeps_all_predicates small_model
           (make_value true) symbols_in and_cube
           (fun _ => [bv_var "x"]) (fun _ => [])
           (mkEngine (ts_ small_engine) (predset_ small_engine) [])
           0%nat (and_cube [])
           (and_cube
              [make_term Not [make_term Equal [bv_var "x"; bv_var "y"]]])).
  - simpl. constructor.
  - intro c. reflexivity.
  - split; [simpl; lia|]. split; [reflexivity|]. split; reflexivity.
Defined.

(** *** The refinement *)

Lemma chain_head pg : chain pg = term (target pg) :: tl (chain pg).
Proof. destruct pg as [t i [nxt|]]; reflexivity. Qed.

Lemma refine_loop_spec (only_curr : Term -> bool) : forall pg cex,
  refine_loop only_curr pg cex =
    if forallb only_curr (tl (chain pg))
    then Returns (cex ++ tl (chain pg))
    else AssertFails "ts_->only_curr(tmp->target.term)".
Proof.
  fix IH 1. intros [t i [nxt|]] cex.
  - cbn [refine_loop chain tl]. rewrite (chain_head nxt). cbn [forallb].
    destruct (only_curr (term (target nxt))); [|reflexivity].
    rewrite IH. cbn [andb].
    destruct (forallb only_curr (tl (chain nxt))); [|reflexivity].
    now rewrite <- app_assoc.
  - simpl. now rewrite app_nil_r.
Qed.

(** X13: [refine] never returns.  It ends in the exception of the missing
    implementation exactly when the first target of the counterexample
    intersects the initial states and every later target is over current
    state variables only; otherwise an assertion fails. *)
Theorem refine_never_returns (check_intersects_initial only_curr : Term -> bool)
  (cex_pg : ProofGoal) :
  returns (refine check_intersects_initial only_curr cex_pg) = false
  /\ (refine check_intersects_initial only_curr cex_pg = Throws refine_nyi <->
        check_intersects_initial (term (target cex_pg)) = true
        /\ forallb only_curr (tl (chain cex_pg)) = true)
  /\ (exists what,
        refine check_intersects_initial only_curr cex_pg = Throws refine_nyi
        \/ refine check_intersects_initial only_curr cex_pg = AssertFails what).
Proof.
  unfold refine. rewrite refine_loop_spec.
  destruct (check_intersects_initial (term (target cex_pg)));
    [destruct (forallb only_curr (tl (chain cex_pg)))|].
  - split; [reflexivity|]. split; [tauto|]. exists "". now left.
  - split; [reflexivity|]. split.
    + split; [discriminate|intros [_ H]; discriminate].
    + eexists. right. reflexivity.
  - split; [reflexivity|]. split.
    + split; [discriminate|intros [H _]; discriminate].
    + eexists. right. reflexivity.
Qed.

End IC3SAFacts.
